(** * Cloud load balancing: the metaheuristic allocation strategies

    A shallow embedding of [metaheuristic_algorithms.py]: the node pool, the
    fault injector, the metrics collector and the four allocation strategies
    (Lion, Bat, Crow Search, Monarch Butterfly), followed by the properties
    the specification states about them.  The results loop of
    [comparison.py] and the standalone allocator of [lion_optimization.py]
    are embedded after them, with further properties of the code.

    Conventions of the embedding.
    - Python numbers are exact rationals ([Q]).  Loads start as integers and
      become fractional only through the factor [0.3] of the Lion nomad
      phase; the rounding of IEEE doubles is not modelled.  The properties
      are stated so that they do not depend on it: an exact amount is stated
      for whole numbers only, on which the additions of the program are
      exact, and a bound is stated only where rounding cannot cross it.
    - The node pool [self.nodes] is a list that is never resized; a reference
      to a node dict (in a territory, in the nomad set, in the Crow memory) is
      the index of the node in the pool, so aliasing is exact.
    - The process-wide random source is an explicit [Entropy] value threaded
      through every operation; a theorem quantified over all entropies covers
      every behaviour of the program.
    - An operation returns the state it leaves behind together with an
      [outcome]: a returned value or a raised exception. *)

From Stdlib Require Import ZArith QArith Qround Bool List Lia Lqa.
From stdpp Require Import base list strings.

Set Default Proof Using "Type".
Open Scope Q_scope.

(** ** Numbers *)

Definition Qlt_bool (x y : Q) : bool := negb (Qle_bool y x).

(** [int(x)]: truncation towards zero. *)
Definition py_int (x : Q) : Z := Z.quot (Qnum x) (Zpos (Qden x)).

(** [min(a, b)] and [min(a, b, c)] on numbers: the first minimal argument. *)
Definition py_min2 (a b : Q) : Q := if Qlt_bool b a then b else a.
Definition py_min3 (a b c : Q) : Q := py_min2 (py_min2 a b) c.

(** [float('inf')] next to finite values. *)
Inductive Fitness : Type :=
| Finite (q : Q)
| Inf.

Definition fit_ltb (a b : Fitness) : bool :=
  match a, b with
  | Finite x, Finite y => Qlt_bool x y
  | Finite _, Inf => true
  | Inf, _ => false
  end.

(** ** Sequences *)

Section Sequences.
Context {A K : Type}.
Variable ltb : K -> K -> bool.
Variable key : A -> K.

(** [min(l, key=key)]: the first element whose key is minimal; Python
    raises [ValueError] on an empty sequence ([None] here). *)
Definition py_min (l : list A) : option A :=
  match l with
  | [] => None
  | x :: tl =>
      Some (fold_left (fun best y => if ltb (key y) (key best) then y else best) tl x)
  end.

(** [max(l, key=key)]: the first element whose key is maximal. *)
Definition py_max (l : list A) : option A :=
  match l with
  | [] => None
  | x :: tl =>
      Some (fold_left (fun best y => if ltb (key best) (key y) then y else best) tl x)
  end.

(** Insertion of [x] in front of a list sorted in descending key order;
    [x] stays before the elements with an equal key. *)
Fixpoint insert_desc (x : A) (l : list A) : list A :=
  match l with
  | [] => [x]
  | y :: tl => if ltb (key x) (key y) then y :: insert_desc x tl else x :: l
  end.

(** [sorted(l, key=key, reverse=True)]: stable, descending. *)
Definition sorted_reverse (l : list A) : list A :=
  fold_right insert_desc [] l.
End Sequences.

(** [enumerate(l)] from a start index. *)
Fixpoint enumerate_from {A : Type} (k : nat) (l : list A) : list (nat * A) :=
  match l with
  | [] => []
  | x :: tl => (k, x) :: enumerate_from (S k) tl
  end.

Definition enumerate {A : Type} (l : list A) : list (nat * A) := enumerate_from 0 l.

(** [range(0, stop, step)] for a positive step: [(stop + step - 1) // step]
    values. *)
Definition py_range_step (stop step : nat) : list nat :=
  map (fun k => (k * step)%nat) (seq 0 ((stop + step - 1) / step)).

(** ** The random source *)

(** One stream per primitive of the [random] module used by the program. *)
Record Entropy : Type := mkEntropy {
  floats : list Q;          (* results of random.random(), in [0, 1) *)
  picks : list nat;         (* positions chosen by random.choice *)
  samples : list (list nat) (* positions chosen by random.sample *)
}.

Definition random_random (E : Entropy) : Q * Entropy :=
  match floats E with
  | [] => (0, E)
  | r :: tl => (r, mkEntropy tl (picks E) (samples E))
  end.

(** [random.choice(l)] on a non-empty [l]. *)
Definition random_choice {A : Type} (l : list A) (E : Entropy) : option A * Entropy :=
  match picks E with
  | [] => (l !! 0%nat, E)
  | p :: tl => (l !! (p mod length l)%nat, mkEntropy (floats E) tl (samples E))
  end.

Fixpoint distinct (l : list nat) : bool :=
  match l with
  | [] => true
  | x :: tl => negb (existsb (Nat.eqb x) tl) && distinct tl
  end.

Definition valid_sample (n k : nat) (ps : list nat) : bool :=
  (length ps =? k)%nat && distinct ps && forallb (fun p => (p <? n)%nat) ps.

(** [random.sample(l, k)] for [k <= len(l)]: [k] elements at distinct
    positions, in the order drawn. *)
Definition random_sample {A : Type} (l : list A) (k : nat) (E : Entropy) : list A * Entropy :=
  match samples E with
  | [] => (firstn k l, E)
  | ps :: tl =>
      (if valid_sample (length l) k ps then omap (fun p => l !! p) ps else firstn k l,
       mkEntropy (floats E) (picks E) tl)
  end.

(** ** Outcomes *)

Inductive exn : Type := IndexError.

Inductive outcome (A : Type) : Type :=
| Ret (a : A)
| Raise (e : exn).
Arguments Ret {A} a.
Arguments Raise {A} e.

(** ** Data model *)

Record Node : Type := mkNode {
  node_id : Z;
  pe : Z;
  mips : Z;
  capacity : Z;
  current_load : Q;
  failed : bool;
  energy_coefficient : Q
}.

Record Task : Type := mkTask {
  task_id : Z;
  task_length : Q;
  task_pe : Z;
  mips_required : Q;
  priority : Z
}.

Definition cap (n : Node) : Q := inject_Z (capacity n).

Definition set_load (q : Q) (n : Node) : Node :=
  mkNode (node_id n) (pe n) (mips n) (capacity n) q (failed n) (energy_coefficient n).

Definition set_failed (b : bool) (n : Node) : Node :=
  mkNode (node_id n) (pe n) (mips n) (capacity n) (current_load n) b (energy_coefficient n).

(** [n['current_load'] += m] and [n['current_load'] -= m]. *)
Definition add_load (m : Q) (n : Node) : Node := set_load (current_load n + m) n.
Definition sub_load (m : Q) (n : Node) : Node := set_load (current_load n - m) n.

(** [a == b] on node dicts: key by key, numbers by value. *)
Definition node_eqb (a b : Node) : bool :=
  (node_id a =? node_id b)%Z && (pe a =? pe b)%Z && (mips a =? mips b)%Z
  && (capacity a =? capacity b)%Z && Qeq_bool (current_load a) (current_load b)
  && Bool.eqb (failed a) (failed b)
  && Qeq_bool (energy_coefficient a) (energy_coefficient b).

(** [not n['failed'] and n['capacity'] > 0]. *)
Definition is_active (n : Node) : bool := negb (failed n) && (0 <? capacity n)%Z.

(** [[n for n in self.nodes if not n['failed'] and n['capacity'] > 0]]: each
    node with its position in the pool. *)
Definition active_nodes (ns : list Node) : list (nat * Node) :=
  List.filter (fun p => is_active (snd p)) (enumerate ns).

(** The nodes a list of references points at, with their positions. *)
Definition deref (ns : list Node) (refs : list nat) : list (nat * Node) :=
  omap (fun i => match ns !! i with Some n => Some (i, n) | None => None end) refs.

(** [current_load / capacity]. *)
Definition utilization (n : Node) : Q := current_load n / cap n.

Definition fits (task : Task) (n : Node) : bool :=
  Qle_bool (current_load n + mips_required task) (cap n).

(** ** Workload and pool generator *)

(** The values drawn for one node: [random.randint(2000, 4000)] twice (the
    [mips] entry and the rated speed inside [capacity]) and
    [random.uniform(0.001, 0.003)]. *)
Record NodeDraw : Type := mkNodeDraw {
  drawn_mips : Z;
  drawn_speed : Z;
  drawn_energy : Q
}.

(** The values drawn for one task: two [random.randint(200, 4000)] and a
    [random.choice([1, 2, 3])]. *)
Record TaskDraw : Type := mkTaskDraw {
  drawn_length : Z;
  drawn_mips_required : Z;
  drawn_priority : Z
}.

Definition initialize_nodes (num_nodes : nat) (draw : nat -> NodeDraw) : list Node :=
  map (fun i => mkNode (Z.of_nat i) 4 (drawn_mips (draw i)) (4 * drawn_speed (draw i))
                       0 false (drawn_energy (draw i)))
      (seq 0 num_nodes).

Definition generate_tasks (num_tasks : nat) (draw : nat -> TaskDraw) : list Task :=
  map (fun i => mkTask (Z.of_nat i) (inject_Z (drawn_length (draw i))) 1
                       (inject_Z (drawn_mips_required (draw i))) (drawn_priority (draw i)))
      (seq 0 num_tasks).

Definition node_draw_ok (d : NodeDraw) : Prop :=
  (2000 <= drawn_mips d <= 4000)%Z /\ (2000 <= drawn_speed d <= 4000)%Z.

Definition task_draw_ok (d : TaskDraw) : Prop :=
  (200 <= drawn_length d <= 4000)%Z /\ (200 <= drawn_mips_required d <= 4000)%Z.

(** ** Strategy state *)

(** A territory of the Lion strategy; [territory_nodes] are references into
    the pool. *)
Record Territory : Type := mkTerritory {
  territory_nodes : list nat;
  best_fitness : Fitness;
  best_node : option nat
}.

(** The fields each subclass adds to the base class. *)
Inductive Algo : Type :=
| LionOptimizationLB (pride_size : nat) (territories : list Territory)
                     (nomads : list nat) (migration_threshold : Q)
| BatAlgorithm (loudness pulse_rate : Q)
| CrowSearchAlgorithm (memory : list (option (nat * Q))) (flight_length : Q)
| MonarchButterflyOptimization (bar : Q).

(** An instance of [MetaheuristicAlgorithm]. *)
Record Sim : Type := mkSim {
  num_nodes : nat;
  num_tasks : nat;
  nodes : list Node;
  tasks : list Task;
  fault_probability : Q;
  min_nodes_for_operation : nat;
  completed_tasks : Z;
  algo : Algo
}.

Definition set_nodes (ns : list Node) (s : Sim) : Sim :=
  mkSim (num_nodes s) (num_tasks s) ns (tasks s) (fault_probability s)
        (min_nodes_for_operation s) (completed_tasks s) (algo s).

Definition set_algo (a : Algo) (s : Sim) : Sim :=
  mkSim (num_nodes s) (num_tasks s) (nodes s) (tasks s) (fault_probability s)
        (min_nodes_for_operation s) (completed_tasks s) a.

Definition set_completed_tasks (c : Z) (s : Sim) : Sim :=
  mkSim (num_nodes s) (num_tasks s) (nodes s) (tasks s) (fault_probability s)
        (min_nodes_for_operation s) c (algo s).

(** [MetaheuristicAlgorithm.__init__], the subclass fields given. *)
Definition MetaheuristicAlgorithm_init (n_nodes n_tasks : nat)
    (nd : nat -> NodeDraw) (td : nat -> TaskDraw) (a : Algo) : Sim :=
  mkSim n_nodes n_tasks (initialize_nodes n_nodes nd) (generate_tasks n_tasks td)
        0.05 3 0 a.

(** ** Lion strategy *)

Module Lion.

(** [self.nodes[i:j]] as references. *)
Definition slice (ns : list Node) (i j : nat) : list nat :=
  seq i (Nat.min j (length ns) - i).

Definition _initialize_territories (n_nodes pride_size : nat) (ns : list Node)
    : list Territory :=
  let territories :=
    flat_map (fun i =>
                let territory_nodes := slice ns i (i + pride_size) in
                if (2 <=? length territory_nodes)%nat
                then [mkTerritory territory_nodes Inf None]
                else [])
             (py_range_step n_nodes pride_size) in
  match territories with
  | [] => [mkTerritory (slice ns 0 (length ns)) Inf None]
  | _ => territories
  end.

Definition init (n_nodes n_tasks : nat) (nd : nat -> NodeDraw) (td : nat -> TaskDraw)
    : Sim :=
  let pride_size := Nat.max 5 (n_nodes / 4) in
  let ns := initialize_nodes n_nodes nd in
  MetaheuristicAlgorithm_init n_nodes n_tasks nd td
    (LionOptimizationLB pride_size (_initialize_territories n_nodes pride_size ns)
                        [] 0.8).

Definition _calculate_fitness (node : Node) : Fitness :=
  if failed node || (capacity node <=? 0)%Z then Inf
  else Finite (current_load node / cap node * 100).

(** The loop of [_hunting_phase] from territory number [k] on; [todo] are
    the territories not visited yet.  Result: pool, territories, entropy and
    the returned boolean. *)
Fixpoint hunting_loop (task : Task) (todo : list Territory) (k : nat)
    (ns : list Node) (ts : list Territory) (E : Entropy)
    : list Node * list Territory * Entropy * bool :=
  match todo with
  | [] => (ns, ts, E, false)
  | territory :: rest =>
      let active :=
        List.filter (fun p => is_active (snd p)) (deref ns (territory_nodes territory)) in
      if (length active <? 2)%nat then hunting_loop task rest (S k) ns ts E
      else
        let (r, E1) := random_random E in
        if Qlt_bool r 0.7 then
          let num_hunters :=
            Nat.max 2 (Nat.min (length active / 2) (length active)) in
          let (hunters, E2) := random_sample active num_hunters E1 in
          match py_min fit_ltb (fun h => _calculate_fitness (snd h)) hunters with
          | Some (i, best_hunter) =>
              if fits task best_hunter then
                let ns' := alter (add_load (mips_required task)) i ns in
                let current_fit :=
                  _calculate_fitness (add_load (mips_required task) best_hunter) in
                let ts' :=
                  if fit_ltb current_fit (best_fitness territory)
                  then <[k := mkTerritory (territory_nodes territory) current_fit (Some i)]> ts
                  else ts in
                (ns', ts', E2, true)
              else hunting_loop task rest (S k) ns ts E2
          | None => hunting_loop task rest (S k) ns ts E2 (* no hunters: not reached *)
          end
        else hunting_loop task rest (S k) ns ts E1
  end.

Definition _hunting_phase (task : Task) (ns : list Node) (ts : list Territory)
    (E : Entropy) : list Node * list Territory * Entropy * bool :=
  hunting_loop task ts 0 ns ts E.

(** The loop of [_nomad_phase] over the remaining nomads.  The amount
    [migratable] and the two updates are computed exactly here; the program
    computes them in doubles, so that on fractional values the amount taken
    from the nomad and the amount added to the recipient can differ in the
    last place. *)
Fixpoint nomad_loop (task : Task) (threshold : Q) (todo : list nat) (ns : list Node)
    : list Node * bool :=
  match todo with
  | [] => (ns, false)
  | i :: rest =>
      match ns !! i with
      | None => nomad_loop task threshold rest ns
      | Some nomad =>
          if Qlt_bool (cap nomad * threshold) (current_load nomad) then
            let active :=
              List.filter (fun p => is_active (snd p) && negb (node_eqb (snd p) nomad))
                          (enumerate ns) in
            match py_min fit_ltb (fun p => _calculate_fitness (snd p)) active with
            | None => nomad_loop task threshold rest ns
            | Some (j, recipient) =>
                let migratable :=
                  py_min3 (current_load nomad * 0.3) (mips_required task)
                          (cap recipient - current_load recipient) in
                if Qlt_bool 0 migratable then
                  (alter (add_load migratable) j (alter (sub_load migratable) i ns), true)
                else nomad_loop task threshold rest ns
            end
          else nomad_loop task threshold rest ns
      end
  end.

Definition _nomad_phase (task : Task) (n_nodes : nat) (threshold : Q)
    (ns : list Node) (nomads : list nat) : list Node * list nat * bool :=
  match nomads with
  | [] =>
      match active_nodes ns with
      | [] => (ns, nomads, false)
      | active =>
          let nomads' :=
            map fst (firstn (Nat.max 2 (n_nodes / 10))
                            (sorted_reverse fit_ltb (fun p => _calculate_fitness (snd p))
                                            active)) in
          let (ns', b) := nomad_loop task threshold nomads' ns in
          (ns', nomads', b)
      end
  | _ =>
      let (ns', b) := nomad_loop task threshold nomads ns in
      (ns', nomads, b)
  end.

Definition allocate_task (task : Task) (n_nodes : nat) (pride_size : nat)
    (ts : list Territory) (nomads : list nat) (threshold : Q)
    (ns : list Node) (E : Entropy) : list Node * Algo * Entropy * bool :=
  (* Phase 1: pride hunting *)
  let '(ns1, ts1, E1, hunted) := _hunting_phase task ns ts E in
  if hunted then (ns1, LionOptimizationLB pride_size ts1 nomads threshold, E1, true)
  else
    (* Phase 2: nomad migration *)
    let '(ns2, nomads2, migrated) := _nomad_phase task n_nodes threshold ns1 nomads in
    let a2 := LionOptimizationLB pride_size ts1 nomads2 threshold in
    if migrated then (ns2, a2, E1, true)
    else
      (* Phase 3: global fallback *)
      match py_min fit_ltb (fun p => _calculate_fitness (snd p)) (active_nodes ns2) with
      | Some (i, best_global) =>
          if fits task best_global
          then (alter (add_load (mips_required task)) i ns2, a2, E1, true)
          else (ns2, a2, E1, false)
      | None => (ns2, a2, E1, false)
      end.

End Lion.

(** ** Bat strategy *)

Module Bat.

Definition allocate_task (task : Task) (pulse_rate : Q) (ns : list Node) (E : Entropy)
    : list Node * Entropy * bool :=
  let active := active_nodes ns in
  match py_min Qlt_bool (fun p => utilization (snd p)) active with
  | None => (ns, E, false) (* no active node *)
  | Some (b, best_node) =>
      let (r, E1) := random_random E in
      let place_best E' :=
        if fits task best_node
        then (alter (add_load (mips_required task)) b ns, E', true)
        else (ns, E', false) in
      if Qlt_bool pulse_rate r then
        match random_choice active E1 with
        | (Some (c, candidate), E2) =>
            if fits task candidate
            then (alter (add_load (mips_required task)) c ns, E2, true)
            else place_best E2
        | (None, E2) => place_best E2
        end
      else place_best E1
  end.

End Bat.

(** ** Crow Search strategy *)

Module Crow.

(** A memory slot: [None] or a dict [{'node': reference, 'load': number}]. *)
Abbreviation Slot := (option (nat * Q)).

Definition truthy (m : Slot) : bool := match m with Some _ => true | None => false end.

(** The refresh loop over [enumerate(self.nodes)]; [self.memory[i]] raises
    [IndexError] when the memory is shorter than [i + 1]. *)
Fixpoint refresh_loop (active : list (nat * Node)) (todo : list (nat * Node))
    (memory : list Slot) : list Slot * outcome unit :=
  match todo with
  | [] => (memory, Ret tt)
  | (i, node) :: rest =>
      if existsb (fun p => node_eqb node (snd p)) active then
        match memory !! i with
        | None => (memory, Raise IndexError)
        | Some None => refresh_loop active rest memory
        | Some (Some (j, _)) =>
            refresh_loop active rest (<[i := Some (j, current_load node)]> memory)
        end
      else refresh_loop active rest memory
  end.

(** [[m for m in self.memory if m and not m['node']['failed'] and
    m['node']['capacity'] > 0]], each with the node it refers to. *)
Definition valid_memories (ns : list Node) (memory : list Slot)
    : list (nat * Q * Node) :=
  omap (fun m : Slot =>
          match m with
          | Some (j, load) =>
              match ns !! j with
              | Some n => if is_active n then Some (j, load, n) else None
              | None => None
              end
          | None => None
          end) memory.

Definition allocate_task (task : Task) (memory : list Slot) (ns : list Node)
    : list Node * list Slot * outcome bool :=
  match active_nodes ns with
  | [] => (ns, memory, Ret false)
  | active =>
      (* Initialize memory if empty *)
      let memory1 :=
        if negb (existsb truthy memory)
        then map (fun p => Some (fst p, current_load (snd p))) active
        else memory in
      (* Update memory with current loads *)
      match refresh_loop active (enumerate ns) memory1 with
      | (memory2, Raise e) => (ns, memory2, Raise e)
      | (memory2, Ret _) =>
          (* Find best node in memory *)
          match py_min Qlt_bool (fun m => snd (fst m) / cap (snd m))
                       (valid_memories ns memory2) with
          | None => (ns, memory2, Ret false)
          | Some (j, _, best) =>
              if fits task best
              then (alter (add_load (mips_required task)) j ns, memory2, Ret true)
              else (ns, memory2, Ret false)
          end
      end
  end.

End Crow.

(** ** Monarch Butterfly strategy *)

Module Monarch.

Definition allocate_task (task : Task) (bar : Q) (ns : list Node) (E : Entropy)
    : list Node * Entropy * bool :=
  match active_nodes ns with
  | [] => (ns, E, false)
  | active =>
      let (r, E1) := random_random E in
      if Qlt_bool r (bar / (bar + 1)) then
        (* Migration operator *)
        let src := py_max Qlt_bool (fun p => utilization (snd p)) active in
        match py_min Qlt_bool (fun p => utilization (snd p)) active with
        | Some (d, dst) =>
            if fits task dst
            then (alter (add_load (mips_required task)) d ns, E1, true)
            else (ns, E1, false)
        | None => (ns, E1, false)
        end
      else
        (* Adjustment operator *)
        match random_choice active E1 with
        | (Some (c, node), E2) =>
            if fits task node
            then (alter (add_load (mips_required task)) c ns, E2, true)
            else (ns, E2, false)
        | (None, E2) => (ns, E2, false)
        end
  end.

End Monarch.

(** ** The base class: dispatch, fault injection, run and metrics *)

(** [self.allocate_task(task)], dispatched on the class of [self]. *)
Definition allocate_task (task : Task) (E : Entropy) (s : Sim)
    : Sim * Entropy * outcome bool :=
  match algo s with
  | LionOptimizationLB pride_size ts nomads threshold =>
      let '(ns', a', E', b) :=
        Lion.allocate_task task (num_nodes s) pride_size ts nomads threshold (nodes s) E in
      (set_algo a' (set_nodes ns' s), E', Ret b)
  | BatAlgorithm loudness pulse_rate =>
      let '(ns', E', b) := Bat.allocate_task task pulse_rate (nodes s) E in
      (set_nodes ns' s, E', Ret b)
  | CrowSearchAlgorithm memory flight_length =>
      let '(ns', memory', o) := Crow.allocate_task task memory (nodes s) in
      (set_algo (CrowSearchAlgorithm memory' flight_length) (set_nodes ns' s), E, o)
  | MonarchButterflyOptimization bar =>
      let '(ns', E', b) := Monarch.allocate_task task bar (nodes s) E in
      (set_nodes ns' s, E', Ret b)
  end.

(** [node['current_load']] of the node at reference [i]. *)
Definition load_at (ns : list Node) (i : nat) : Q :=
  match ns !! i with
  | Some n => current_load n
  | None => 0
  end.

(** [max(1, int(self.num_nodes * 0.1))]. *)
Definition max_failures (s : Sim) : Z :=
  Z.max 1 (py_int (inject_Z (Z.of_nat (num_nodes s)) * 0.1)).

(** [sum(1 for n in self.nodes if n['failed'])]. *)
Definition current_failures (ns : list Node) : nat := length (List.filter failed ns).

(** [[n for n in self.nodes if not n['failed']]], with positions. *)
Definition not_failed_nodes (ns : list Node) : list (nat * Node) :=
  List.filter (fun p => negb (failed (snd p))) (enumerate ns).

Definition simulate_failure (E : Entropy) (s : Sim) : Sim * Entropy * outcome unit :=
  let active := not_failed_nodes (nodes s) in
  if (length active <=? min_nodes_for_operation s)%nat then (s, E, Ret tt)
  else if (max_failures s <=? Z.of_nat (current_failures (nodes s)))%Z then (s, E, Ret tt)
  else
    (* Select a random active node to fail *)
    match random_choice active E with
    | (None, E1) => (s, E1, Ret tt) (* empty choice: not reached *)
    | (Some (i, node), E1) =>
        let (r, E2) := random_random E1 in
        if Qlt_bool r (fault_probability s) then
          let s1 := set_nodes (alter (set_failed true) i (nodes s)) s in
          if Qlt_bool 0 (current_load node) then
            let temp_task :=
              mkTask (-1) (current_load node) 1 (current_load node) 1 in
            match allocate_task temp_task E2 s1 with
            | (s2, E3, Ret true) =>
                (set_nodes (alter (set_load 0) i (nodes s2)) s2, E3, Ret tt)
            | (s2, E3, Ret false) =>
                (set_completed_tasks
                   (completed_tasks s2 - py_int (load_at (nodes s2) i / 1000)) s2,
                 E3, Ret tt)
            | (s2, E3, Raise e) => (s2, E3, Raise e)
            end
          else (s1, E2, Ret tt)
        else (s, E2, Ret tt)
    end.

Module Metrics.
Record t : Type := mk {
  avg_response_time : Q;
  throughput : Q;
  fault_tolerance : Q;
  energy_consumption : Q;
  active_nodes : nat;
  completed_tasks : Z
}.
End Metrics.

Definition Qsum (l : list Q) : Q := fold_left Qplus l 0.

(** [np.mean] is the exact mean here; the program sums and divides in
    doubles. *)
Definition calculate_metrics (s : Sim) : Metrics.t :=
  let active := List.filter (fun n => negb (failed n)) (nodes s) in
  let failed_nodes := List.filter failed (nodes s) in
  (* Response Time Calculation *)
  let response_times :=
    map (fun node => 0.1 + py_min2 1 (current_load node / cap node) * 0.9)
        (List.filter (fun node => (0 <? capacity node)%Z) active) in
  (* Throughput Calculation *)
  let throughput :=
    if (0 <? num_tasks s)%nat
    then inject_Z (completed_tasks s) / inject_Z (Z.of_nat (num_tasks s)) * 100
    else 0 in
  (* Fault Tolerance Calculation *)
  let recovered_nodes :=
    length (List.filter (fun n => Qeq_bool (current_load n) 0) failed_nodes) in
  let fault_tolerance :=
    match failed_nodes with
    | [] => 100
    | _ => inject_Z (Z.of_nat recovered_nodes)
           / inject_Z (Z.of_nat (length failed_nodes)) * 100
    end in
  (* Energy Consumption *)
  let energy := Qsum (map (fun n => current_load n * energy_coefficient n) active) in
  Metrics.mk
    (match response_times with
     | [] => 0.5
     | _ => Qsum response_times / inject_Z (Z.of_nat (length response_times))
     end)
    (py_min2 100 throughput)
    (py_min2 100 fault_tolerance)
    energy
    (length active)
    (completed_tasks s).

(** The loop of [run] over the remaining tasks. *)
Fixpoint run_loop (todo : list Task) (E : Entropy) (s : Sim) : Sim * Entropy * outcome unit :=
  match todo with
  | [] => (s, E, Ret tt)
  | task :: rest =>
      match allocate_task task E s with
      | (s1, E1, Raise e) => (s1, E1, Raise e)
      | (s1, E1, Ret b) =>
          let s2 := if b then set_completed_tasks (completed_tasks s1 + 1) s1 else s1 in
          (* Periodically check for failures *)
          let (r, E2) := random_random E1 in
          if Qlt_bool r 0.1 then
            match simulate_failure E2 s2 with
            | (s3, E3, Raise e) => (s3, E3, Raise e)
            | (s3, E3, Ret _) => run_loop rest E3 s3
            end
          else run_loop rest E2 s2
      end
  end.

Definition run (E : Entropy) (s : Sim) : Sim * Entropy * outcome Metrics.t :=
  let s0 := set_completed_tasks 0 s in
  match run_loop (tasks s0) E s0 with
  | (s', E', Raise e) => (s', E', Raise e)
  | (s', E', Ret _) => (s', E', Ret (calculate_metrics s'))
  end.

(** The constructors of the other three subclasses. *)
Definition Bat_init (n_nodes n_tasks : nat) (nd : nat -> NodeDraw) (td : nat -> TaskDraw) : Sim :=
  MetaheuristicAlgorithm_init n_nodes n_tasks nd td (BatAlgorithm 0.5 0.5).

Definition Crow_init (n_nodes n_tasks : nat) (nd : nat -> NodeDraw) (td : nat -> TaskDraw) : Sim :=
  MetaheuristicAlgorithm_init n_nodes n_tasks nd td
    (CrowSearchAlgorithm (repeat None n_nodes) 0.1).

Definition Monarch_init (n_nodes n_tasks : nat) (nd : nat -> NodeDraw) (td : nat -> TaskDraw) : Sim :=
  MetaheuristicAlgorithm_init n_nodes n_tasks nd td (MonarchButterflyOptimization 5).

(** ** Vocabulary of the properties *)

(** The pool [ns'] is [ns] with the task's demand placed on one active node
    that had room for it. *)
Definition placed (task : Task) (ns ns' : list Node) : Prop :=
  exists i n,
    ns !! i = Some n /\ is_active n = true
    /\ current_load n + mips_required task <= cap n
    /\ ns' = alter (add_load (mips_required task)) i ns.

(** The pool [ns'] is [ns] after a positive amount [m] of load, at most the
    task's demand and at most the recipient's spare capacity, moved from node
    [i] to a different, active node [j]. *)
Definition migrated (task : Task) (ns ns' : list Node) : Prop :=
  exists i j nomad recipient m,
    ns !! i = Some nomad /\ ns !! j = Some recipient /\ i <> j
    /\ is_active recipient = true
    /\ 0 < m /\ m <= mips_required task /\ m <= current_load nomad * 0.3
    /\ current_load recipient + m <= cap recipient
    /\ ns' = alter (add_load m) j (alter (sub_load m) i ns).

Definition is_lion (s : Sim) : Prop :=
  match algo s with
  | LionOptimizationLB _ _ _ _ => True
  | _ => False
  end.



(** A strategy instance as its constructor leaves it. *)
Inductive constructed : Sim -> Prop :=
| constructed_lion n m nd td : constructed (Lion.init n m nd td)
| constructed_bat n m nd td : constructed (Bat_init n m nd td)
| constructed_crow n m nd td : constructed (Crow_init n m nd td)
| constructed_monarch n m nd td : constructed (Monarch_init n m nd td).

(** The states an instance goes through under any sequence of allocation
    attempts and fault injections. *)
Inductive reachable : Sim -> Prop :=
| reach_constructed s : constructed s -> reachable s
| reach_allocate s task E : reachable s -> reachable (allocate_task task E s).1.1
| reach_completed s c : reachable s -> reachable (set_completed_tasks c s)
| reach_failure s E : reachable s -> reachable (simulate_failure E s).1.1.

(** Node [i] is active and no active node has a lower utilization. *)
Definition least_utilized (ns : list Node) (i : nat) : Prop :=
  exists n,
    ns !! i = Some n /\ is_active n = true
    /\ forall j m, ns !! j = Some m -> is_active m = true ->
                   utilization n <= utilization m.

Definition crow_memory (s : Sim) : list Crow.Slot :=
  match algo s with
  | CrowSearchAlgorithm memory _ => memory
  | _ => []
  end.

Definition mark_failed (i : nat) (s : Sim) : Sim :=
  set_nodes (alter (set_failed true) i (nodes s)) s.

(** The states of a Crow instance once [run] has made its first allocation
    attempt: every later step of [run] is an allocation attempt, a change of
    the completed-task counter, a fault injection, or the marking of a node
    inside a fault injection. *)
Inductive crow_seeded : Sim -> Prop :=
| seeded_first n m nd td task E :
    (forall i, node_draw_ok (nd i)) ->
    crow_seeded (allocate_task task E (Crow_init n m nd td)).1.1
| seeded_allocate s task E : crow_seeded s -> crow_seeded (allocate_task task E s).1.1
| seeded_completed s c : crow_seeded s -> crow_seeded (set_completed_tasks c s)
| seeded_failure s E : crow_seeded s -> crow_seeded (simulate_failure E s).1.1
| seeded_marked s i : crow_seeded s -> crow_seeded (mark_failed i s).

(** The states in which [run] calls [allocate_task] on a Crow instance. *)
Definition crow_call_state (s : Sim) : Prop :=
  (exists n m nd td, (forall i, node_draw_ok (nd i)) /\ s = Crow_init n m nd td)
  \/ crow_seeded s.

(** The pre-state of an allocation attempt during a run: any state for Lion,
    Bat and Monarch, a [crow_call_state] for Crow. *)
Definition call_state (s : Sim) : Prop :=
  match algo s with
  | CrowSearchAlgorithm _ _ => crow_call_state s
  | _ => True
  end.

Definition territories_of (s : Sim) : list Territory :=
  match algo s with
  | LionOptimizationLB _ ts _ _ => ts
  | _ => []
  end.

(** Every node of a pool of [n] nodes belongs to some territory. *)
Definition covers_pool (n : nat) (ts : list Territory) : Prop :=
  forall i, (i < n)%nat -> exists t, In t ts /\ In i (territory_nodes t).

(** The strategy fields with the lazily built caches emptied. *)
Definition forget_cache (a : Algo) : Algo :=
  match a with
  | LionOptimizationLB pride_size ts _ threshold =>
      LionOptimizationLB pride_size ts [] threshold
  | CrowSearchAlgorithm _ flight_length => CrowSearchAlgorithm [] flight_length
  | _ => a
  end.

(** Equality of two instances up to the Lion nomad set and the Crow memory. *)
Definition same_but_cache (s s' : Sim) : Prop :=
  set_algo (forget_cache (algo s')) s' = set_algo (forget_cache (algo s)) s.

(** The synthetic task [simulate_failure] builds for the load of [node]. *)
Definition migration_task (node : Node) : Task :=
  mkTask (-1) (current_load node) 1 (current_load node) 1.

(** [simulate_failure] passes its two guards, picks node [i], marks it failed
    while it carries load, and the allocation of the migration task
    succeeds. *)
Definition migration_succeeds (E : Entropy) (s : Sim) (i : nat) : Prop :=
  exists node E1 r E2 s2 E3,
    (min_nodes_for_operation s < length (not_failed_nodes (nodes s)))%nat
    /\ (Z.of_nat (current_failures (nodes s)) < max_failures s)%Z
    /\ random_choice (not_failed_nodes (nodes s)) E = (Some (i, node), E1)
    /\ random_random E1 = (r, E2)
    /\ r < fault_probability s
    /\ 0 < current_load node
    /\ allocate_task (migration_task node) E2 (mark_failed i s) = (s2, E3, Ret true).

(** The failed flags of [s'] are those of [s] with at most one more set. *)
Definition at_most_one_flip (s s' : Sim) : Prop :=
  map failed (nodes s') = map failed (nodes s)
  \/ exists j,
       map failed (nodes s) !! j = Some false
       /\ map failed (nodes s') = <[j := true]> (map failed (nodes s)).

(** Node [i] is failed in [s]. *)
Definition failed_at (s : Sim) (i : nat) : Prop :=
  exists n, nodes s !! i = Some n /\ failed n = true.

(** The Crow memory has one slot per pool index, and slot [i], once seeded,
    remembers node [i]. *)
Definition crow_aligned (s : Sim) : Prop :=
  length (nodes s) = num_nodes s
  /\ length (crow_memory s) = length (nodes s)
  /\ (exists memory fl, algo s = CrowSearchAlgorithm memory fl)
  /\ forall i slot, crow_memory s !! i = Some slot -> exists l, slot = Some (i, l).

(** The Crow memory before the first allocation attempt: one empty slot per
    pool index, every node active. *)
Definition crow_unseeded (s : Sim) : Prop :=
  length (nodes s) = num_nodes s
  /\ length (crow_memory s) = length (nodes s)
  /\ (exists memory fl, algo s = CrowSearchAlgorithm memory fl)
  /\ (forall slot, In slot (crow_memory s) -> slot = None)
  /\ forall n, In n (nodes s) -> is_active n = true.





(** ** Example instances *)

(** A node of capacity [4 * 2000 = 8000]. *)
Definition small_node (i : nat) : NodeDraw := mkNodeDraw 2000 2000 0.002.

(** Tasks whose demands are listed in [ds]. *)
Definition demands (ds : list Z) (i : nat) : TaskDraw :=
  mkTaskDraw 1000 (nth i ds 200%Z) 1.

Definition no_entropy : Entropy := mkEntropy [] [] [].

(** Allocation attempts for [todo] in order, each with entropy [E]. *)
Definition allocate_each (todo : list Task) (E : Entropy) (s : Sim) : Sim :=
  fold_left (fun s task => (allocate_task task E s).1.1) todo s.


(** A Lion instance of two nodes after four tasks of 3000: loads 6000 and
    6000. *)
Definition lion_pair_even : Sim :=
  let s := Lion.init 2 5 small_node (demands [3000; 3000; 3000; 3000; 4000]%Z) in
  allocate_each (firstn 4 (tasks s)) no_entropy s.

Definition task_4000 : Task := mkTask 4 1000 1 4000 1.

(** A Bat instance of four nodes after one task of 500 placed on node 0. *)
Definition bat_four_loaded : Sim :=
  let s := Bat_init 4 1 small_node (demands [500]%Z) in
  allocate_each (tasks s) no_entropy s.

(** Entropy under which [simulate_failure] picks node 0 and fails it. *)
Definition fail_node_0 : Entropy := mkEntropy [0.01] [0%nat] [].

(** A Bat instance with a large node 0 and three small ones, three tasks of
    4000, and an entropy that sends every task to node 0, then fails node 0
    after the third task. *)
Definition bat_lost_work : Sim :=
  Bat_init 4 3 (fun i => mkNodeDraw 3000 (if (i =? 0)%nat then 4000 else 2000) 0.002)
           (demands [4000; 4000; 4000]%Z).

Definition lost_work_entropy : Entropy :=
  mkEntropy [0.9; 0.5; 0.9; 0.5; 0.9; 0.05; 0.01; 0.9] [0; 0; 0; 0; 0]%nat [].

(** A Bat instance of three nodes with [pulse_rate = 0], after a first task of
    4000 that the random-first attempt placed on node 1. *)
Definition random_node_1 : Entropy := mkEntropy [0.5] [1%nat] [].


Definition task_200 : Task := mkTask 1 1000 1 200 1.



(** A Bat instance of twenty nodes, of which two may fail, after node 0
    failed. *)
Definition bat_twenty_one_failed : Sim :=
  (simulate_failure fail_node_0 (Bat_init 20 1 small_node (demands [500]%Z))).1.1.

(** A Lion instance of four nodes after eight tasks: the first four are
    hunted by nodes 0 and 1, the last four by nodes 2 and 3; the loads are
    7000, 6900, 6800 and 6700. *)
Definition hunters_2_3 : Entropy := mkEntropy [] [] [[2; 3]%nat].

Definition lion_four_loaded : Sim :=
  let s := Lion.init 4 8 small_node
                     (demands [3500; 3500; 3500; 3400; 3400; 3400; 3400; 3300]%Z) in
  allocate_each (skipn 4 (tasks s)) hunters_2_3
                (allocate_each (firstn 4 (tasks s)) no_entropy s).

(** Entropy under which [simulate_failure] picks node 2 and fails it. *)
Definition fail_node_2 : Entropy := mkEntropy [0.01] [2%nat] [].

(** ** Vocabulary of the further properties *)

(** The fields of a node that are fixed at creation. *)
Definition static_fields (n : Node) : Z * Z * Z * Z * Q :=
  (node_id n, pe n, mips n, capacity n, energy_coefficient n).

(** Every load of the pool lies between 0 and the capacity of its node. *)
Definition within_capacity (ns : list Node) : Prop :=
  Forall (fun n => 0 <= current_load n /\ current_load n <= cap n) ns.

(** The load carried by the whole pool. *)
Definition total_load (ns : list Node) : Q := Qsum (map current_load ns).

(** [simulate_failure] passes its two guards, picks node [i], marks it failed
    while it carries load, and the allocation of the migration task fails. *)
Definition migration_fails (E : Entropy) (s : Sim) (i : nat) : Prop :=
  exists node E1 r E2 s2 E3,
    (min_nodes_for_operation s < length (not_failed_nodes (nodes s)))%nat
    /\ (Z.of_nat (current_failures (nodes s)) < max_failures s)%Z
    /\ random_choice (not_failed_nodes (nodes s)) E = (Some (i, node), E1)
    /\ random_random E1 = (r, E2)
    /\ r < fault_probability s
    /\ 0 < current_load node
    /\ allocate_task (migration_task node) E2 (mark_failed i s) = (s2, E3, Ret false).

Definition nomads_of (s : Sim) : list nat :=
  match algo s with
  | LionOptimizationLB _ _ nomads _ => nomads
  | _ => []
  end.

Definition is_crow (s : Sim) : bool :=
  match algo s with
  | CrowSearchAlgorithm _ _ => true
  | _ => false
  end.

(** Some node of the pool is active. *)
Definition some_active (ns : list Node) : Prop :=
  exists i n, ns !! i = Some n /\ is_active n = true.

(** The task has room on every least utilized node of the pool. *)
Definition room_on_least_utilized (task : Task) (ns : list Node) : Prop :=
  forall i n,
    least_utilized ns i -> ns !! i = Some n ->
    current_load n + mips_required task <= cap n.

(** The task has room on every active node of the pool. *)
Definition room_on_every_active (task : Task) (ns : list Node) : Prop :=
  forall i n,
    ns !! i = Some n -> is_active n = true ->
    current_load n + mips_required task <= cap n.

(** ** The comparison driver *)

(** The mapping [run_comparison] records for a strategy whose construction or
    run raised. *)
Definition placeholder_metrics : Metrics.t := Metrics.mk 1 0 0 0 0 0.

(** The body of the [try] statement of [run_comparison] for one strategy:
    [algo.run()], or the placeholder when it raises. *)
Definition run_guarded (E : Entropy) (s : Sim) : Metrics.t * Entropy :=
  match run E s with
  | (_, E', Ret metrics) => (metrics, E')
  | (_, E', Raise _) => (placeholder_metrics, E')
  end.

(** The loop of [run_comparison] over [algorithms.items()]: the [results]
    mapping in insertion order.  Printing is output only and left out. *)
Fixpoint run_each (algorithms : list (string * Sim)) (E : Entropy)
    : list (string * Metrics.t) :=
  match algorithms with
  | [] => []
  | (name, a) :: rest =>
      let (metrics, E') := run_guarded E a in
      (name, metrics) :: run_each rest E'
  end.

(** [results] of [run_comparison(num_nodes, num_tasks)] as handed to
    [plot_comparison]; [nd k] and [td k] are the values drawn by the
    constructor of the [k]-th strategy. *)
Definition run_comparison (n_nodes n_tasks : nat) (nd : nat -> nat -> NodeDraw)
    (td : nat -> nat -> TaskDraw) (E : Entropy) : list (string * Metrics.t) :=
  let algorithms :=
    [("Lion Optimization", Lion.init n_nodes n_tasks (nd 0%nat) (td 0%nat));
     ("Bat Algorithm", Bat_init n_nodes n_tasks (nd 1%nat) (td 1%nat));
     ("Crow Search", Crow_init n_nodes n_tasks (nd 2%nat) (td 2%nat));
     ("Monarch Butterfly", Monarch_init n_nodes n_tasks (nd 3%nat) (td 3%nat))] in
  run_each algorithms E.

(** ** The standalone Lion allocator ([lion_optimization.py]) *)

(** The class [LionOptimizationLB] of [lion_optimization.py]: a second
    allocator, with its own node and task dicts, that picks the node of
    highest fitness and falls back on its two neighbours in the pool. *)
Module Standalone.

Inductive exn : Type := ValueError | ZeroDivisionError.

Inductive result (A : Type) : Type :=
| Returned (a : A)
| Raised (e : exn).
Arguments Returned {A} a.
Arguments Raised {A} e.

Record Node : Type := mkNode {
  node_id : Z;
  pe : Z;
  mips : Z;
  capacity : Z;
  current_load : Q;
  tasks : list Z
}.

Record Task : Type := mkTask {
  task_id : Z;
  task_length : Z;
  task_pe : Z;
  mips_required : Z
}.

(** [draw i] is the [random.randint(2000, 4000)] of node [i]. *)
Definition initialize_nodes (num_nodes : nat) (draw : nat -> Z) : list Node :=
  map (fun i =>
         let pe := 4%Z in
         let mips := draw i in
         let capacity := (pe * mips)%Z in
         mkNode (Z.of_nat i) pe mips capacity 0 [])
      (seq 0 num_nodes).

(** [draw i] is the [random.randint(200, 4000)] of task [i]. *)
Definition generate_tasks (num_tasks : nat) (draw : nat -> Z) : list Task :=
  map (fun i =>
         let task_length := draw i in
         let pe_required := 1%Z in
         mkTask (Z.of_nat i) task_length pe_required (task_length * pe_required)%Z)
      (seq 0 num_tasks).

Definition fitness_function (node : Node) : Q :=
  if (capacity node =? 0)%Z then 0
  else (1 - current_load node / inject_Z (capacity node)) * 100.

(** [np.argmax]: the first position of the maximum; [best] is the position of
    the maximum [best_value] of the values before position [k]. *)
Fixpoint argmax_from (best : nat) (best_value : Q) (k : nat) (l : list Q) : nat :=
  match l with
  | [] => best
  | x :: tl =>
      if Qlt_bool best_value x then argmax_from k x (S k) tl
      else argmax_from best best_value (S k) tl
  end.

(** [np.argmax(l)]; raises [ValueError] on an empty sequence. *)
Definition argmax (l : list Q) : result nat :=
  match l with
  | [] => Raised ValueError
  | x :: tl => Returned (argmax_from 0 x 1 tl)
  end.

(** Position of the best node, positions of its left and right neighbours
    ([None] at the ends of the pool) and the best fitness. *)
Definition identify_underutilized_node (ns : list Node)
    : result (nat * option nat * option nat * Q) :=
  let fitness_values := map fitness_function ns in
  match argmax fitness_values with
  | Raised e => Raised e
  | Returned best_node_idx =>
      let best_fitness := nth best_node_idx fitness_values 0 in
      let left_neighbor :=
        if (0 <? best_node_idx)%nat then Some (best_node_idx - 1)%nat else None in
      let right_neighbor :=
        if (best_node_idx <? length ns - 1)%nat then Some (best_node_idx + 1)%nat
        else None in
      Returned (best_node_idx, left_neighbor, right_neighbor, best_fitness)
  end.

(** [random.uniform(0, 0.1)] from a stream of draws. *)
Definition random_uniform (draws : list Q) : Q * list Q :=
  match draws with
  | [] => (0, [])
  | u :: tl => (u, tl)
  end.

(** [max(0, x)]. *)
Definition py_max0 (x : Q) : Q := if Qlt_bool 0 x then x else 0.

(** [n['current_load'] = max(0, n['current_load'] - u * n['current_load'])]. *)
Definition shrink (u : Q) (n : Node) : Node :=
  mkNode (node_id n) (pe n) (mips n) (capacity n)
         (py_max0 (current_load n - u * current_load n)) (tasks n).

Definition update_node_positions (left_neighbor right_neighbor : option nat)
    (draws : list Q) (ns : list Node) : list Node * list Q :=
  let (ns1, draws1) :=
    match left_neighbor with
    | Some l => let (u, d) := random_uniform draws in (alter (shrink u) l ns, d)
    | None => (ns, draws)
    end in
  match right_neighbor with
  | Some r => let (u, d) := random_uniform draws1 in (alter (shrink u) r ns1, d)
  | None => (ns1, draws1)
  end.

Definition fits (task : Task) (n : Node) : bool :=
  Qle_bool (current_load n + inject_Z (mips_required task)) (inject_Z (capacity n)).

(** [n['current_load'] += task['mips_required']] and
    [n['tasks'].append(task['id'])]. *)
Definition place (task : Task) (n : Node) : Node :=
  mkNode (node_id n) (pe n) (mips n) (capacity n)
         (current_load n + inject_Z (mips_required task)) (tasks n ++ [task_id task]).

(** The loop of [allocate_task] over [[left_neighbor, right_neighbor]]. *)
Fixpoint try_neighbors (task : Task) (left_neighbor right_neighbor : option nat)
    (todo : list (option nat)) (draws : list Q) (ns : list Node)
    : list Node * list Q * result Z :=
  match todo with
  | [] => (ns, draws, Returned (-1)%Z)
  | None :: rest => try_neighbors task left_neighbor right_neighbor rest draws ns
  | Some j :: rest =>
      match ns !! j with
      | Some neighbor =>
          if fits task neighbor then
            let ns1 := alter (place task) j ns in
            (* Update positions (simulating hunting behavior) *)
            let (ns2, draws2) :=
              update_node_positions left_neighbor right_neighbor draws ns1 in
            (ns2, draws2, Returned (node_id neighbor))
          else try_neighbors task left_neighbor right_neighbor rest draws ns
      | None => try_neighbors task left_neighbor right_neighbor rest draws ns
      end
  end.

(** [allocate_task(task)]: the id of the node the task went to, or [-1]. *)
Definition allocate_task (task : Task) (draws : list Q) (ns : list Node)
    : list Node * list Q * result Z :=
  match identify_underutilized_node ns with
  | Raised e => (ns, draws, Raised e)
  | Returned (b, left_neighbor, right_neighbor, fitness) =>
      match ns !! b with
      | Some best_node =>
          (* Check if best node can handle the task *)
          if fits task best_node
          then (alter (place task) b ns, draws, Returned (node_id best_node))
          else
            (* If best node is overloaded, try neighbors (migration) *)
            try_neighbors task left_neighbor right_neighbor
                          [left_neighbor; right_neighbor] draws ns
      | None => (ns, draws, Returned (-1)%Z) (* argmax is a position: not reached *)
      end
  end.

(** The mapping [calculate_metrics] returns. *)
Record Metrics : Type := mkMetrics {
  avg_response_time : Q;
  throughput : Q;
  load_distribution : list Q
}.

(** The loop of [calculate_metrics] that collects the response times of the
    nodes that hold tasks; the division raises on a capacity of 0. *)
Fixpoint response_times (ns : list Node) : result (list Q) :=
  match ns with
  | [] => Returned []
  | node :: rest =>
      match tasks node with
      | [] => response_times rest
      | _ =>
          if (capacity node =? 0)%Z then Raised ZeroDivisionError
          else
            let rt := current_load node / inject_Z (capacity node) * 0.5 in
            match response_times rest with
            | Returned l => Returned (rt :: l)
            | Raised e => Raised e
            end
      end
  end.

Definition calculate_metrics (ns : list Node) : result Metrics :=
  let total_capacity := fold_left Z.add (map capacity ns) 0%Z in
  let total_utilized := Qsum (map current_load ns) in
  (* Simplified response time calculation *)
  match response_times ns with
  | Raised e => Raised e
  | Returned rts =>
      let avg_response_time :=
        match rts with
        | [] => 0
        | _ => Qsum rts / inject_Z (Z.of_nat (length rts))
        end in
      let throughput :=
        if (0 <? total_capacity)%Z
        then total_utilized / inject_Z total_capacity * 100
        else 0 in
      Returned
        (mkMetrics avg_response_time throughput
           (map (fun node => current_load node / inject_Z (capacity node))
                (List.filter (fun node => (0 <? capacity node)%Z) ns)))
  end.

(** Every load of the pool lies between 0 and the capacity of its node. *)
Definition within_capacity (ns : list Node) : Prop :=
  Forall (fun n => 0 <= current_load n /\ current_load n <= inject_Z (capacity n)) ns.

(** Node [b] has the highest fitness of the pool and is the first to have
    it. *)
Definition first_fittest (ns : list Node) (b : nat) : Prop :=
  exists best,
    ns !! b = Some best
    /\ (forall j n, ns !! j = Some n -> fitness_function n <= fitness_function best)
    /\ (forall j n, (j < b)%nat -> ns !! j = Some n ->
                    fitness_function n < fitness_function best).

(** [j] is the position before or after [b]. *)
Definition neighbor_of (b j : nat) : Prop := (j + 1 = b \/ j = b + 1)%nat.

End Standalone.

(** ** Further example instances *)

(** [bat_lost_work] after its three tasks of 4000 have all been placed on
    node 0 by the random-first attempt. *)
Definition bat_overloaded : Sim :=
  allocate_each (tasks bat_lost_work) (mkEntropy [0.9] [0%nat] []) bat_lost_work.

(** Entropy under which [simulate_failure] picks node 0 and fails it, and the
    Bat strategy then tries a random node first. *)
Definition fail_node_0_try_random : Entropy := mkEntropy [0.01; 0.9] [0; 0]%nat [].

Definition task_500 : Task := mkTask 0 1000 1 500 1.

(** A standalone pool of three nodes of capacity 8000, and the same pool
    after six tasks of 4000, which fill every node. *)
Definition standalone_pool : list Standalone.Node :=
  Standalone.initialize_nodes 3 (fun _ => 2000%Z).

Definition standalone_full_pool : list Standalone.Node :=
  fold_left (fun ns task => (Standalone.allocate_task task [] ns).1.1)
            (Standalone.generate_tasks 6 (fun _ => 4000%Z)) standalone_pool.

Definition standalone_task_4000 : Standalone.Task := Standalone.mkTask 6 4000 1 4000.

(** * Properties *)

(** ** Numbers and sequences *)

Lemma Qlt_bool_iff (x y : Q) : Qlt_bool x y = true <-> x < y.
Proof.
  unfold Qlt_bool. rewrite negb_true_iff. split.
  - intros H. apply Qnot_le_lt. intros Hle.
    apply Qle_bool_iff in Hle. congruence.
  - intros H. destruct (Qle_bool y x) eqn:Hle; [|reflexivity].
    apply Qle_bool_iff in Hle. exfalso. exact (Qlt_not_le _ _ H Hle).
Qed.

Lemma Qlt_bool_false (x y : Q) : Qlt_bool x y = false <-> y <= x.
Proof.
  unfold Qlt_bool. rewrite negb_false_iff. apply Qle_bool_iff.
Qed.

Lemma py_min2_le_l (a b : Q) : py_min2 a b <= a.
Proof.
  unfold py_min2. destruct (Qlt_bool b a) eqn:H.
  - apply Qlt_le_weak, Qlt_bool_iff, H.
  - apply Qle_refl.
Qed.

Lemma py_min2_le_r (a b : Q) : py_min2 a b <= b.
Proof.
  unfold py_min2. destruct (Qlt_bool b a) eqn:H.
  - apply Qle_refl.
  - apply Qlt_bool_false, H.
Qed.

Lemma py_min3_le (a b c : Q) :
  py_min3 a b c <= a /\ py_min3 a b c <= b /\ py_min3 a b c <= c.
Proof.
  unfold py_min3. repeat split.
  - eapply Qle_trans; [apply py_min2_le_l|apply py_min2_le_l].
  - eapply Qle_trans; [apply py_min2_le_l|apply py_min2_le_r].
  - apply py_min2_le_r.
Qed.

Lemma enumerate_from_In {A : Type} (l : list A) (k i : nat) (x : A) :
  In (i, x) (enumerate_from k l) <-> (k <= i)%nat /\ l !! (i - k)%nat = Some x.
Proof.
  revert k. induction l as [|y l IH]; intros k; simpl.
  - split; [tauto|]. intros [_ H]. discriminate.
  - rewrite IH. split.
    + intros [Heq | [Hle Hl]].
      * inversion Heq; subst. split; [lia|]. now replace (i - i)%nat with 0%nat by lia.
      * split; [lia|]. replace (i - k)%nat with (S (i - S k)) by lia. exact Hl.
    + intros [Hle Hl]. destruct (decide (i = k)) as [->|Hne].
      * left. replace (k - k)%nat with 0%nat in Hl by lia. simpl in Hl. congruence.
      * right. split; [lia|].
        replace (i - k)%nat with (S (i - S k)) in Hl by lia. exact Hl.
Qed.

Lemma enumerate_In {A : Type} (l : list A) (i : nat) (x : A) :
  In (i, x) (enumerate l) <-> l !! i = Some x.
Proof.
  unfold enumerate. rewrite enumerate_from_In.
  replace (i - 0)%nat with i by lia. split; [tauto|]. split; [lia|assumption].
Qed.

Lemma active_nodes_In (ns : list Node) (i : nat) (n : Node) :
  In (i, n) (active_nodes ns) <-> ns !! i = Some n /\ is_active n = true.
Proof.
  unfold active_nodes. rewrite filter_In, enumerate_In. reflexivity.
Qed.

Lemma deref_In (ns : list Node) (refs : list nat) (i : nat) (n : Node) :
  In (i, n) (deref ns refs) -> ns !! i = Some n.
Proof.
  unfold deref. rewrite <- list_elem_of_In, list_elem_of_omap.
  intros (j & _ & Hj). destruct (ns !! j) eqn:E; inversion Hj; subst. exact E.
Qed.

Section PyMin.
Context {A K : Type}.
Variable ltb : K -> K -> bool.
Variable key : A -> K.

Lemma fold_min_In (l : list A) (x : A) :
  let r := fold_left (fun best y => if ltb (key y) (key best) then y else best) l x in
  r = x \/ In r l.
Proof.
  revert x. induction l as [|y l IH]; intros x; simpl; [now left|].
  destruct (ltb (key y) (key x)).
  - destruct (IH y) as [-> | H]; auto.
  - destruct (IH x) as [-> | H]; auto.
Qed.

Lemma py_min_In (l : list A) (x : A) : py_min ltb key l = Some x -> In x l.
Proof.
  destruct l as [|y l]; simpl; [discriminate|].
  intros H. inversion H as [H1].
  destruct (fold_min_In l y) as [-> | Hin]; auto.
Qed.

Lemma py_min_None (l : list A) : py_min ltb key l = None -> l = [].
Proof. destruct l; simpl; [reflexivity|discriminate]. Qed.
End PyMin.

Lemma fold_min_least {A : Type} (key : A -> Q) (l : list A) (x : A) :
  let r := fold_left (fun best y => if Qlt_bool (key y) (key best) then y else best) l x in
  key r <= key x /\ forall y, In y l -> key r <= key y.
Proof.
  revert x. induction l as [|z l IH]; intros x; simpl.
  - split; [apply Qle_refl|tauto].
  - destruct (Qlt_bool (key z) (key x)) eqn:Hlt.
    + destruct (IH z) as [H1 H2]. apply Qlt_bool_iff in Hlt. split.
      * eapply Qle_trans; [exact H1|]. now apply Qlt_le_weak.
      * intros y [<- | Hy]; auto.
    + destruct (IH x) as [H1 H2]. apply Qlt_bool_false in Hlt. split; [exact H1|].
      intros y [<- | Hy]; auto. eapply Qle_trans; eauto.
Qed.

Lemma py_min_least {A : Type} (key : A -> Q) (l : list A) (x : A) :
  py_min Qlt_bool key l = Some x -> forall y, In y l -> key x <= key y.
Proof.
  destruct l as [|z l]; simpl; [discriminate|].
  intros H. inversion H as [H1]. clear H.
  destruct (fold_min_least key l z) as [Hz Hl].
  intros y [<- | Hy]; auto.
Qed.

Lemma random_choice_In {A : Type} (l : list A) (E E' : Entropy) (x : A) :
  random_choice l E = (Some x, E') -> In x l.
Proof.
  unfold random_choice. destruct (picks E); intros H; inversion H as [[H1 H2]];
    apply list_elem_of_In; eapply list_elem_of_lookup_2; eauto.
Qed.

Lemma random_sample_In {A : Type} (l : list A) (k : nat) (E E' : Entropy) (h : list A) (x : A) :
  random_sample l k E = (h, E') -> In x h -> In x l.
Proof.
  unfold random_sample. intros H Hx. apply list_elem_of_In. apply list_elem_of_In in Hx.
  destruct (samples E).
  - inversion H; subst. apply elem_of_take in Hx as (i & Hi & _).
    eapply list_elem_of_lookup_2; eauto.
  - inversion H; subst. clear H. destruct (valid_sample _ _ _).
    + apply list_elem_of_omap in Hx as (p & _ & Hp). eapply list_elem_of_lookup_2; eauto.
    + apply elem_of_take in Hx as (i & Hi & _). eapply list_elem_of_lookup_2; eauto.
Qed.

(** ** Nodes *)

Lemma node_eqb_refl (n : Node) : node_eqb n n = true.
Proof.
  unfold node_eqb. rewrite !Z.eqb_refl, !Qeq_bool_refl, eqb_reflx. reflexivity.
Qed.

Lemma fits_iff (task : Task) (n : Node) :
  fits task n = true <-> current_load n + mips_required task <= cap n.
Proof. unfold fits. apply Qle_bool_iff. Qed.

Lemma is_active_iff (n : Node) :
  is_active n = true <-> failed n = false /\ (0 < capacity n)%Z.
Proof.
  unfold is_active. rewrite andb_true_iff, negb_true_iff, Z.ltb_lt. reflexivity.
Qed.

Lemma placed_intro (task : Task) (ns : list Node) (i : nat) (n : Node) :
  ns !! i = Some n -> is_active n = true -> fits task n = true ->
  placed task ns (alter (add_load (mips_required task)) i ns).
Proof.
  intros H1 H2 H3. exists i, n. rewrite <- fits_iff. auto.
Qed.

(** ** What one allocation attempt does to the pool *)

Lemma hunting_loop_effect (task : Task) (todo : list Territory) :
  forall k ns ts E ns' ts' E' b,
    Lion.hunting_loop task todo k ns ts E = (ns', ts', E', b) ->
    (b = true -> placed task ns ns') /\ (b = false -> ns' = ns /\ ts' = ts).
Proof.
  induction todo as [|territory rest IH]; intros k ns ts E ns' ts' E' b; simpl.
  - intros H. inversion H; subst. split; [discriminate|auto].
  - destruct (_ <? 2)%nat; [apply IH|].
    destruct (random_random E) as [r E1].
    destruct (Qlt_bool r 0.7); [|apply IH].
    destruct (random_sample _ _ E1) as [hunters E2] eqn:Hs.
    destruct (py_min _ _ hunters) as [[i best]|] eqn:Hm; [|apply IH].
    destruct (fits task best) eqn:Hf; [|apply IH].
    intros H. inversion H; subst. split; [intros _|discriminate].
    apply py_min_In in Hm. eapply random_sample_In in Hm; [|exact Hs].
    apply filter_In in Hm as [Hd Ha]. apply deref_In in Hd.
    eapply placed_intro; eauto.
Qed.

Lemma nomad_loop_effect (task : Task) (threshold : Q) (todo : list nat) :
  forall ns ns' b,
    Lion.nomad_loop task threshold todo ns = (ns', b) ->
    (b = true -> migrated task ns ns') /\ (b = false -> ns' = ns).
Proof.
  induction todo as [|i rest IH]; intros ns ns' b; simpl.
  - intros H. inversion H; subst. split; [discriminate|auto].
  - destruct (ns !! i) as [nomad|] eqn:Hi; [|apply IH].
    destruct (Qlt_bool (cap nomad * threshold) (current_load nomad)); [|apply IH].
    destruct (py_min _ _ _) as [[j recipient]|] eqn:Hm; [|apply IH].
    destruct (Qlt_bool 0 _) eqn:Hpos; [|apply IH].
    intros H. inversion H; subst. split; [intros _|discriminate].
    apply py_min_In in Hm. apply filter_In in Hm as [Hj Hc]. simpl in Hc.
    apply enumerate_In in Hj. apply andb_true_iff in Hc as [Ha Hne].
    apply Qlt_bool_iff in Hpos.
    pose proof (py_min3_le (current_load nomad * 0.3) (mips_required task)
                           (cap recipient - current_load recipient)) as (H1 & H2 & H3).
    exists i, j, nomad, recipient. eexists. repeat split; eauto.
    + intros ->. rewrite Hi in Hj. inversion Hj; subst.
      rewrite node_eqb_refl in Hne. discriminate.
    + lra.
Qed.

Lemma nomad_phase_effect (task : Task) (n : nat) (threshold : Q) ns nomads ns' nomads' b :
  Lion._nomad_phase task n threshold ns nomads = (ns', nomads', b) ->
  (b = true -> migrated task ns ns') /\ (b = false -> ns' = ns).
Proof.
  unfold Lion._nomad_phase. destruct nomads as [|x nomads].
  - destruct (active_nodes ns) eqn:Ha.
    + intros H. inversion H; subst. split; [discriminate|auto].
    + destruct (Lion.nomad_loop _ _ _ _) as [ns1 b1] eqn:Hl.
      intros H. inversion H; subst. eapply nomad_loop_effect; eauto.
  - destruct (Lion.nomad_loop _ _ _ _) as [ns1 b1] eqn:Hl.
    intros H. inversion H; subst. eapply nomad_loop_effect; eauto.
Qed.

Lemma lion_allocate_effect task n ps ts nomads thr ns E ns' a' E' b :
  Lion.allocate_task task n ps ts nomads thr ns E = (ns', a', E', b) ->
  (b = true -> placed task ns ns' \/ migrated task ns ns')
  /\ (b = false -> ns' = ns)
  /\ exists ts' nomads',
       a' = LionOptimizationLB ps ts' nomads' thr /\ (b = false -> ts' = ts).
Proof.
  unfold Lion.allocate_task, Lion._hunting_phase.
  destruct (Lion.hunting_loop _ _ _ _ _ _) as [[[ns1 ts1] E1] hunted] eqn:Hh.
  apply hunting_loop_effect in Hh as [Hh1 Hh2].
  destruct hunted.
  - intros H. inversion H; subst. split; [auto|split; [discriminate|]].
    eexists _, _. split; [reflexivity|discriminate].
  - destruct Hh2 as [-> ->]; [reflexivity|].
    destruct (Lion._nomad_phase _ _ _ _ _) as [[ns2 nomads2] moved] eqn:Hn.
    apply nomad_phase_effect in Hn as [Hn1 Hn2].
    destruct moved.
    + intros H. inversion H; subst. split; [auto|split; [discriminate|]].
      eexists _, _. split; [reflexivity|discriminate].
    + rewrite (Hn2 eq_refl). clear Hn1 Hn2.
      destruct (py_min _ _ _) as [[i best]|] eqn:Hm.
      * destruct (fits task best) eqn:Hf; intros H; inversion H; subst;
          (split; [|split; [|eexists _, _; split; [reflexivity|auto]]]);
          try discriminate; auto.
        intros _. left. apply py_min_In in Hm. apply active_nodes_In in Hm as [? ?].
        eapply placed_intro; eauto.
      * intros H; inversion H; subst.
        split; [discriminate|split; [auto|eexists _, _; split; [reflexivity|auto]]].
Qed.

Lemma bat_allocate_effect task pulse_rate ns E ns' E' b :
  Bat.allocate_task task pulse_rate ns E = (ns', E', b) ->
  (b = true -> placed task ns ns') /\ (b = false -> ns' = ns).
Proof.
  unfold Bat.allocate_task.
  destruct (py_min _ _ _) as [[i best]|] eqn:Hm.
  2:{ intros H; inversion H; subst. split; [discriminate|auto]. }
  apply py_min_In in Hm. apply active_nodes_In in Hm as [Hi Ha].
  destruct (random_random E) as [r E1].
  assert (Hbest : forall E0,
             (if fits task best
              then (alter (add_load (mips_required task)) i ns, E0, true)
              else (ns, E0, false)) = (ns', E', b) ->
             (b = true -> placed task ns ns') /\ (b = false -> ns' = ns)).
  { intros E0. destruct (fits task best) eqn:Hf; intros H; inversion H; subst;
      (split; [|try discriminate; auto]); try discriminate.
    intros _. eapply placed_intro; eauto. }
  destruct (Qlt_bool pulse_rate r); [|apply Hbest].
  destruct (random_choice _ E1) as [[[c candidate]|] E2] eqn:Hc; [|apply Hbest].
  destruct (fits task candidate) eqn:Hf; [|apply Hbest].
  intros H; inversion H; subst. split; [intros _|discriminate].
  apply random_choice_In in Hc. apply active_nodes_In in Hc as [? ?].
  eapply placed_intro; eauto.
Qed.

Lemma valid_memories_In ns memory j load n :
  In (j, load, n) (Crow.valid_memories ns memory) ->
  ns !! j = Some n /\ is_active n = true.
Proof.
  unfold Crow.valid_memories. rewrite <- list_elem_of_In, list_elem_of_omap.
  intros (slot & _ & H). destruct slot as [[j0 l0]|]; [|discriminate].
  destruct (ns !! j0) as [n0|] eqn:Hn; [|discriminate].
  destruct (is_active n0) eqn:Ha; inversion H; subst. auto.
Qed.

Lemma crow_allocate_effect task memory ns ns' memory' o :
  Crow.allocate_task task memory ns = (ns', memory', o) ->
  (o = Ret true -> placed task ns ns') /\ (o <> Ret true -> ns' = ns).
Proof.
  unfold Crow.allocate_task.
  destruct (active_nodes ns) as [|a active] eqn:Hact.
  { intros H; inversion H; subst. split; [discriminate|auto]. }
  destruct (Crow.refresh_loop _ _ _) as [memory2 [[]|e]].
  2:{ intros H; inversion H; subst. split; [discriminate|auto]. }
  destruct (py_min _ _ _) as [[[j load] best]|] eqn:Hm.
  2:{ intros H; inversion H; subst. split; [discriminate|auto]. }
  apply py_min_In in Hm. apply valid_memories_In in Hm as [Hj Ha].
  destruct (fits task best) eqn:Hf; intros H; inversion H; subst.
  - split; [intros _|congruence]. eapply placed_intro; eauto.
  - split; [discriminate|auto].
Qed.

Lemma monarch_allocate_effect task bar ns E ns' E' b :
  Monarch.allocate_task task bar ns E = (ns', E', b) ->
  (b = true -> placed task ns ns') /\ (b = false -> ns' = ns).
Proof.
  unfold Monarch.allocate_task.
  destruct (active_nodes ns) as [|a active] eqn:Hact.
  { intros H; inversion H; subst. split; [discriminate|auto]. }
  rewrite <- Hact. clear Hact a active.
  destruct (random_random E) as [r E1].
  destruct (Qlt_bool r _).
  - destruct (py_min _ _ _) as [[d dst]|] eqn:Hm.
    2:{ intros H; inversion H; subst. split; [discriminate|auto]. }
    apply py_min_In in Hm. apply active_nodes_In in Hm as [Hd Ha].
    destruct (fits task dst) eqn:Hf; intros H; inversion H; subst.
    + split; [intros _|discriminate]. eapply placed_intro; eauto.
    + split; [discriminate|auto].
  - destruct (random_choice _ E1) as [[[c node]|] E2] eqn:Hc.
    2:{ intros H; inversion H; subst. split; [discriminate|auto]. }
    apply random_choice_In in Hc. apply active_nodes_In in Hc as [Hd Ha].
    destruct (fits task node) eqn:Hf; intros H; inversion H; subst.
    + split; [intros _|discriminate]. eapply placed_intro; eauto.
    + split; [discriminate|auto].
Qed.

(** An allocation attempt touches the pool and the strategy fields only. *)
Lemma allocate_task_frame task E s :
  let s' := (allocate_task task E s).1.1 in
  s' = set_algo (algo s') (set_nodes (nodes s') s).
Proof.
  unfold allocate_task. destruct s as [nn nt ns tk fp mn ct a]; simpl.
  destruct a as [ps ts nomads thr|ld pr|memory fl|bar]; simpl.
  - destruct (Lion.allocate_task _ _ _ _ _ _ _ _) as [[[ns' a'] E'] b]. reflexivity.
  - destruct (Bat.allocate_task _ _ _ _) as [[ns' E'] b]. reflexivity.
  - destruct (Crow.allocate_task _ _ _) as [[ns' m'] o]. reflexivity.
  - destruct (Monarch.allocate_task _ _ _ _) as [[ns' E'] b]. reflexivity.
Qed.

(** The effect of an allocation attempt of any variant on the pool. *)
Lemma allocate_task_effect task E s s' E' o :
  allocate_task task E s = (s', E', o) ->
  (o = Ret true ->
   placed task (nodes s) (nodes s') \/ (is_lion s /\ migrated task (nodes s) (nodes s')))
  /\ (o <> Ret true -> nodes s' = nodes s)
  /\ (o = Ret false -> forget_cache (algo s') = forget_cache (algo s))
  /\ ((forall m fl, algo s <> CrowSearchAlgorithm m fl) -> exists b, o = Ret b).
Proof.
  unfold allocate_task, is_lion.
  destruct (algo s) as [ps ts nomads thr|ld pr|memory fl|bar] eqn:Ha.
  - destruct (Lion.allocate_task _ _ _ _ _ _ _ _) as [[[ns' a'] E1] b] eqn:Hl.
    apply lion_allocate_effect in Hl as (H1 & H2 & ts' & nomads' & -> & H3).
    intros H; inversion H; subst; simpl. repeat split.
    + intros Hb. inversion Hb; subst. destruct (H1 eq_refl); auto.
    + intros Hb. apply H2. destruct b; congruence.
    + intros Hb. inversion Hb; subst. now rewrite H3.
    + eauto.
  - destruct (Bat.allocate_task _ _ _ _) as [[ns' E1] b] eqn:Hl.
    apply bat_allocate_effect in Hl as [H1 H2].
    intros H; inversion H; subst; simpl. repeat split.
    + intros Hb. inversion Hb; subst. auto.
    + intros Hb. apply H2. destruct b; congruence.
    + now rewrite Ha.
    + eauto.
  - destruct (Crow.allocate_task _ _ _) as [[ns' m'] o'] eqn:Hl.
    apply crow_allocate_effect in Hl as [H1 H2].
    intros H; inversion H; subst; simpl. repeat split; auto.
    intros Hne. exfalso. eapply Hne. reflexivity.
  - destruct (Monarch.allocate_task _ _ _ _) as [[ns' E1] b] eqn:Hl.
    apply monarch_allocate_effect in Hl as [H1 H2].
    intros H; inversion H; subst; simpl. repeat split.
    + intros Hb. inversion Hb; subst. auto.
    + intros Hb. apply H2. destruct b; congruence.
    + now rewrite Ha.
    + eauto.
Qed.

Lemma placed_lookup task ns ns' :
  placed task ns ns' ->
  exists i n,
    ns !! i = Some n /\ is_active n = true
    /\ current_load n + mips_required task <= cap n
    /\ ns' !! i = Some (add_load (mips_required task) n)
    /\ forall j, j <> i -> ns' !! j = ns !! j.
Proof.
  intros (i & n & Hi & Ha & Hf & ->). exists i, n. repeat split; auto.
  - rewrite list_lookup_alter_eq, Hi. reflexivity.
  - intros j Hj. apply list_lookup_alter_ne. congruence.
Qed.

Lemma migrated_lookup task ns ns' :
  migrated task ns ns' ->
  exists i j nomad recipient m,
    ns !! i = Some nomad /\ ns !! j = Some recipient /\ i <> j
    /\ is_active recipient = true /\ 0 < m /\ m <= mips_required task
    /\ current_load recipient + m <= cap recipient
    /\ ns' !! i = Some (sub_load m nomad)
    /\ ns' !! j = Some (add_load m recipient)
    /\ forall k, k <> i -> k <> j -> ns' !! k = ns !! k.
Proof.
  intros (i & j & nomad & recipient & m & Hi & Hj & Hne & Ha & Hm & Hm1 & Hm2 & Hm3 & ->).
  exists i, j, nomad, recipient, m. repeat split; auto.
  - rewrite list_lookup_alter_ne, list_lookup_alter_eq, Hi by congruence. reflexivity.
  - rewrite list_lookup_alter_eq, list_lookup_alter_ne, Hj by congruence. reflexivity.
  - intros k Hk1 Hk2. rewrite !list_lookup_alter_ne by congruence. reflexivity.
Qed.

(** Whatever an allocation attempt raises is an active node, and it stays
    within its capacity. *)
Lemma increase_only_on_active task ns ns' :
  placed task ns ns' \/ migrated task ns ns' ->
  forall j n n',
    ns !! j = Some n -> ns' !! j = Some n' -> current_load n < current_load n' ->
    is_active n = true /\ current_load n' <= cap n'.
Proof.
  intros [H | H] j n n' Hn Hn' Hlt.
  - apply placed_lookup in H as (i & n0 & Hi & Ha & Hf & Hi' & Hrest).
    destruct (decide (j = i)) as [->|Hne].
    + rewrite Hi in Hn. rewrite Hi' in Hn'. inversion Hn; inversion Hn'; subst. auto.
    + rewrite (Hrest j Hne), Hn in Hn'. inversion Hn'; subst.
      exfalso. exact (Qlt_irrefl _ Hlt).
  - apply migrated_lookup in H
      as (i & k & nomad & recipient & m & Hi & Hk & Hne & Ha & Hm & _ & Hcap & Hi' & Hk' & Hrest).
    destruct (decide (j = k)) as [->|Hjk].
    + rewrite Hk in Hn. rewrite Hk' in Hn'. inversion Hn; inversion Hn'; subst. auto.
    + destruct (decide (j = i)) as [->|Hji].
      * rewrite Hi in Hn. rewrite Hi' in Hn'. inversion Hn; inversion Hn'; subst.
        simpl in Hlt. exfalso. lra.
      * rewrite (Hrest j Hji Hjk), Hn in Hn'. inversion Hn'; subst.
        exfalso. exact (Qlt_irrefl _ Hlt).
Qed.

Lemma load_at_lookup ns i n : ns !! i = Some n -> load_at ns i = current_load n.
Proof. unfold load_at. now intros ->. Qed.







(** C3.  Whenever an [allocate_task] of any variant increases the load of a
    node, that node has [failed = false] and a positive capacity; a failed
    node or one without capacity is never the target of an allocation. *)
Theorem allocation_targets_active_node (task : Task) (E E' : Entropy) (s s' : Sim)
    (o : outcome bool) (j : nat) (n n' : Node) :
  allocate_task task E s = (s', E', o) ->
  nodes s !! j = Some n -> nodes s' !! j = Some n' ->
  current_load n < current_load n' ->
  failed n = false /\ (0 < capacity n)%Z.
Proof.
  intros H Hn Hn' Hlt. apply is_active_iff.
  apply allocate_task_effect in H as (Hsucc & Hfail & _).
  assert (Hcase : o = Ret true \/ o <> Ret true)
    by (destruct o as [[]|]; [left; reflexivity|right; discriminate..]).
  destruct Hcase as [->|Hne].
  - eapply (increase_only_on_active task (nodes s) (nodes s')); eauto.
    destruct (Hsucc eq_refl); tauto.
  - rewrite (Hfail Hne), Hn in Hn'. inversion Hn'; subst.
    exfalso. exact (Qlt_irrefl _ Hlt).
Qed.

(** ** Failed flags *)

Lemma map_failed_alter (f : Node -> Node) (i : nat) (ns : list Node) :
  (forall n, failed (f n) = failed n) ->
  map failed (alter f i ns) = map failed ns.
Proof.
  intros Hf. revert i. induction ns as [|n ns IH]; intros [|i]; simpl; auto.
  - now rewrite Hf.
  - f_equal. apply IH.
Qed.

Lemma map_failed_mark (i : nat) (ns : list Node) :
  map failed (alter (set_failed true) i ns) = <[i := true]> (map failed ns).
Proof.
  revert i. induction ns as [|n ns IH]; intros [|i]; simpl; auto.
  f_equal. apply IH.
Qed.

Lemma current_failures_flags (ns ns' : list Node) :
  map failed ns = map failed ns' -> current_failures ns = current_failures ns'.
Proof.
  unfold current_failures. revert ns'.
  induction ns as [|n ns IH]; intros [|n' ns']; simpl; try discriminate; auto.
  intros H. inversion H as [[H1 H2]]. rewrite H1.
  destruct (failed n'); simpl; auto.
Qed.

Lemma current_failures_mark (i : nat) (ns : list Node) :
  (current_failures (alter (set_failed true) i ns) <= S (current_failures ns))%nat.
Proof.
  unfold current_failures. revert i.
  induction ns as [|n ns IH]; intros [|i]; simpl; auto.
  - destruct (failed n); simpl; lia.
  - specialize (IH i). unfold alter in IH. destruct (failed n); simpl; lia.
Qed.

Lemma placed_flags task ns ns' : placed task ns ns' -> map failed ns' = map failed ns.
Proof. intros (i & n & _ & _ & _ & ->). now apply map_failed_alter. Qed.

Lemma migrated_flags task ns ns' : migrated task ns ns' -> map failed ns' = map failed ns.
Proof.
  intros (i & j & nomad & recipient & m & H). decompose [and] H. subst.
  now rewrite !map_failed_alter.
Qed.

(** No allocation attempt touches a failed flag. *)
Lemma allocate_task_flags task E s :
  map failed (nodes (allocate_task task E s).1.1) = map failed (nodes s).
Proof.
  destruct (allocate_task task E s) as [[s' E'] o] eqn:H. simpl.
  apply allocate_task_effect in H as (Hsucc & Hfail & _).
  assert (Hcase : o = Ret true \/ o <> Ret true)
    by (destruct o as [[]|]; [left; reflexivity|right; discriminate..]).
  destruct Hcase as [->|Hne].
  - destruct (Hsucc eq_refl) as [Hp | [_ Hm]].
    + eapply placed_flags; eauto.
    + eapply migrated_flags; eauto.
  - now rewrite (Hfail Hne).
Qed.

Lemma allocate_task_params task E s :
  let s' := (allocate_task task E s).1.1 in
  num_nodes s' = num_nodes s
  /\ min_nodes_for_operation s' = min_nodes_for_operation s
  /\ completed_tasks s' = completed_tasks s
  /\ length (nodes s') = length (nodes s).
Proof.
  intros s'. pose proof (allocate_task_frame task E s) as Hfr. fold s' in Hfr.
  pose proof (allocate_task_flags task E s) as Hfl. fold s' in Hfl.
  rewrite Hfr. simpl. repeat split.
  apply (f_equal length) in Hfl. now rewrite !length_map in Hfl.
Qed.

(** A fault injection leaves the flags alone or, its two guards passed, sets
    the flag of one node that was not failed. *)
Lemma simulate_failure_flags E s :
  let s' := (simulate_failure E s).1.1 in
  num_nodes s' = num_nodes s
  /\ min_nodes_for_operation s' = min_nodes_for_operation s
  /\ (map failed (nodes s') = map failed (nodes s)
      \/ ((Z.of_nat (current_failures (nodes s)) < max_failures s)%Z
          /\ exists i n,
               nodes s !! i = Some n /\ failed n = false
               /\ map failed (nodes s') = <[i := true]> (map failed (nodes s)))).
Proof.
  unfold simulate_failure.
  destruct (_ <=? _)%nat; [simpl; auto|].
  destruct (_ <=? _)%Z eqn:Hcap; [simpl; auto|].
  apply Z.leb_gt in Hcap.
  destruct (random_choice _ E) as [[[i node]|] E1] eqn:Hc; [|simpl; auto].
  apply random_choice_In in Hc. apply filter_In in Hc as [Hi Hnf].
  apply enumerate_In in Hi. simpl in Hnf. apply negb_true_iff in Hnf.
  destruct (random_random E1) as [r E2].
  destruct (Qlt_bool r _); [|simpl; auto].
  assert (Hmark : forall s2 : Sim,
             num_nodes s2 = num_nodes s ->
             min_nodes_for_operation s2 = min_nodes_for_operation s ->
             map failed (nodes s2) = map failed (alter (set_failed true) i (nodes s)) ->
             num_nodes s2 = num_nodes s
             /\ min_nodes_for_operation s2 = min_nodes_for_operation s
             /\ (map failed (nodes s2) = map failed (nodes s)
                 \/ ((Z.of_nat (current_failures (nodes s)) < max_failures s)%Z
                     /\ exists i n,
                          nodes s !! i = Some n /\ failed n = false
                          /\ map failed (nodes s2) = <[i := true]> (map failed (nodes s))))).
  { intros s2 H1 H2 H3. repeat split; auto. right. split; [exact Hcap|].
    exists i, node. rewrite H3, map_failed_mark. auto. }
  destruct (Qlt_bool 0 _); [|apply Hmark; reflexivity].
  set (s1 := set_nodes _ s).
  pose proof (allocate_task_params (mkTask (-1) (current_load node) 1 (current_load node) 1) E2 s1)
    as (Hn & Hm & _ & _).
  pose proof (allocate_task_flags (mkTask (-1) (current_load node) 1 (current_load node) 1) E2 s1)
    as Hfl.
  destruct (allocate_task _ E2 s1) as [[s2 E3] [[]|e]]; simpl in Hn, Hm, Hfl.
  - apply (Hmark (set_nodes (alter (set_load 0) i (nodes s2)) s2)); auto.
    simpl. rewrite map_failed_alter by reflexivity. exact Hfl.
  - apply (Hmark (set_completed_tasks
                    (completed_tasks s2 - py_int (load_at (nodes s2) i / 1000)) s2)); auto.
  - apply (Hmark s2); auto.
Qed.

Lemma max_failures_eq (s : Sim) :
  max_failures s = Z.max 1 (Z.of_nat (num_nodes s) / 10).
Proof.
  unfold max_failures, py_int. simpl. f_equal.
  rewrite Z.mul_1_r. apply Z.quot_div_nonneg; lia.
Qed.

Lemma initialize_nodes_flags n nd :
  Forall (fun x => failed x = false /\ current_load x = 0) (initialize_nodes n nd).
Proof.
  unfold initialize_nodes. apply List.Forall_forall. intros x Hx.
  apply in_map_iff in Hx as (i & <- & _). simpl. auto.
Qed.

Lemma no_failures ns :
  Forall (fun x => failed x = false /\ current_load x = 0) ns -> current_failures ns = 0%nat.
Proof.
  unfold current_failures. induction 1 as [|x l [Hx _] _ IH]; simpl; auto.
  now rewrite Hx.
Qed.

Lemma constructed_fresh s :
  constructed s ->
  min_nodes_for_operation s = 3%nat /\ current_failures (nodes s) = 0%nat
  /\ length (nodes s) = num_nodes s.
Proof.
  intros []; simpl; (split; [reflexivity|]);
    (split; [apply no_failures, initialize_nodes_flags|]);
    unfold initialize_nodes; now rewrite length_map, length_seq.
Qed.

Lemma reachable_cap s :
  reachable s ->
  min_nodes_for_operation s = 3%nat
  /\ (Z.of_nat (current_failures (nodes s)) <= max_failures s)%Z.
Proof.
  induction 1 as [s Hc|s task E _ [IH1 IH2]|s c _ IH|s E _ [IH1 IH2]].
  - apply constructed_fresh in Hc as (H1 & H2 & _). split; [exact H1|].
    rewrite H2, max_failures_eq. lia.
  - pose proof (allocate_task_params task E s) as (Hn & Hm & _).
    pose proof (allocate_task_flags task E s) as Hfl.
    split; [congruence|]. rewrite (current_failures_flags _ _ Hfl).
    rewrite max_failures_eq in *. rewrite Hn. exact IH2.
  - exact IH.
  - pose proof (simulate_failure_flags E s) as (Hn & Hm & Hfl).
    split; [congruence|]. rewrite max_failures_eq in *. rewrite Hn.
    destruct Hfl as [Hfl | (Hlt & i & n & Hi & Hnf & Hfl)].
    + now rewrite (current_failures_flags _ _ Hfl).
    + rewrite <- map_failed_mark in Hfl. rewrite (current_failures_flags _ _ Hfl).
      pose proof (current_failures_mark i (nodes s)). lia.
Qed.

(** C2.  In every state reachable from a freshly constructed instance by
    allocation attempts and fault injections, the number of failed nodes is
    at most [max(1, floor(0.1 * num_nodes))]; and when at most 3 nodes are
    not failed, or the number of failed nodes has reached that cap,
    [simulate_failure] changes nothing. *)
Theorem failure_cap_invariant (s : Sim) :
  reachable s ->
  (Z.of_nat (current_failures (nodes s)) <= Z.max 1 (Z.of_nat (num_nodes s) / 10))%Z
  /\ forall E,
       (length (not_failed_nodes (nodes s)) <= 3)%nat
       \/ (Z.max 1 (Z.of_nat (num_nodes s) / 10) <= Z.of_nat (current_failures (nodes s)))%Z ->
       simulate_failure E s = (s, E, Ret tt).
Proof.
  intros H. apply reachable_cap in H as [Hmin Hcap].
  rewrite max_failures_eq in Hcap. split; [exact Hcap|].
  intros E Hguard. unfold simulate_failure. rewrite Hmin, max_failures_eq.
  destruct (_ <=? 3)%nat eqn:H1; [reflexivity|].
  destruct (_ <=? _)%Z eqn:H2; [reflexivity|].
  apply Nat.leb_gt in H1. apply Z.leb_gt in H2. lia.
Qed.

Lemma lookup_map {A B : Type} (f : A -> B) (l : list A) (i : nat) :
  map f l !! i = f <$> l !! i.
Proof.
  revert i. induction l as [|x l IH]; intros [|i]; simpl; auto.
Qed.

Lemma failed_at_flags (s : Sim) (i : nat) :
  failed_at s i <-> map failed (nodes s) !! i = Some true.
Proof.
  unfold failed_at. rewrite lookup_map. split.
  - intros (n & -> & Hn). simpl. now rewrite Hn.
  - destruct (nodes s !! i) as [n|]; simpl; [|discriminate].
    intros H. inversion H. eauto.
Qed.

Lemma at_most_one_flip_keeps (s s' : Sim) (i : nat) :
  at_most_one_flip s s' -> failed_at s i -> failed_at s' i.
Proof.
  rewrite !failed_at_flags. intros [-> | (j & Hj & ->)] Hi; [exact Hi|].
  destruct (decide (j = i)) as [->|Hne].
  - congruence.
  - now rewrite list_lookup_insert_ne.
Qed.

Lemma simulate_failure_one_flip E s : at_most_one_flip s (simulate_failure E s).1.1.
Proof.
  destruct (simulate_failure_flags E s) as (_ & _ & [H | (_ & i & n & Hi & Hn & H)]).
  - now left.
  - right. exists i. split; [|exact H]. rewrite lookup_map, Hi. simpl. now rewrite Hn.
Qed.

Lemma allocate_task_keeps_failed task E s i :
  failed_at s i -> failed_at (allocate_task task E s).1.1 i.
Proof. rewrite !failed_at_flags, allocate_task_flags. auto. Qed.

Lemma run_loop_keeps_failed (todo : list Task) (i : nat) :
  forall E s, failed_at s i -> failed_at (run_loop todo E s).1.1 i.
Proof.
  induction todo as [|task rest IH]; intros E s Hs; simpl; [exact Hs|].
  pose proof (allocate_task_keeps_failed task E s i Hs) as H1.
  destruct (allocate_task task E s) as [[s1 E1] [b|e]]; simpl in H1; [|exact H1].
  set (s2 := if b then _ else s1).
  assert (H2 : failed_at s2 i) by (subst s2; destruct b; exact H1).
  destruct (random_random E1) as [r E2].
  destruct (Qlt_bool r 0.1); [|now apply IH].
  pose proof (at_most_one_flip_keeps _ _ i (simulate_failure_one_flip E2 s2) H2) as H3.
  destruct (simulate_failure E2 s2) as [[s3 E3] [[]|e]]; simpl in H3; [|exact H3].
  now apply IH.
Qed.

(** C10.  One call of [simulate_failure] sets the flag of at most one node,
    from false to true, and resets none; and a node that is failed stays
    failed through [allocate_task] of any variant, through
    [simulate_failure] and through a whole [run] ([calculate_metrics] is a
    pure function of the state). *)
Theorem failed_flag_is_permanent (task : Task) (E : Entropy) (s : Sim) :
  at_most_one_flip s (simulate_failure E s).1.1
  /\ map failed (nodes (allocate_task task E s).1.1) = map failed (nodes s)
  /\ forall i,
       failed_at s i ->
       failed_at (allocate_task task E s).1.1 i
       /\ failed_at (simulate_failure E s).1.1 i
       /\ failed_at (run E s).1.1 i.
Proof.
  split; [apply simulate_failure_one_flip|].
  split; [apply allocate_task_flags|].
  intros i H. split; [now apply allocate_task_keeps_failed|].
  split; [eapply at_most_one_flip_keeps; eauto using simulate_failure_one_flip|].
  unfold run.
  pose proof (run_loop_keeps_failed (tasks (set_completed_tasks 0 s)) i E
                (set_completed_tasks 0 s) H) as Hr.
  destruct (run_loop _ E _) as [[s' E'] [[]|e]]; exact Hr.
Qed.

Lemma mark_failed_lookup s i node :
  nodes s !! i = Some node ->
  nodes (mark_failed i s) !! i = Some (set_failed true node).
Proof. intros H. unfold mark_failed. simpl. now rewrite list_lookup_alter_eq, H. Qed.


(** ** Fault injection, step by step *)

(** A property kept by the four kinds of step [simulate_failure] is made of
    is kept by [simulate_failure]. *)
Lemma simulate_failure_preserves (P : Sim -> Prop) :
  (forall s i, P s -> P (mark_failed i s)) ->
  (forall s task E, P s -> P (allocate_task task E s).1.1) ->
  (forall s i, P s -> P (set_nodes (alter (set_load 0) i (nodes s)) s)) ->
  (forall s c, P s -> P (set_completed_tasks c s)) ->
  forall E s, P s -> P (simulate_failure E s).1.1.
Proof.
  intros Hmark Halloc Hzero Hcount E s Hs. unfold simulate_failure.
  destruct (_ <=? _)%nat; [exact Hs|].
  destruct (_ <=? _)%Z; [exact Hs|].
  destruct (random_choice _ E) as [[[i node]|] E1]; [|exact Hs].
  destruct (random_random E1) as [r E2].
  destruct (Qlt_bool r _); [|exact Hs].
  specialize (Hmark s i Hs). unfold mark_failed in Hmark.
  destruct (Qlt_bool 0 _); [|exact Hmark].
  specialize (Halloc _ (mkTask (-1) (current_load node) 1 (current_load node) 1) E2 Hmark).
  destruct (allocate_task _ E2 _) as [[s2 E3] [[]|e]]; simpl in *; auto.
Qed.

(** ** The Crow memory *)

Lemma existsb_node_eqb (active : list (nat * Node)) (i : nat) (n : Node) :
  In (i, n) active -> existsb (fun p => node_eqb n (snd p)) active = true.
Proof.
  intros H. apply existsb_exists. exists (i, n). split; [exact H|apply node_eqb_refl].
Qed.

Lemma refresh_loop_aligned (active : list (nat * Node)) (N : nat) (l : list Node) :
  forall k memory,
    length memory = N ->
    (forall i slot, memory !! i = Some slot -> exists x, slot = Some (i, x)) ->
    (k + length l = N)%nat ->
    exists memory',
      Crow.refresh_loop active (enumerate_from k l) memory = (memory', Ret tt)
      /\ length memory' = N
      /\ (forall i slot, memory' !! i = Some slot -> exists x, slot = Some (i, x))
      /\ (forall i, (i < k)%nat -> memory' !! i = memory !! i)
      /\ (forall j n, l !! j = Some n ->
                      existsb (fun p => node_eqb n (snd p)) active = true ->
                      memory' !! (k + j)%nat = Some (Some ((k + j)%nat, current_load n))).
Proof.

  induction l as [|node rest IH]; intros k memory Hlen Hal Hk; simpl.
  - exists memory. repeat split; auto. intros j n H. discriminate.
  - simpl in Hk.
    assert (Hstep : forall memory1,
               length memory1 = N ->
               (forall i slot, memory1 !! i = Some slot -> exists x, slot = Some (i, x)) ->
               (forall i, (i < k)%nat -> memory1 !! i = memory !! i) ->
               (existsb (fun p => node_eqb node (snd p)) active = true ->
                memory1 !! k = Some (Some (k, current_load node))) ->
               exists memory',
                 Crow.refresh_loop active (enumerate_from (S k) rest) memory1
                 = (memory', Ret tt)
                 /\ length memory' = N
                 /\ (forall i slot, memory' !! i = Some slot -> exists x, slot = Some (i, x))
                 /\ (forall i, (i < k)%nat -> memory' !! i = memory !! i)
                 /\ (forall j n, (node :: rest) !! j = Some n ->
                                 existsb (fun p => node_eqb n (snd p)) active = true ->
                                 memory' !! (k + j)%nat
                                 = Some (Some ((k + j)%nat, current_load n)))).
    { intros memory1 Hlen1 Hal1 Hlow Hk1.
      destruct (IH (S k) memory1 Hlen1 Hal1) as (memory' & Hr & Hl' & Ha' & Hlow' & Hup');
        [lia|].
      exists memory'. repeat split; auto.
      - intros i Hi. rewrite Hlow' by lia. now apply Hlow.
      - intros [|j] n Hj Hact; simpl in Hj.
        + inversion Hj; subst. replace (k + 0)%nat with k by lia.
          rewrite Hlow' by lia. now apply Hk1.
        + replace (k + S j)%nat with (S k + j)%nat by lia. now apply Hup'. }
    destruct (existsb _ active) eqn:Hex.
    + destruct (memory !! k) as [slot|] eqn:Hslot.
      2:{ apply lookup_ge_None in Hslot. lia. }
      destruct (Hal k slot Hslot) as [x ->].
      apply Hstep.
      * now rewrite length_insert.
      * intros i slot Hi. destruct (decide (i = k)) as [->|Hne].
        -- rewrite list_lookup_insert_eq in Hi by lia. inversion Hi. eauto.
        -- rewrite list_lookup_insert_ne in Hi by congruence. eauto.
      * intros i Hi. apply list_lookup_insert_ne. lia.
      * intros _. apply list_lookup_insert_eq. lia.
    + apply Hstep; auto. discriminate.
Qed.

Lemma active_nodes_all (ns : list Node) :
  (forall n, In n ns -> is_active n = true) -> active_nodes ns = enumerate ns.
Proof.
  intros H. unfold active_nodes. apply forallb_filter_id. apply forallb_forall.
  intros [i n] Hin. apply enumerate_In in Hin. simpl. apply H.
  apply list_elem_of_In. eapply list_elem_of_lookup_2; eauto.
Qed.

Lemma seed_aligned {A : Type} (f : A -> Q) (l : list A) (k : nat) :
  forall i slot,
    map (fun p => Some (fst p, f (snd p))) (enumerate_from k l) !! i = Some slot ->
    exists x, slot = Some ((k + i)%nat, x).
Proof.
  revert k. induction l as [|y l IH]; intros k [|i] slot; simpl; try discriminate.
  - intros H. inversion H. replace (k + 0)%nat with k by lia. eauto.
  - intros H. apply IH in H. replace (k + S i)%nat with (S k + i)%nat by lia. exact H.
Qed.

Lemma enumerate_from_length {A : Type} (l : list A) (k : nat) :
  length (enumerate_from k l) = length l.
Proof. revert k. induction l; intros k; simpl; auto. Qed.

Lemma existsb_truthy_false (memory : list Crow.Slot) :
  (forall slot, In slot memory -> slot = None) -> existsb Crow.truthy memory = false.
Proof.
  induction memory as [|slot memory IH]; intros H; simpl; [reflexivity|].
  rewrite (H slot) by now left. simpl. apply IH. intros x Hx. apply H. now right.
Qed.

Lemma existsb_truthy_true (memory : list Crow.Slot) :
  memory <> [] ->
  (forall i slot, memory !! i = Some slot -> exists x, slot = Some (i, x)) ->
  existsb Crow.truthy memory = true.
Proof.
  destruct memory as [|slot memory]; [congruence|]. intros _ H.
  destruct (H 0%nat slot eq_refl) as [x ->]. reflexivity.
Qed.

(** From an unseeded or aligned memory, the Crow [allocate_task] does not
    raise, leaves the memory aligned and every slot of an active node holds
    that node's load at the time of the call. *)
Lemma crow_allocate_memory task memory ns :
  length memory = length ns ->
  ((forall slot, In slot memory -> slot = None)
   /\ (forall n, In n ns -> is_active n = true))
  \/ (forall i slot, memory !! i = Some slot -> exists x, slot = Some (i, x)) ->
  exists ns' memory' b,
    Crow.allocate_task task memory ns = (ns', memory', Ret b)
    /\ length memory' = length ns
    /\ (forall i slot, memory' !! i = Some slot -> exists x, slot = Some (i, x))
    /\ forall i n x, ns !! i = Some n -> is_active n = true ->
                     memory' !! i = Some (Some x) -> x = (i, current_load n).
Proof.
  intros Hlen Hinv. unfold Crow.allocate_task.
  destruct (active_nodes ns) as [|a active] eqn:Hact.
  { exists ns, memory, false. split; [reflexivity|]. split; [exact Hlen|]. split.
    - destruct Hinv as [[Hnone Hall] | Hal]; [|exact Hal].
      rewrite active_nodes_all in Hact by exact Hall.
      destruct ns; [|discriminate]. destruct memory; [|discriminate].
      intros i slot H. discriminate.
    - intros i n x Hi Ha. assert (Hin : In (i, n) (active_nodes ns))
        by now apply active_nodes_In.
      rewrite Hact in Hin. destruct Hin. }
  rewrite <- Hact.
  set (memory1 := if negb (existsb Crow.truthy memory) then _ else memory).
  assert (H1 : length memory1 = length ns
               /\ forall i slot, memory1 !! i = Some slot -> exists x, slot = Some (i, x)).
  { subst memory1. destruct Hinv as [[Hnone Hall] | Hal].
    - rewrite existsb_truthy_false by exact Hnone. simpl.
      rewrite active_nodes_all by exact Hall. unfold enumerate. split.
      + now rewrite length_map, enumerate_from_length.
      + intros i slot H. now apply seed_aligned in H.
    - rewrite existsb_truthy_true; auto.
      intros ->. destruct ns; [|discriminate]. discriminate. }
  destruct H1 as [Hlen1 Hal1].
  destruct (refresh_loop_aligned (active_nodes ns) (length ns) ns 0 memory1 Hlen1 Hal1)
    as (memory2 & Hr & Hlen2 & Hal2 & _ & Hup); [reflexivity|].
  unfold enumerate. rewrite Hr.
  assert (Hfresh : forall i n x, ns !! i = Some n -> is_active n = true ->
                                 memory2 !! i = Some (Some x) -> x = (i, current_load n)).
  { intros i n x Hi Ha Hx. specialize (Hup i n Hi).
    rewrite (existsb_node_eqb _ i n) in Hup by now apply active_nodes_In.
    specialize (Hup eq_refl). simpl in Hup. congruence. }
  destruct (py_min _ _ _) as [[[j load] best]|].
  - destruct (fits task best); eexists _, memory2, _; (split; [reflexivity|auto]).
  - eexists _, memory2, _. split; [reflexivity|auto].
Qed.

Lemma crow_init_unseeded n m nd td :
  (forall i, node_draw_ok (nd i)) -> crow_unseeded (Crow_init n m nd td).
Proof.
  intros Hok. unfold crow_unseeded, crow_memory. simpl.
  unfold initialize_nodes. rewrite length_map, length_seq, repeat_length.
  repeat split; eauto.
  - intros slot H. now apply repeat_spec in H.
  - intros x Hx. apply in_map_iff in Hx as (i & <- & _).
    destruct (Hok i) as [_ Hs]. unfold is_active. simpl.
    apply Z.ltb_lt. lia.
Qed.

(** The Crow [allocate_task] on an instance whose memory is unseeded or
    aligned. *)
Lemma crow_allocate_aligned task E s :
  crow_unseeded s \/ crow_aligned s ->
  crow_aligned (allocate_task task E s).1.1
  /\ (exists b, (allocate_task task E s).2 = Ret b)
  /\ forall i n x,
       nodes s !! i = Some n -> is_active n = true ->
       crow_memory (allocate_task task E s).1.1 !! i = Some (Some x) ->
       x = (i, current_load n).
Proof.
  intros Hinv.
  assert (H : length (nodes s) = num_nodes s
              /\ exists memory fl,
                   algo s = CrowSearchAlgorithm memory fl
                   /\ length memory = length (nodes s)
                   /\ (((forall slot, In slot memory -> slot = None)
                        /\ (forall n, In n (nodes s) -> is_active n = true))
                       \/ (forall i slot, memory !! i = Some slot ->
                                          exists x, slot = Some (i, x)))).
  { unfold crow_unseeded, crow_aligned, crow_memory in Hinv.
    destruct Hinv as [(H1 & H2 & (memory & fl & Ha) & H3 & H4)
                     | (H1 & H2 & (memory & fl & Ha) & H3)];
      rewrite Ha in *; split; auto; exists memory, fl; auto. }
  destruct H as (Hn & memory & fl & Ha & Hlen & Hcases).
  destruct (crow_allocate_memory task memory (nodes s) Hlen Hcases)
    as (ns' & memory' & b & Hr & Hlen' & Hal' & Hfresh).
  pose proof (allocate_task_params task E s) as (Hnn & _ & _ & Hl).
  unfold allocate_task in *. rewrite Ha, Hr in *. simpl in *.
  unfold crow_aligned, crow_memory. simpl. repeat split; eauto; congruence.
Qed.

Lemma crow_aligned_mark s i : crow_aligned s -> crow_aligned (mark_failed i s).
Proof.
  unfold crow_aligned, mark_failed, crow_memory. simpl.
  now rewrite length_alter.
Qed.

Lemma crow_aligned_zero s i :
  crow_aligned s -> crow_aligned (set_nodes (alter (set_load 0) i (nodes s)) s).
Proof.
  unfold crow_aligned, crow_memory. simpl. now rewrite length_alter.
Qed.

Lemma crow_seeded_aligned s : crow_seeded s -> crow_aligned s.
Proof.
  induction 1 as [n m nd td task E Hok|s task E _ IH|s c _ IH|s E _ IH|s i _ IH].
  - apply crow_allocate_aligned. left. now apply crow_init_unseeded.
  - apply crow_allocate_aligned. now right.
  - exact IH.
  - revert E s IH. apply simulate_failure_preserves.
    + intros s i. apply crow_aligned_mark.
    + intros s task E H. apply crow_allocate_aligned. now right.
    + intros s i. apply crow_aligned_zero.
    + auto.
  - now apply crow_aligned_mark.
Qed.

Lemma crow_call_state_inv s : crow_call_state s -> crow_unseeded s \/ crow_aligned s.
Proof.
  intros [(n & m & nd & td & Hok & ->) | H].
  - left. now apply crow_init_unseeded.
  - right. now apply crow_seeded_aligned.
Qed.






Lemma set_algo_forget (s s' : Sim) :
  s' = set_algo (algo s') (set_nodes (nodes s') s) ->
  nodes s' = nodes s ->
  forget_cache (algo s') = forget_cache (algo s) ->
  same_but_cache s s'.
Proof.
  unfold same_but_cache. intros Hfr Hns Ha. rewrite Ha, Hfr, Hns.
  destruct s; reflexivity.
Qed.

(** C9 (amended).  [allocate_task] of Lion, Bat and Monarch never raises, and
    the Crow [allocate_task] does not raise in the states a run calls it in;
    it returns true or false.  When it returns false the node pool and the
    completed-task counter are unchanged, and the instance is unchanged up to
    its lazily built cache: the Lion nomad set may have been built and the
    Crow memory seeded or refreshed. *)
Theorem allocate_task_total_pool_atomic (task : Task) (E : Entropy) (s : Sim) :
  call_state s ->
  exists b,
    (allocate_task task E s).2 = Ret b
    /\ (b = false ->
        nodes (allocate_task task E s).1.1 = nodes s
        /\ completed_tasks (allocate_task task E s).1.1 = completed_tasks s
        /\ same_but_cache s (allocate_task task E s).1.1).
Proof.
  intros Hcall.
  assert (Hret : exists b, (allocate_task task E s).2 = Ret b).
  { unfold call_state in Hcall.
    destruct (algo s) as [ps ts nomads thr|ld pr|memory fl|bar] eqn:Ha.
    3:{ apply crow_allocate_aligned, crow_call_state_inv, Hcall. }
    all: destruct (allocate_task task E s) as [[s' E'] o] eqn:Hr;
      apply allocate_task_effect in Hr as (_ & _ & _ & Hr);
      apply Hr; rewrite Ha; discriminate. }
  destruct Hret as [b Hb]. exists b. split; [exact Hb|]. intros ->.
  pose proof (allocate_task_frame task E s) as Hfr.
  pose proof (allocate_task_params task E s) as (_ & _ & Hc & _).
  destruct (allocate_task task E s) as [[s' E'] o] eqn:Hr. simpl in *. subst o.
  apply allocate_task_effect in Hr as (_ & Hns & Hcache & _).
  specialize (Hns ltac:(discriminate)). specialize (Hcache eq_refl).
  repeat split; auto. now apply set_algo_forget.
Qed.

(** ** Bat without the random-first attempt *)


(** ** Territories of the Lion strategy *)

Lemma range_length (n ps : nat) :
  (0 < ps)%nat ->
  ((n + ps - 1) / ps = n / ps + (if (n mod ps =? 0)%nat then 0 else 1))%nat.
Proof.
  intros Hps. pose proof (Nat.div_mod_eq n ps) as Hn.
  pose proof (Nat.mod_upper_bound n ps ltac:(lia)) as Hr.
  destruct (n mod ps =? 0)%nat eqn:Hz.
  - apply Nat.eqb_eq in Hz. symmetry.
    apply (Nat.div_unique _ _ _ (ps - 1)); lia.
  - apply Nat.eqb_neq in Hz. symmetry.
    apply (Nat.div_unique _ _ _ (n mod ps - 1)); lia.
Qed.

Lemma flat_map_singletons {A B : Type} (h : A -> list B) (g : A -> B) (l : list A) :
  (forall k, In k l -> h k = [g k]) -> flat_map h l = map g l.
Proof.
  induction l as [|x l IH]; intros H; simpl; [reflexivity|].
  rewrite (H x) by now left. simpl. f_equal. apply IH. intros k Hk. apply H. now right.
Qed.

(** The territories built over a pool of [n] nodes for a group size [ps]. *)
Lemma initialize_territories_groups (n ps : nat) (ns : list Node) :
  length ns = n -> (2 <= ps)%nat ->
  Lion._initialize_territories n ps ns =
    if (n <=? 1)%nat then [mkTerritory (seq 0 n) Inf None]
    else map (fun k => mkTerritory (seq (k * ps) ps) Inf None) (seq 0 (n / ps))
         ++ (if (2 <=? n mod ps)%nat
             then [mkTerritory (seq (n / ps * ps) (n mod ps)) Inf None]
             else []).
Proof.
  intros Hlen Hps. unfold Lion._initialize_territories, py_range_step, Lion.slice.
  rewrite Hlen. pose proof (Nat.div_mod_eq n ps) as Hn.
  pose proof (Nat.mod_upper_bound n ps ltac:(lia)) as Hr.
  rewrite range_length by lia. rewrite flat_map_concat_map, map_map, <- flat_map_concat_map.
  rewrite seq_app, flat_map_app.
  rewrite (flat_map_singletons _ (fun k => mkTerritory (seq (k * ps) ps) Inf None)).
  2:{ intros k Hk. apply in_seq in Hk. rewrite length_seq.
      replace (Nat.min (k * ps + ps) n - k * ps)%nat with ps by nia.
      destruct (2 <=? ps)%nat eqn:H2; [reflexivity|]. apply Nat.leb_gt in H2. lia. }
  replace (Nat.sub n 0) with n by lia. simpl (0 + n / ps)%nat.
  assert (Hlast : flat_map
            (fun x =>
               if (2 <=? length (seq (x * ps) (Nat.min (x * ps + ps) n - x * ps)))%nat
               then [mkTerritory (seq (x * ps) (Nat.min (x * ps + ps) n - x * ps)) Inf None]
               else [])
            (seq (n / ps) (if (n mod ps =? 0)%nat then 0 else 1))
          = if (2 <=? n mod ps)%nat
            then [mkTerritory (seq (n / ps * ps) (n mod ps)) Inf None] else []).
  { destruct (n mod ps =? 0)%nat eqn:Hz.
    - apply Nat.eqb_eq in Hz. rewrite Hz. reflexivity.
    - simpl. rewrite length_seq, app_nil_r.
      replace (Nat.min (n / ps * ps + ps) n - n / ps * ps)%nat with (n mod ps) by nia.
      reflexivity. }
  rewrite Hlast. clear Hlast.
  destruct (n <=? 1)%nat eqn:Hsmall.
  - apply Nat.leb_le in Hsmall.
    assert (Hq : (n / ps = 0)%nat) by (apply Nat.div_small; lia).
    assert (Hm : (2 <=? n mod ps)%nat = false)
      by (apply Nat.leb_gt; rewrite Nat.mod_small; lia).
    rewrite Hq, Hm. cbn [seq map app]. now rewrite ?Nat.min_id, ?Nat.sub_0_r.
  - apply Nat.leb_gt in Hsmall.
    destruct (map _ (seq 0 (n / ps)) ++ _) as [|t ts] eqn:Hts; [|reflexivity].
    exfalso. apply app_eq_nil in Hts as [H1 H2].
    apply map_eq_nil in H1.
    assert (Hq : (n / ps = 0)%nat) by (destruct (n / ps)%nat; [reflexivity|discriminate]).
    rewrite Hq in Hn. destruct (2 <=? n mod ps)%nat eqn:H3; [discriminate|].
    apply Nat.leb_gt in H3. lia.
Qed.

Lemma concat_groups (ps q : nat) :
  concat (map territory_nodes
              (map (fun k => mkTerritory (seq (k * ps) ps) Inf None) (seq 0 q)))
  = seq 0 (q * ps).
Proof.
  induction q as [|q IH]; [reflexivity|].
  rewrite seq_S, !map_app, concat_app, IH. simpl. rewrite app_nil_r.
  replace (ps + q * ps)%nat with (q * ps + ps)%nat by lia.
  now rewrite seq_app.
Qed.

(** C8 (amended).  At construction the territories of the Lion strategy are
    the consecutive groups of [pride_size] nodes in pool order, followed by
    the group of the remaining nodes when at least 2 remain; a single
    remaining node is left out and belongs to no territory.  A pool of at
    most one node gets a single fallback territory holding the whole pool.
    Read in order, the territories list the nodes [0 .. n-1] once each,
    without the last node when it is left out. *)
Theorem lion_territories_at_construction (n m : nat) (nd : nat -> NodeDraw)
    (td : nat -> TaskDraw) :
  let ps := Nat.max 5 (n / 4) in
  let ts := territories_of (Lion.init n m nd td) in
  ts = (if (n <=? 1)%nat then [mkTerritory (seq 0 n) Inf None]
        else map (fun k => mkTerritory (seq (k * ps) ps) Inf None) (seq 0 (n / ps))
             ++ (if (2 <=? n mod ps)%nat
                 then [mkTerritory (seq (n / ps * ps) (n mod ps)) Inf None]
                 else []))
  /\ concat (map territory_nodes ts)
     = seq 0 (if (2 <=? n)%nat && (n mod ps =? 1)%nat then n - 1 else n).
Proof.
  intros ps ts.
  assert (Hts : ts = Lion._initialize_territories n ps (initialize_nodes n nd))
    by reflexivity.
  rewrite initialize_territories_groups in Hts.
  2:{ unfold initialize_nodes. now rewrite length_map, length_seq. }
  2:{ subst ps. lia. }
  split; [exact Hts|]. rewrite Hts. clear Hts ts.
  assert (Hps : (5 <= ps)%nat) by (subst ps; lia).
  pose proof (Nat.div_mod_eq n ps) as Hn.
  pose proof (Nat.mod_upper_bound n ps ltac:(lia)) as Hr.
  destruct (n <=? 1)%nat eqn:Hsmall.
  - apply Nat.leb_le in Hsmall.
    assert (H2 : (2 <=? n)%nat = false) by (apply Nat.leb_gt; lia).
    rewrite H2. cbn [andb map concat territory_nodes]. now rewrite app_nil_r.
  - apply Nat.leb_gt in Hsmall.
    assert (H2 : (2 <=? n)%nat = true) by (apply Nat.leb_le; lia).
    rewrite H2, map_app, concat_app, concat_groups. cbn [andb].
    destruct (2 <=? n mod ps)%nat eqn:H3.
    + apply Nat.leb_le in H3.
      assert (H1 : (n mod ps =? 1)%nat = false) by (apply Nat.eqb_neq; lia).
      rewrite H1. cbn [map concat territory_nodes].
      rewrite app_nil_r, <- seq_app. f_equal. lia.
    + apply Nat.leb_gt in H3. cbn [map concat]. rewrite app_nil_r.
      destruct (n mod ps =? 1)%nat eqn:H1.
      * apply Nat.eqb_eq in H1. f_equal. lia.
      * apply Nat.eqb_neq in H1. f_equal. lia.
Qed.

(** ** Metrics *)

Lemma py_min2_nonneg (a b : Q) : 0 <= a -> 0 <= b -> 0 <= py_min2 a b.
Proof. intros Ha Hb. unfold py_min2. now destruct (Qlt_bool b a). Qed.

Lemma ratio_nonneg (a b : Z) : (0 <= a)%Z -> (0 <= b)%Z -> 0 <= inject_Z a / inject_Z b * 100.
Proof.
  intros Ha Hb. apply Qmult_le_0_compat; [|discriminate].
  apply Qmult_le_0_compat.
  - change 0 with (inject_Z 0). now rewrite <- Zle_Qle.
  - apply Qinv_le_0_compat. change 0 with (inject_Z 0). now rewrite <- Zle_Qle.
Qed.

(** What holds of the percentages whatever the state: both are at most 100,
    the fault tolerance is at least 0, and the throughput is at least 0 as
    long as the completed-task counter is. *)
Lemma calculate_metrics_bounds (s : Sim) :
  Metrics.throughput (calculate_metrics s) <= 100
  /\ 0 <= Metrics.fault_tolerance (calculate_metrics s)
  /\ Metrics.fault_tolerance (calculate_metrics s) <= 100
  /\ (num_tasks s = 0%nat -> Metrics.throughput (calculate_metrics s) == 0)
  /\ (current_failures (nodes s) = 0%nat ->
      Metrics.fault_tolerance (calculate_metrics s) == 100)
  /\ ((0 <= completed_tasks s)%Z -> 0 <= Metrics.throughput (calculate_metrics s)).
Proof.
  unfold calculate_metrics. cbn [Metrics.throughput Metrics.fault_tolerance].
  split; [apply py_min2_le_l|]. split.
  { apply py_min2_nonneg; [discriminate|].
    destruct (List.filter failed (nodes s)); [discriminate|].
    apply ratio_nonneg; lia. }
  split; [apply py_min2_le_l|]. split.
  { intros ->. reflexivity. }
  split.
  { unfold current_failures. intros H.
    destruct (List.filter failed (nodes s)); [reflexivity|discriminate]. }
  intros Hc. apply py_min2_nonneg; [discriminate|].
  destruct (0 <? num_tasks s)%nat; [|apply Qle_refl].
  apply ratio_nonneg; lia.
Qed.

(** ** A Crow run does not raise *)

Lemma simulate_failure_crow_returns E s :
  crow_aligned s -> (simulate_failure E s).2 = Ret tt.
Proof.
  intros Hs. unfold simulate_failure.
  destruct (_ <=? _)%nat; [reflexivity|].
  destruct (_ <=? _)%Z; [reflexivity|].
  destruct (random_choice _ E) as [[[i node]|] E1]; [|reflexivity].
  destruct (random_random E1) as [r E2].
  destruct (Qlt_bool r _); [|reflexivity].
  destruct (Qlt_bool 0 _); [|reflexivity].
  destruct (crow_allocate_aligned
              (mkTask (-1) (current_load node) 1 (current_load node) 1) E2
              (mark_failed i s)) as (_ & (b & Hb) & _).
  { right. now apply crow_aligned_mark. }
  unfold mark_failed in Hb.
  destruct (allocate_task _ E2 _) as [[s2 E3] o]. simpl in Hb. subst o.
  now destruct b.
Qed.

Lemma simulate_failure_crow_aligned E s :
  crow_aligned s -> crow_aligned (simulate_failure E s).1.1.
Proof.
  revert E s. apply simulate_failure_preserves.
  - intros s i. apply crow_aligned_mark.
  - intros s task E H. apply crow_allocate_aligned. now right.
  - intros s i. apply crow_aligned_zero.
  - auto.
Qed.

Lemma run_loop_crow_returns (todo : list Task) :
  forall E s, crow_unseeded s \/ crow_aligned s -> (run_loop todo E s).2 = Ret tt.
Proof.
  induction todo as [|task rest IH]; intros E s Hs; simpl; [reflexivity|].
  destruct (crow_allocate_aligned task E s Hs) as (Hal & (b & Hb) & _).
  destruct (allocate_task task E s) as [[s1 E1] o]. simpl in Hal, Hb. subst o.
  set (s2 := if b then _ else s1).
  assert (H2 : crow_aligned s2) by (subst s2; destruct b; exact Hal).
  destruct (random_random E1) as [r E2].
  destruct (Qlt_bool r 0.1); [|apply IH; now right].
  pose proof (simulate_failure_crow_returns E2 s2 H2) as Hret.
  pose proof (simulate_failure_crow_aligned E2 s2 H2) as Hinv.
  destruct (simulate_failure E2 s2) as [[s3 E3] o]. simpl in Hret, Hinv. subst o.
  apply IH. now right.
Qed.

(** A run of a freshly constructed Crow instance returns its metrics. *)
Lemma crow_run_returns n m nd td E :
  (forall i, node_draw_ok (nd i)) ->
  exists metrics, (run E (Crow_init n m nd td)).2 = Ret metrics.
Proof.
  intros Hok. unfold run.
  pose proof (run_loop_crow_returns
                (tasks (set_completed_tasks 0 (Crow_init n m nd td))) E
                (set_completed_tasks 0 (Crow_init n m nd td))) as H.
  destruct (run_loop _ E _) as [[s' E'] o]. simpl in H.
  rewrite H; [simpl; eauto|].
  left. apply (crow_init_unseeded n m nd td Hok).
Qed.

(** ** The claims on the example instances *)






(** After the fault injection that failed node 0 of [bat_four_loaded], three
    nodes are left and the cap of one failure is reached: every further
    fault injection changes nothing. *)
Lemma failure_cap_invariant_witness :
  (Z.of_nat (current_failures (nodes (simulate_failure fail_node_0 bat_four_loaded).1.1))
   = Z.max 1 (Z.of_nat (num_nodes (simulate_failure fail_node_0 bat_four_loaded).1.1) / 10))%Z
  /\ length (not_failed_nodes (nodes (simulate_failure fail_node_0 bat_four_loaded).1.1))
     = 3%nat
  /\ forall E,
       simulate_failure E (simulate_failure fail_node_0 bat_four_loaded).1.1
       = ((simulate_failure fail_node_0 bat_four_loaded).1.1, E, Ret tt).
Proof.
  split; [vm_compute; reflexivity|]. split; [vm_compute; reflexivity|].
  assert (Hr : reachable (simulate_failure fail_node_0 bat_four_loaded).1.1).
  { apply reach_failure.
    change (reachable (allocate_task task_500 no_entropy
                         (Bat_init 4 1 small_node (demands [500]%Z))).1.1).
    apply reach_allocate, reach_constructed, constructed_bat. }
  destruct (failure_cap_invariant _ Hr) as [_ H].
  intros E. apply H. left. vm_compute. lia.
Defined.

Lemma allocation_targets_active_node_witness :
  failed (mkNode 0 4 2000 8000 0 false 0.002) = false
  /\ (0 < capacity (mkNode 0 4 2000 8000 0 false 0.002))%Z.
Proof.
  apply (allocation_targets_active_node (mkTask 0 1000 1 500 1) no_entropy no_entropy
           (Bat_init 4 1 small_node (demands [500]%Z)) bat_four_loaded (Ret true) 0
           (mkNode 0 4 2000 8000 0 false 0.002)
           (mkNode 0 4 2000 8000 (0 + 500) false 0.002)).
  - vm_compute. reflexivity.
  - reflexivity.
  - vm_compute. reflexivity.
  - vm_compute. reflexivity.
Defined.

(** On [bat_four_loaded], [simulate_failure] fails node 0, which carries 500,
    and the migration task is placed on node 1. *)
Lemma bat_four_migration_succeeds : migration_succeeds fail_node_0 bat_four_loaded 0.
Proof.
  exists (mkNode 0 4 2000 8000 (0 + 500) false 0.002), (mkEntropy [0.01] [] []),
    0.01, no_entropy,
    (allocate_task (migration_task (mkNode 0 4 2000 8000 (0 + 500) false 0.002))
                   no_entropy (mark_failed 0 bat_four_loaded)).1.1,
    no_entropy.
  repeat split; vm_compute; reflexivity.
Qed.


(** For Lion the migration task can be accepted by the nomad phase: on
    [lion_four_loaded] (loads 7000, 6900, 6800, 6700) node 2 fails, its load
    of 6800 fits on no node, the nomad phase moves 1300 from node 0 to node
    3 and reports success, and node 2 is emptied: the loads are 5700, 6900,
    0 and 8000, and 6800 of the 27400 carried before are carried by no
    node. *)
Lemma lion_accepted_migration_drops_load :
  migration_succeeds fail_node_2 lion_four_loaded 2
  /\ map current_load (nodes lion_four_loaded) = [7000; 6900; 6800; 6700]
  /\ map current_load (nodes (simulate_failure fail_node_2 lion_four_loaded).1.1)
     = [5700; 6900; 0; 8000]
  /\ total_load (nodes (simulate_failure fail_node_2 lion_four_loaded).1.1)
     == total_load (nodes lion_four_loaded) - 6800.
Proof.
  split.
  - exists (mkNode 2 4 2000 8000 6800 false 0.002), (mkEntropy [0.01] [] []),
      0.01, no_entropy,
      (allocate_task (migration_task (mkNode 2 4 2000 8000 6800 false 0.002))
                     no_entropy (mark_failed 2 lion_four_loaded)).1.1,
      no_entropy.
    repeat split; vm_compute; reflexivity.
  - repeat split; vm_compute; reflexivity.
Qed.



(** C5: a run in which a failed migration drives the completed-task counter
    to -9 reports a throughput of -300. *)
Theorem throughput_negative_after_lost_work :
  completed_tasks (run lost_work_entropy bat_lost_work).1.1 = (-9)%Z
  /\ exists m,
       (run lost_work_entropy bat_lost_work).2 = Ret m
       /\ Metrics.throughput m == -300
       /\ Metrics.fault_tolerance m == 0.
Proof.
  split; [vm_compute; reflexivity|].
  eexists. split; [vm_compute; reflexivity|]. split; vm_compute; reflexivity.
Qed.



Lemma small_node_ok : forall i, node_draw_ok (small_node i).
Proof. intros i. unfold node_draw_ok. simpl. lia. Qed.




(** C8, as stated, fails: of a pool of 6 nodes only the first 5 form a
    territory; node 5 belongs to none. *)
Lemma sixth_node_has_no_territory :
  ~ covers_pool 6 (territories_of (Lion.init 6 0 small_node (demands []))).
Proof.
  intros H. destruct (H 5%nat) as (t & Ht & H5); [lia|].
  vm_compute in Ht. destruct Ht as [<- | []].
  simpl in H5. intuition discriminate.
Qed.

(** C9, as stated, fails: a task of 4000 fits on neither node of
    [lion_pair_even] and no nomad is above the migration threshold, so
    [allocate_task] returns false, yet it has built the nomad set. *)
Lemma failed_allocation_builds_nomads :
  (allocate_task task_4000 no_entropy lion_pair_even).2 = Ret false
  /\ (allocate_task task_4000 no_entropy lion_pair_even).1.1 <> lion_pair_even.
Proof.
  split; [vm_compute; reflexivity|].
  intros H. apply (f_equal algo) in H. vm_compute in H. discriminate.
Qed.

Lemma allocate_task_total_pool_atomic_witness :
  exists b,
    (allocate_task task_4000 no_entropy lion_pair_even).2 = Ret b
    /\ (b = false ->
        nodes (allocate_task task_4000 no_entropy lion_pair_even).1.1 = nodes lion_pair_even
        /\ completed_tasks (allocate_task task_4000 no_entropy lion_pair_even).1.1
           = completed_tasks lion_pair_even
        /\ same_but_cache lion_pair_even
             (allocate_task task_4000 no_entropy lion_pair_even).1.1).
Proof.
  apply (allocate_task_total_pool_atomic task_4000 no_entropy lion_pair_even).
  vm_compute. exact I.
Defined.

(** On [bat_twenty_one_failed] node 0 is failed; a further fault injection
    fails node 1, and node 0 stays failed. *)
Lemma failed_flag_is_permanent_witness :
  failed_at bat_twenty_one_failed 0
  /\ map failed (nodes (simulate_failure fail_node_0 bat_twenty_one_failed).1.1)
     = <[1%nat := true]> (map failed (nodes bat_twenty_one_failed))
  /\ at_most_one_flip bat_twenty_one_failed
       (simulate_failure fail_node_0 bat_twenty_one_failed).1.1
  /\ map failed (nodes (allocate_task task_200 fail_node_0 bat_twenty_one_failed).1.1)
     = map failed (nodes bat_twenty_one_failed)
  /\ failed_at (allocate_task task_200 fail_node_0 bat_twenty_one_failed).1.1 0
  /\ failed_at (simulate_failure fail_node_0 bat_twenty_one_failed).1.1 0
  /\ failed_at (run fail_node_0 bat_twenty_one_failed).1.1 0.
Proof.
  assert (H0 : failed_at bat_twenty_one_failed 0).
  { exists (mkNode 0 4 2000 8000 0 true 0.002). split; vm_compute; reflexivity. }
  split; [exact H0|]. split; [vm_compute; reflexivity|].
  destruct (failed_flag_is_permanent task_200 fail_node_0 bat_twenty_one_failed)
    as (H1 & H2 & H3).
  split; [exact H1|]. split; [exact H2|]. exact (H3 0%nat H0).
Defined.

(** * Further properties *)

(** ** What never changes *)

Lemma map_static_alter (f : Node -> Node) (i : nat) (ns : list Node) :
  (forall n, static_fields (f n) = static_fields n) ->
  map static_fields (alter f i ns) = map static_fields ns.
Proof.
  intros Hf. revert i. induction ns as [|n ns IH]; intros [|i]; simpl; auto.
  - now rewrite Hf.
  - f_equal. apply IH.
Qed.

Lemma allocate_task_static task E s :
  map static_fields (nodes (allocate_task task E s).1.1) = map static_fields (nodes s).
Proof.
  destruct (allocate_task task E s) as [[s' E'] o] eqn:H. simpl.
  apply allocate_task_effect in H as (Hsucc & Hfail & _).
  assert (Hcase : o = Ret true \/ o <> Ret true)
    by (destruct o as [[]|]; [left; reflexivity|right; discriminate..]).
  destruct Hcase as [->|Hne]; [|now rewrite (Hfail Hne)].
  destruct (Hsucc eq_refl) as [(i & n & _ & _ & _ & ->) | [_ Hm]].
  - now apply map_static_alter.
  - destruct Hm as (i & j & nomad & recipient & m & _ & _ & _ & _ & _ & _ & _ & _ & ->).
    now rewrite !map_static_alter.
Qed.

Lemma simulate_failure_static E s :
  map static_fields (nodes (simulate_failure E s).1.1) = map static_fields (nodes s).
Proof.
  revert E s.
  enough (H : forall l E s, map static_fields (nodes s) = l ->
                            map static_fields (nodes (simulate_failure E s).1.1) = l)
    by (intros E s; now apply H).
  intros l. apply (simulate_failure_preserves (fun s => map static_fields (nodes s) = l)).
  - intros s i <-. now apply map_static_alter.
  - intros s task E <-. apply allocate_task_static.
  - intros s i <-. now apply map_static_alter.
  - auto.
Qed.

Lemma run_loop_static (todo : list Task) :
  forall E s,
    map static_fields (nodes (run_loop todo E s).1.1) = map static_fields (nodes s).
Proof.
  induction todo as [|task rest IH]; intros E s; simpl; [reflexivity|].
  pose proof (allocate_task_static task E s) as H1.
  destruct (allocate_task task E s) as [[s1 E1] [b|e]]; simpl in H1; [|exact H1].
  set (s2 := if b then _ else s1).
  assert (H2 : map static_fields (nodes s2) = map static_fields (nodes s))
    by (subst s2; destruct b; exact H1).
  destruct (random_random E1) as [r E2].
  destruct (Qlt_bool r 0.1); [|now rewrite IH].
  pose proof (simulate_failure_static E2 s2) as H3.
  destruct (simulate_failure E2 s2) as [[s3 E3] [[]|e]]; simpl in H3; [|simpl; congruence].
  rewrite IH. congruence.
Qed.

(** X2.  Identifier, processing elements, rated speed, capacity and energy
    coefficient of every node, and the size of the pool, are the same after an
    allocation attempt, a fault injection and a whole run as before. *)
Theorem static_fields_are_fixed (task : Task) (E : Entropy) (s : Sim) :
  map static_fields (nodes (allocate_task task E s).1.1) = map static_fields (nodes s)
  /\ map static_fields (nodes (simulate_failure E s).1.1) = map static_fields (nodes s)
  /\ map static_fields (nodes (run E s).1.1) = map static_fields (nodes s)
  /\ length (nodes (run E s).1.1) = length (nodes s).
Proof.
  split; [apply allocate_task_static|]. split; [apply simulate_failure_static|].
  assert (H : map static_fields (nodes (run E s).1.1) = map static_fields (nodes s)).
  { unfold run. pose proof (run_loop_static (tasks (set_completed_tasks 0 s)) E
                              (set_completed_tasks 0 s)) as H.
    destruct (run_loop _ E _) as [[s' E'] [[]|e]]; exact H. }
  split; [exact H|]. apply (f_equal length) in H. now rewrite !length_map in H.
Qed.

(** ** Loads stay within capacity *)

Lemma within_capacity_alter (f : Node -> Node) (i : nat) (ns : list Node) :
  within_capacity ns ->
  (forall n, ns !! i = Some n -> 0 <= current_load n <= cap n ->
             0 <= current_load (f n) <= cap (f n)) ->
  within_capacity (alter f i ns).
Proof.
  intros H Hf. apply Forall_alter; [exact H|]. intros x Hx [H1 H2].
  destruct (Hf x Hx (conj H1 H2)). auto.
Qed.

Lemma within_capacity_lookup ns i n :
  within_capacity ns -> ns !! i = Some n -> 0 <= current_load n /\ current_load n <= cap n.
Proof.
  intros H Hi. unfold within_capacity in H. rewrite Forall_lookup in H. eapply H; eauto.
Qed.

Lemma allocate_task_within_capacity task E s :
  0 <= mips_required task ->
  within_capacity (nodes s) ->
  within_capacity (nodes (allocate_task task E s).1.1).
Proof.
  intros Hpos Hs.
  destruct (allocate_task task E s) as [[s' E'] o] eqn:H. simpl.
  apply allocate_task_effect in H as (Hsucc & Hfail & _).
  assert (Hcase : o = Ret true \/ o <> Ret true)
    by (destruct o as [[]|]; [left; reflexivity|right; discriminate..]).
  destruct Hcase as [->|Hne]; [|now rewrite (Hfail Hne)].
  destruct (Hsucc eq_refl) as [(i & n & Hi & _ & Hfit & ->) | [_ Hm]].
  - apply within_capacity_alter; [exact Hs|].
    intros x Hx [H1 H2]. rewrite Hi in Hx. inversion Hx; subst.
    unfold add_load, cap in *. simpl. split; lra.
  - destruct Hm as (i & j & nomad & recipient & m & Hi & Hj & Hne & _ & Hm0 & _ & Hm3
                    & Hcap & ->).
    apply within_capacity_alter; [apply within_capacity_alter; [exact Hs|]|].
    + intros x Hx [H1 H2]. rewrite Hi in Hx. inversion Hx; subst.
      unfold sub_load, cap in *. simpl. split; lra.
    + intros x Hx [H1 H2].
      rewrite list_lookup_alter_ne in Hx by congruence.
      rewrite Hj in Hx. inversion Hx; subst.
      unfold add_load, cap in *. simpl. split; lra.
Qed.

(** ** The shape of a fault injection *)

(** [simulate_failure] either changes nothing, or passes its guards, marks a
    node [i] that was not failed and, when that node carries load, continues
    according to the allocation of the migration task. *)
Lemma simulate_failure_cases E s :
  ((simulate_failure E s).1.1 = s /\ (simulate_failure E s).2 = Ret tt)
  \/ exists i node E2,
       (min_nodes_for_operation s < length (not_failed_nodes (nodes s)))%nat
       /\ (Z.of_nat (current_failures (nodes s)) < max_failures s)%Z
       /\ nodes s !! i = Some node /\ failed node = false
       /\ ((~ 0 < current_load node
            /\ (simulate_failure E s).1.1 = mark_failed i s
            /\ (simulate_failure E s).2 = Ret tt)
           \/ (0 < current_load node
               /\ match (allocate_task (migration_task node) E2 (mark_failed i s)).2 with
                  | Ret true =>
                      (simulate_failure E s).1.1
                      = set_nodes
                          (alter (set_load 0) i
                             (nodes (allocate_task (migration_task node) E2
                                       (mark_failed i s)).1.1))
                          (allocate_task (migration_task node) E2 (mark_failed i s)).1.1
                      /\ (simulate_failure E s).2 = Ret tt
                  | Ret false =>
                      (simulate_failure E s).1.1
                      = set_completed_tasks
                          (completed_tasks
                             (allocate_task (migration_task node) E2 (mark_failed i s)).1.1
                           - py_int
                               (load_at
                                  (nodes (allocate_task (migration_task node) E2
                                            (mark_failed i s)).1.1) i / 1000))
                          (allocate_task (migration_task node) E2 (mark_failed i s)).1.1
                      /\ (simulate_failure E s).2 = Ret tt
                  | Raise e =>
                      (simulate_failure E s).1.1
                      = (allocate_task (migration_task node) E2 (mark_failed i s)).1.1
                      /\ (simulate_failure E s).2 = Raise e
                  end)).
Proof.
  unfold simulate_failure.
  destruct (_ <=? _)%nat eqn:Hmin; [left; auto|].
  destruct (_ <=? _)%Z eqn:Hcap; [left; auto|].
  apply Nat.leb_gt in Hmin. apply Z.leb_gt in Hcap.
  destruct (random_choice _ E) as [[[i node]|] E1] eqn:Hc; [|left; auto].
  apply random_choice_In in Hc. apply filter_In in Hc as [Hi Hnf].
  apply enumerate_In in Hi. simpl in Hnf. apply negb_true_iff in Hnf.
  destruct (random_random E1) as [r E2].
  destruct (Qlt_bool r _); [|left; auto].
  right. exists i, node, E2. repeat (split; [assumption|]).
  destruct (Qlt_bool 0 (current_load node)) eqn:Hload.
  - right. apply Qlt_bool_iff in Hload. split; [exact Hload|].
    unfold migration_task, mark_failed.
    destruct (allocate_task _ E2 _) as [[s2 E3] [[]|e]]; simpl; auto.
  - left. apply Qlt_bool_false in Hload. repeat split; auto.
    intros H. exact (Qlt_not_le _ _ H Hload).
Qed.

Lemma within_capacity_mark s i :
  within_capacity (nodes s) -> within_capacity (nodes (mark_failed i s)).
Proof. intros H. apply within_capacity_alter; auto. Qed.

Lemma simulate_failure_within_capacity E s :
  within_capacity (nodes s) -> within_capacity (nodes (simulate_failure E s).1.1).
Proof.
  intros Hs.
  destruct (simulate_failure_cases E s)
    as [[-> _] | (i & node & E2 & _ & _ & Hi & _ & [(_ & -> & _) | (Hload & Hm)])].
  - exact Hs.
  - now apply within_capacity_mark.
  - pose proof (allocate_task_within_capacity (migration_task node) E2 (mark_failed i s))
      as Ha.
    specialize (Ha ltac:(simpl; lra) (within_capacity_mark s i Hs)).
    destruct (allocate_task _ E2 _) as [[s2 E3] [[]|e]]; simpl in *;
      destruct Hm as [-> _]; simpl; auto.
    apply within_capacity_alter; [exact Ha|].
    intros n _ [H1 H2]. unfold cap in *. simpl. split; lra.
Qed.

Lemma run_loop_within_capacity (todo : list Task) :
  Forall (fun task => 0 <= mips_required task) todo ->
  forall E s, within_capacity (nodes s) ->
              within_capacity (nodes (run_loop todo E s).1.1).
Proof.
  induction 1 as [|task rest Hpos _ IH]; intros E s Hs; simpl; [exact Hs|].
  pose proof (allocate_task_within_capacity task E s Hpos Hs) as H1.
  destruct (allocate_task task E s) as [[s1 E1] [b|e]]; simpl in H1; [|exact H1].
  set (s2 := if b then _ else s1).
  assert (H2 : within_capacity (nodes s2)) by (subst s2; destruct b; exact H1).
  destruct (random_random E1) as [r E2].
  destruct (Qlt_bool r 0.1); [|now apply IH].
  pose proof (simulate_failure_within_capacity E2 s2 H2) as H3.
  destruct (simulate_failure E2 s2) as [[s3 E3] [[]|e]]; simpl in H3; [|exact H3].
  now apply IH.
Qed.

(** X3.  If every load of the pool lies between 0 and the capacity of its
    node and no task of the stream has a negative demand, the same holds
    after a whole run: no node is ever loaded beyond its capacity, by
    allocation, by the Lion nomad migration or by the migration of a failed
    node's load. *)
Theorem run_keeps_loads_within_capacity (E : Entropy) (s : Sim) :
  within_capacity (nodes s) ->
  Forall (fun task => 0 <= mips_required task) (tasks s) ->
  within_capacity (nodes (run E s).1.1).
Proof.
  intros Hs Ht. unfold run.
  pose proof (run_loop_within_capacity (tasks (set_completed_tasks 0 s)) Ht E
                (set_completed_tasks 0 s) Hs) as H.
  destruct (run_loop _ E _) as [[s' E'] [[]|e]]; exact H.
Qed.

(** ** The completed-task counter *)

Lemma py_int_nonneg (q : Q) : 0 <= q -> (0 <= py_int q)%Z.
Proof.
  intros H. unfold py_int. apply Z.quot_pos; [|reflexivity].
  unfold Qle in H. simpl in H. lia.
Qed.

Lemma simulate_failure_completed E s :
  (completed_tasks (simulate_failure E s).1.1 <= completed_tasks s)%Z.
Proof.
  destruct (simulate_failure_cases E s)
    as [[-> _] | (i & node & E2 & _ & _ & Hi & _ & [(_ & -> & _) | (Hload & Hm)])].
  - lia.
  - simpl. lia.
  - pose proof (allocate_task_params (migration_task node) E2 (mark_failed i s))
      as (_ & _ & Hc & _).
    destruct (allocate_task _ E2 _) as [[s2 E3] o] eqn:Ha. simpl in *.
    apply allocate_task_effect in Ha as (_ & Hsame & _).
    destruct o as [[]|e]; destruct Hm as [-> _]; simpl; try lia.
    rewrite Hsame by discriminate.
    rewrite (load_at_lookup _ _ _ (mark_failed_lookup s i node Hi)). simpl.
    assert (0 <= current_load node / 1000).
    { apply Qle_shift_div_l; [reflexivity|]. lra. }
    pose proof (py_int_nonneg _ H). lia.
Qed.

Lemma run_loop_completed (todo : list Task) :
  forall E s,
    (completed_tasks (run_loop todo E s).1.1
     <= completed_tasks s + Z.of_nat (length todo))%Z.
Proof.
  induction todo as [|task rest IH]; intros E s; [simpl; lia|].
  cbn [run_loop length].
  pose proof (allocate_task_params task E s) as (_ & _ & Hc & _).
  destruct (allocate_task task E s) as [[s1 E1] [b|e]]; simpl in Hc; [|simpl; lia].
  set (s2 := if b then _ else s1).
  assert (H2 : (completed_tasks s2 <= completed_tasks s + 1)%Z)
    by (subst s2; destruct b; simpl; lia).
  destruct (random_random E1) as [r E2].
  destruct (Qlt_bool r 0.1).
  - pose proof (simulate_failure_completed E2 s2) as H3.
    destruct (simulate_failure E2 s2) as [[s3 E3] [[]|e]]; simpl in H3; [|simpl; lia].
    specialize (IH E3 s3). lia.
  - specialize (IH E2 s2). lia.
Qed.

(** X4.  After a run the completed-task counter is at most the number of
    tasks of the stream: every task adds at most one, and a failed migration
    only ever subtracts. *)
Theorem run_completes_at_most_every_task (E : Entropy) (s : Sim) :
  (completed_tasks (run E s).1.1 <= Z.of_nat (length (tasks s)))%Z.
Proof.
  unfold run.
  pose proof (run_loop_completed (tasks (set_completed_tasks 0 s)) E
                (set_completed_tasks 0 s)) as H.
  destruct (run_loop _ E _) as [[s' E'] [[]|e]]; exact H.
Qed.

(** ** When an allocation attempt succeeds *)

Lemma py_min_Some {A K : Type} (ltb : K -> K -> bool) (key : A -> K) (l : list A) :
  l <> [] -> exists x, py_min ltb key l = Some x.
Proof. destruct l; [congruence|]. simpl. eauto. Qed.

Lemma random_choice_Some {A : Type} (l : list A) (E : Entropy) :
  l <> [] -> exists x E', random_choice l E = (Some x, E').
Proof.
  intros Hl. unfold random_choice.
  assert (Hlen : (0 < length l)%nat) by (destruct l; [congruence|simpl; lia]).
  destruct (picks E) as [|p tl].
  - destruct (lookup_lt_is_Some_2 l 0%nat Hlen) as [x Hx]. rewrite Hx. eauto.
  - destruct (lookup_lt_is_Some_2 l (p mod length l)%nat) as [x Hx].
    + apply Nat.mod_upper_bound. lia.
    + rewrite Hx. eauto.
Qed.

Lemma some_active_nonempty (ns : list Node) : some_active ns -> active_nodes ns <> [].
Proof.
  intros (i & n & Hi & Ha) Hnil.
  assert (Hin : In (i, n) (active_nodes ns)) by now apply active_nodes_In.
  rewrite Hnil in Hin. destruct Hin.
Qed.

(** [min] by two keys that order the elements of the list alike. *)
Lemma fold_min_ext {A K K' : Type} (ltb : K -> K -> bool) (ltb' : K' -> K' -> bool)
    (key : A -> K) (key' : A -> K') (l : list A) :
  forall x,
    (forall a b, In a (x :: l) -> In b (x :: l) ->
                 ltb (key a) (key b) = ltb' (key' a) (key' b)) ->
    fold_left (fun best y => if ltb (key y) (key best) then y else best) l x
    = fold_left (fun best y => if ltb' (key' y) (key' best) then y else best) l x.
Proof.
  induction l as [|y l IH]; intros x H; simpl; [reflexivity|].
  rewrite (H y x) by (simpl; auto).
  destruct (ltb' (key' y) (key' x)); apply IH; intros a b Ha Hb; apply H;
    simpl in *; tauto.
Qed.

Lemma fitness_active (n : Node) :
  is_active n = true -> Lion._calculate_fitness n = Finite (utilization n * 100).
Proof.
  intros H. apply is_active_iff in H as [Hf Hc]. unfold Lion._calculate_fitness.
  rewrite Hf. simpl. destruct (capacity n <=? 0)%Z eqn:Hle; [|reflexivity].
  apply Z.leb_le in Hle. lia.
Qed.

Lemma py_min_fitness_least (l : list (nat * Node)) (x : nat * Node) :
  (forall p, In p l -> is_active p.2 = true) ->
  py_min fit_ltb (fun p => Lion._calculate_fitness p.2) l = Some x ->
  forall y, In y l -> utilization x.2 <= utilization y.2.
Proof.
  intros Hact Hm y Hy.
  assert (Hm' : py_min Qlt_bool (fun p : nat * Node => utilization p.2 * 100) l = Some x).
  { destruct l as [|z l]; [discriminate|]. simpl in *. rewrite <- Hm. f_equal.
    symmetry. apply fold_min_ext. intros a b Ha Hb.
    rewrite !fitness_active by (apply Hact; simpl; tauto). reflexivity. }
  pose proof (py_min_least _ _ _ Hm' y Hy) as Hle. simpl in Hle. lra.
Qed.

Lemma active_nodes_active ns p : In p (active_nodes ns) -> is_active p.2 = true.
Proof. destruct p as [i n]. intros H. now apply active_nodes_In in H. Qed.

(** The first minimum of the active nodes is a least utilized node. *)
Lemma py_min_least_utilized ns i n :
  py_min Qlt_bool (fun p : nat * Node => utilization p.2) (active_nodes ns) = Some (i, n) ->
  least_utilized ns i.
Proof.
  intros Hm. pose proof (py_min_least _ _ _ Hm) as Hleast.
  apply py_min_In in Hm. apply active_nodes_In in Hm as [Hi Ha].
  exists n. repeat split; auto.
  intros j m Hj Hmact. apply (Hleast (j, m)). now apply active_nodes_In.
Qed.

Lemma py_min_fitness_least_utilized ns i n :
  py_min fit_ltb (fun p : nat * Node => Lion._calculate_fitness p.2) (active_nodes ns)
  = Some (i, n) ->
  least_utilized ns i.
Proof.
  intros Hm.
  pose proof (py_min_fitness_least _ _ (active_nodes_active ns) Hm) as Hleast.
  apply py_min_In in Hm. apply active_nodes_In in Hm as [Hi Ha].
  exists n. repeat split; auto.
  intros j m Hj Hmact. apply (Hleast (j, m)). now apply active_nodes_In.
Qed.


Lemma room_on_active_least task ns :
  room_on_every_active task ns -> room_on_least_utilized task ns.
Proof.
  intros H i n (n' & Hn' & Ha & _) Hn. rewrite Hn in Hn'. inversion Hn'; subst.
  eapply H; eauto.
Qed.

Lemma bat_succeeds task pulse_rate ns E :
  some_active ns -> room_on_least_utilized task ns ->
  (Bat.allocate_task task pulse_rate ns E).2 = true.
Proof.
  intros Hsome Hroom. unfold Bat.allocate_task.
  destruct (py_min_Some Qlt_bool (fun p : nat * Node => utilization p.2)
              (active_nodes ns) (some_active_nonempty ns Hsome)) as [[b best] Hm].
  rewrite Hm. pose proof (py_min_least_utilized _ _ _ Hm) as Hleast.
  apply py_min_In in Hm. apply active_nodes_In in Hm as [Hb _].
  assert (Hfit : fits task best = true) by (apply fits_iff; eapply Hroom; eauto).
  rewrite Hfit. destruct (random_random E) as [r E1].
  destruct (Qlt_bool pulse_rate r); [|reflexivity].
  destruct (random_choice _ E1) as [[[c candidate]|] E2]; [|reflexivity].
  now destruct (fits task candidate).
Qed.

Lemma lion_succeeds task n ps ts nomads thr ns E :
  some_active ns -> room_on_least_utilized task ns ->
  (Lion.allocate_task task n ps ts nomads thr ns E).2 = true.
Proof.
  intros Hsome Hroom. unfold Lion.allocate_task, Lion._hunting_phase.
  destruct (Lion.hunting_loop _ _ _ _ _ _) as [[[ns1 ts1] E1] hunted] eqn:Hh.
  apply hunting_loop_effect in Hh as [_ Hh].
  destruct hunted; [reflexivity|]. destruct Hh as [-> ->]; [reflexivity|].
  destruct (Lion._nomad_phase _ _ _ _ _) as [[ns2 nomads2] moved] eqn:Hn.
  apply nomad_phase_effect in Hn as [_ Hn].
  destruct moved; [reflexivity|]. rewrite (Hn eq_refl).
  destruct (py_min_Some fit_ltb (fun p : nat * Node => Lion._calculate_fitness p.2)
              (active_nodes ns) (some_active_nonempty ns Hsome)) as [[i best] Hm].
  rewrite Hm. pose proof (py_min_fitness_least_utilized _ _ _ Hm) as Hleast.
  apply py_min_In in Hm. apply active_nodes_In in Hm as [Hi _].
  assert (Hfit : fits task best = true) by (apply fits_iff; eapply Hroom; eauto).
  now rewrite Hfit.
Qed.

Lemma monarch_succeeds task bar ns E :
  some_active ns -> room_on_every_active task ns ->
  (Monarch.allocate_task task bar ns E).2 = true.
Proof.
  intros Hsome Hroom. unfold Monarch.allocate_task.
  pose proof (some_active_nonempty ns Hsome) as Hne.
  destruct (active_nodes ns) as [|a active] eqn:Hact; [congruence|].
  rewrite <- Hact in *. clear Hact a active.
  destruct (random_random E) as [r E1].
  destruct (Qlt_bool r _).
  - destruct (py_min_Some Qlt_bool (fun p : nat * Node => utilization p.2)
                (active_nodes ns) Hne) as [[d dst] Hm].
    rewrite Hm. apply py_min_In in Hm. apply active_nodes_In in Hm as [Hd Ha].
    assert (Hfit : fits task dst = true) by (apply fits_iff; eapply Hroom; eauto).
    now rewrite Hfit.
  - destruct (random_choice_Some (active_nodes ns) E1 Hne) as ([c node] & E2 & Hc).
    rewrite Hc. apply random_choice_In in Hc. apply active_nodes_In in Hc as [Hd Ha].
    assert (Hfit : fits task node = true) by (apply fits_iff; eapply Hroom; eauto).
    now rewrite Hfit.
Qed.

(** ** The Crow strategy picks a least utilized node *)

(** From an unseeded or aligned memory and a pool with an active node, the
    Crow [allocate_task] decides on the first minimum of a memory that holds,
    for every active node and for no other, its position and live load. *)
Lemma crow_allocate_unfold task (memory : list (option (nat * Q))) ns :
  length memory = length ns ->
  ((forall slot, In slot memory -> slot = None)
   /\ (forall n, In n ns -> is_active n = true))
  \/ (forall i slot, memory !! i = Some slot -> exists x, slot = Some (i, x)) ->
  some_active ns ->
  exists memory2,
    (forall j load n, In (j, load, n) (Crow.valid_memories ns memory2) <->
                      ns !! j = Some n /\ is_active n = true /\ load = current_load n)
    /\ Crow.allocate_task task memory ns =
         match py_min Qlt_bool (fun m : nat * Q * Node => m.1.2 / cap m.2)
                      (Crow.valid_memories ns memory2) with
         | None => (ns, memory2, Ret false)
         | Some (j, _, best) =>
             if fits task best
             then (alter (add_load (mips_required task)) j ns, memory2, Ret true)
             else (ns, memory2, Ret false)
         end.
Proof.
  intros Hlen Hinv Hsome. unfold Crow.allocate_task.
  pose proof (some_active_nonempty ns Hsome) as Hne.
  destruct (active_nodes ns) as [|a active] eqn:Hact; [congruence|].
  rewrite <- Hact. clear Hne.
  set (memory1 := if negb (existsb Crow.truthy memory) then _ else memory).
  assert (H1 : length memory1 = length ns
               /\ forall i slot, memory1 !! i = Some slot -> exists x, slot = Some (i, x)).
  { subst memory1. destruct Hinv as [[Hnone Hall] | Hal].
    - rewrite existsb_truthy_false by exact Hnone. simpl.
      rewrite active_nodes_all by exact Hall. unfold enumerate. split.
      + now rewrite length_map, enumerate_from_length.
      + intros i slot H. now apply seed_aligned in H.
    - rewrite existsb_truthy_true; auto.
      intros ->. destruct ns; [|discriminate]. discriminate. }
  destruct H1 as [Hlen1 Hal1].
  destruct (refresh_loop_aligned (active_nodes ns) (length ns) ns 0 memory1 Hlen1 Hal1)
    as (memory2 & Hr & Hlen2 & Hal2 & _ & Hup); [reflexivity|].
  unfold enumerate. rewrite Hr. exists memory2. split; [|reflexivity].
  assert (Hslot : forall i n, ns !! i = Some n -> is_active n = true ->
                              memory2 !! i = Some (Some (i, current_load n))).
  { intros i n Hi Ha. specialize (Hup i n Hi).
    rewrite (existsb_node_eqb _ i n) in Hup by now apply active_nodes_In.
    exact (Hup eq_refl). }
  intros j load n. unfold Crow.valid_memories.
  rewrite <- list_elem_of_In, list_elem_of_omap. split.
  - intros (slot & Hin & Hv). destruct slot as [[j0 l0]|]; [|discriminate].
    destruct (ns !! j0) as [n0|] eqn:Hn0; [|discriminate].
    destruct (is_active n0) eqn:Ha0; inversion Hv; subst.
    apply list_elem_of_lookup_1 in Hin as [i Hi].
    destruct (Hal2 _ _ Hi) as [x Hx]. inversion Hx; subst.
    rewrite (Hslot _ _ Hn0 Ha0) in Hi. inversion Hi. auto.
  - intros (Hj & Ha & ->). exists (Some (j, current_load n)). split.
    + eapply list_elem_of_lookup_2. now apply Hslot.
    + now rewrite Hj, Ha.
Qed.

Lemma crow_inv_cases s memory fl :
  algo s = CrowSearchAlgorithm memory fl ->
  crow_unseeded s \/ crow_aligned s ->
  length memory = length (nodes s)
  /\ (((forall slot, In slot memory -> slot = None)
       /\ (forall n, In n (nodes s) -> is_active n = true))
      \/ (forall i slot, memory !! i = Some slot -> exists x, slot = Some (i, x))).
Proof.
  intros Ha Hinv. unfold crow_unseeded, crow_aligned, crow_memory in Hinv.
  rewrite Ha in Hinv.
  destruct Hinv as [(_ & H2 & _ & H3 & H4) | (_ & H2 & _ & H3)]; auto.
Qed.

(** X7.  In the states a run calls it in, a successful Crow [allocate_task]
    places the task on a node that was least utilized among the active nodes
    at the time of the call: the refreshed memory holds the live load of
    every active node. *)
Theorem crow_places_on_least_utilized (task : Task) (E E' : Entropy) (s s' : Sim) :
  crow_call_state s ->
  allocate_task task E s = (s', E', Ret true) ->
  exists i,
    least_utilized (nodes s) i
    /\ nodes s' = alter (add_load (mips_required task)) i (nodes s).
Proof.
  intros Hcall Halloc.
  pose proof (crow_call_state_inv s Hcall) as Hinv.
  assert (Ha : exists memory fl, algo s = CrowSearchAlgorithm memory fl)
    by (destruct Hinv as [(_ & _ & H & _) | (_ & _ & H & _)]; exact H).
  destruct Ha as (memory & fl & Ha).
  destruct (crow_inv_cases s memory fl Ha Hinv) as [Hlen Hcases].
  assert (Hsome : some_active (nodes s)).
  { apply allocate_task_effect in Halloc as (Hsucc & _).
    destruct (Hsucc eq_refl) as [(i & n & Hi & Hact & _) | [Hl _]].
    - exists i, n. auto.
    - unfold is_lion in Hl. rewrite Ha in Hl. destruct Hl. }
  destruct (crow_allocate_unfold task memory (nodes s) Hlen Hcases Hsome)
    as (memory2 & Hvalid & Hun).
  unfold allocate_task in Halloc. rewrite Ha, Hun in Halloc.
  destruct (py_min _ _ _) as [[[j load] best]|] eqn:Hm; [|discriminate].
  destruct (fits task best); [|discriminate].
  inversion Halloc; subst. simpl. exists j. split; [|reflexivity].
  pose proof (py_min_least _ _ _ Hm) as Hleast.
  apply py_min_In in Hm. apply Hvalid in Hm as (Hj & Hact & ->).
  exists best. repeat split; auto.
  intros k m Hk Hmact.
  specialize (Hleast (k, current_load m, m)). simpl in Hleast. apply Hleast.
  apply Hvalid. auto.
Qed.

Lemma crow_succeeds task E s :
  crow_call_state s -> some_active (nodes s) -> room_on_least_utilized task (nodes s) ->
  (allocate_task task E s).2 = Ret true.
Proof.
  intros Hcall Hsome Hroom.
  pose proof (crow_call_state_inv s Hcall) as Hinv.
  assert (Ha : exists memory fl, algo s = CrowSearchAlgorithm memory fl)
    by (destruct Hinv as [(_ & _ & H & _) | (_ & _ & H & _)]; exact H).
  destruct Ha as (memory & fl & Ha).
  destruct (crow_inv_cases s memory fl Ha Hinv) as [Hlen Hcases].
  destruct (crow_allocate_unfold task memory (nodes s) Hlen Hcases Hsome)
    as (memory2 & Hvalid & Hun).
  unfold allocate_task. rewrite Ha, Hun.
  destruct Hsome as (i0 & n0 & Hi0 & Ha0).
  destruct (py_min_Some Qlt_bool (fun m : nat * Q * Node => m.1.2 / cap m.2)
              (Crow.valid_memories (nodes s) memory2)) as [[[j load] best] Hm].
  { intros Hnil. assert (Hin : In (i0, current_load n0, n0)
                                  (Crow.valid_memories (nodes s) memory2))
      by (apply Hvalid; auto).
    rewrite Hnil in Hin. destruct Hin. }
  rewrite Hm. pose proof (py_min_least _ _ _ Hm) as Hleast.
  apply py_min_In in Hm. apply Hvalid in Hm as (Hj & Hact & ->).
  assert (Hfit : fits task best = true).
  { apply fits_iff. apply (Hroom j best); [|exact Hj].
    exists best. repeat split; auto.
    intros k m Hk Hmact.
    specialize (Hleast (k, current_load m, m)). simpl in Hleast. apply Hleast.
    apply Hvalid. auto. }
  now rewrite Hfit.
Qed.

(** X6.  For Lion, Bat and Crow Search (Crow in the states a run calls it
    in): if some node is active and the task has room on every least utilized
    active node, [allocate_task] returns true, whatever the random draws. *)
Theorem allocation_succeeds_when_least_utilized_fits (task : Task) (E : Entropy) (s : Sim) :
  (forall bar, algo s <> MonarchButterflyOptimization bar) ->
  call_state s ->
  some_active (nodes s) ->
  room_on_least_utilized task (nodes s) ->
  (allocate_task task E s).2 = Ret true.
Proof.
  intros Hkind Hcall Hsome Hroom. unfold call_state in Hcall.
  destruct (algo s) as [ps ts nomads thr|ld pr|memory fl|bar] eqn:Ha.
  - pose proof (lion_succeeds task (num_nodes s) ps ts nomads thr (nodes s) E Hsome Hroom)
      as H.
    unfold allocate_task. rewrite Ha.
    destruct (Lion.allocate_task _ _ _ _ _ _ _ _) as [[[ns' a'] E'] b].
    simpl in *. now subst.
  - pose proof (bat_succeeds task pr (nodes s) E Hsome Hroom) as H.
    unfold allocate_task. rewrite Ha.
    destruct (Bat.allocate_task _ _ _ _) as [[ns' E'] b]. simpl in *. now subst.
  - now apply crow_succeeds.
  - exfalso. eapply Hkind. reflexivity.
Qed.

(** X5.  For every variant (Crow in the states a run calls it in): if some
    node is active and the task has room on every active node,
    [allocate_task] returns true, whatever the random draws. *)
Theorem allocation_succeeds_when_all_fit (task : Task) (E : Entropy) (s : Sim) :
  call_state s ->
  some_active (nodes s) ->
  room_on_every_active task (nodes s) ->
  (allocate_task task E s).2 = Ret true.
Proof.
  intros Hcall Hsome Hroom.
  pose proof (room_on_active_least _ _ Hroom) as Hleast. unfold call_state in Hcall.
  destruct (algo s) as [ps ts nomads thr|ld pr|memory fl|bar] eqn:Ha.
  - pose proof (lion_succeeds task (num_nodes s) ps ts nomads thr (nodes s) E Hsome Hleast)
      as H.
    unfold allocate_task. rewrite Ha.
    destruct (Lion.allocate_task _ _ _ _ _ _ _ _) as [[[ns' a'] E'] b].
    simpl in *. now subst.
  - pose proof (bat_succeeds task pr (nodes s) E Hsome Hleast) as H.
    unfold allocate_task. rewrite Ha.
    destruct (Bat.allocate_task _ _ _ _) as [[ns' E'] b]. simpl in *. now subst.
  - now apply crow_succeeds.
  - pose proof (monarch_succeeds task bar (nodes s) E Hsome Hroom) as H.
    unfold allocate_task. rewrite Ha.
    destruct (Monarch.allocate_task _ _ _ _) as [[ns' E'] b]. simpl in *. now subst.
Qed.

(** X8.  When the draw of the Monarch [allocate_task] is below
    [bar / (bar + 1)], the migration operator is used and a successful
    placement lands on a node that was least utilized among the active nodes
    at the time of the call. *)
Theorem monarch_migration_targets_least_utilized (task : Task) (E E' : Entropy)
    (s s' : Sim) (bar : Q) :
  algo s = MonarchButterflyOptimization bar ->
  (random_random E).1 < bar / (bar + 1) ->
  allocate_task task E s = (s', E', Ret true) ->
  exists i,
    least_utilized (nodes s) i
    /\ nodes s' = alter (add_load (mips_required task)) i (nodes s).
Proof.
  intros Ha Hr. unfold allocate_task. rewrite Ha. unfold Monarch.allocate_task.
  destruct (active_nodes (nodes s)) as [|a active] eqn:Hact; [discriminate|].
  rewrite <- Hact. clear Hact a active.
  destruct (random_random E) as [r E1]. simpl in Hr.
  apply Qlt_bool_iff in Hr. rewrite Hr.
  destruct (py_min _ _ _) as [[d dst]|] eqn:Hm; [|discriminate].
  destruct (fits task dst); [|discriminate].
  intros H. inversion H; subst. simpl. exists d. split; [|reflexivity].
  now apply py_min_least_utilized in Hm.
Qed.

(** ** The structure the Lion strategy keeps *)

Lemma deref_In_ref (ns : list Node) (refs : list nat) (i : nat) (n : Node) :
  In (i, n) (deref ns refs) -> In i refs.
Proof.
  unfold deref. rewrite <- !list_elem_of_In, list_elem_of_omap.
  intros (j & Hj & H). destruct (ns !! j); inversion H; subst. exact Hj.
Qed.

(** The hunting phase leaves the territories alone or improves the record of
    one of them with a node of that territory. *)
Lemma hunting_loop_territories (task : Task) (todo : list Territory) :
  forall k ns ts E ns' ts' E' b,
    drop k ts = todo ->
    Lion.hunting_loop task todo k ns ts E = (ns', ts', E', b) ->
    ts' = ts
    \/ exists k' t f i,
         ts !! k' = Some t /\ fit_ltb f (best_fitness t) = true
         /\ In i (territory_nodes t)
         /\ ts' = <[k' := mkTerritory (territory_nodes t) f (Some i)]> ts.
Proof.
  induction todo as [|territory rest IH]; intros k ns ts E ns' ts' E' b Hdrop; simpl.
  - intros H. inversion H; subst. now left.
  - assert (Hk : ts !! k = Some territory).
    { rewrite <- (Nat.add_0_r k), <- lookup_drop, Hdrop. reflexivity. }
    assert (Hrest : drop (S k) ts = rest).
    { replace (S k) with (k + 1)%nat by lia. now rewrite <- drop_drop, Hdrop. }
    destruct (_ <? 2)%nat; [now apply IH|].
    destruct (random_random E) as [r E1].
    destruct (Qlt_bool r 0.7); [|now apply IH].
    destruct (random_sample _ _ E1) as [hunters E2] eqn:Hs.
    destruct (py_min _ _ hunters) as [[i best]|] eqn:Hm; [|now apply IH].
    destruct (fits task best); [|now apply IH].
    intros H. inversion H; subst. clear H.
    destruct (fit_ltb _ (best_fitness territory)) eqn:Hlt; [|now left].
    right. exists k, territory. eexists _, i. repeat split; eauto.
    apply py_min_In in Hm. eapply random_sample_In in Hm; [|exact Hs].
    apply filter_In in Hm as [Hd _]. eapply deref_In_ref; eauto.
Qed.

Lemma insert_desc_In {A K : Type} (ltb : K -> K -> bool) (key : A -> K) (x y : A)
    (l : list A) :
  In y (insert_desc ltb key x l) -> y = x \/ In y l.
Proof.
  induction l as [|z l IH]; simpl.
  - intros [<- | []]. now left.
  - destruct (ltb (key x) (key z)); simpl.
    + intros [<- | H]; [now right; left|]. destruct (IH H); auto.
    + intros [<- | H]; auto.
Qed.

Lemma sorted_reverse_In {A K : Type} (ltb : K -> K -> bool) (key : A -> K) (y : A)
    (l : list A) :
  In y (sorted_reverse ltb key l) -> In y l.
Proof.
  unfold sorted_reverse. induction l as [|x l IH]; simpl; [tauto|].
  intros H. apply insert_desc_In in H as [-> | H]; auto.
Qed.

(** The nomad phase keeps a nomad set that is already built; a set it builds
    has at most [max(2, num_nodes // 10)] members, all of them active. *)
Lemma nomad_phase_nomads task n thr ns nomads ns' nomads' b :
  Lion._nomad_phase task n thr ns nomads = (ns', nomads', b) ->
  (nomads <> [] -> nomads' = nomads)
  /\ (nomads = [] ->
      (length nomads' <= Nat.max 2 (n / 10))%nat
      /\ forall j, In j nomads' -> exists x, ns !! j = Some x /\ is_active x = true).
Proof.
  unfold Lion._nomad_phase. destruct nomads as [|x nomads].
  - destruct (active_nodes ns) as [|a active] eqn:Ha.
    + intros H. inversion H; subst. split; [congruence|]. intros _.
      split; [simpl; lia|]. intros j [].
    + rewrite <- Ha. destruct (Lion.nomad_loop _ _ _ _) as [ns1 b1].
      intros H. inversion H; subst. split; [congruence|]. intros _. split.
      * rewrite length_map. apply firstn_le_length.
      * intros j Hj. apply in_map_iff in Hj as ([j' x] & <- & Hj). simpl.
        apply list_elem_of_In, elem_of_take in Hj as (k & Hk & _).
        apply list_elem_of_lookup_2, list_elem_of_In, sorted_reverse_In in Hk.
        apply active_nodes_In in Hk. eauto.
  - destruct (Lion.nomad_loop _ _ _ _) as [ns1 b1].
    intros H. inversion H; subst. split; [auto|discriminate].
Qed.

(** X9.  An [allocate_task] of the Lion strategy never changes the pride
    size or the migration threshold; a nomad set that has been built is never
    rebuilt or refreshed; and when the call builds it, the set has at most
    [max(2, num_nodes // 10)] members, all active at the time of the call. *)
Theorem lion_nomads_are_built_once (task : Task) (E : Entropy) (s : Sim)
    (ps : nat) (ts : list Territory) (nomads : list nat) (thr : Q) :
  algo s = LionOptimizationLB ps ts nomads thr ->
  exists ts' nomads',
    algo (allocate_task task E s).1.1 = LionOptimizationLB ps ts' nomads' thr
    /\ (nomads <> [] -> nomads' = nomads)
    /\ (nomads = [] ->
        (length nomads' <= Nat.max 2 (num_nodes s / 10))%nat
        /\ forall j, In j nomads' ->
                     exists x, nodes s !! j = Some x /\ is_active x = true).
Proof.
  intros Ha. unfold allocate_task. rewrite Ha.
  unfold Lion.allocate_task, Lion._hunting_phase.
  destruct (Lion.hunting_loop _ _ _ _ _ _) as [[[ns1 ts1] E1] hunted] eqn:Hh.
  apply hunting_loop_effect in Hh as [_ Hh].
  destruct hunted.
  { simpl. exists ts1, nomads. split; [reflexivity|]. split; [auto|].
    intros ->. split; [simpl; lia|]. intros j []. }
  destruct Hh as [-> ->]; [reflexivity|].
  destruct (Lion._nomad_phase _ _ _ _ _) as [[ns2 nomads2] moved] eqn:Hn.
  apply nomad_phase_nomads in Hn.
  destruct moved; [simpl; eauto|].
  destruct (py_min _ _ _) as [[i best]|]; [destruct (fits task best)|]; simpl; eauto.
Qed.

(** X10.  An [allocate_task] of the Lion strategy keeps every territory and
    its nodes; the record of a territory either stays as it is or gets a
    strictly lower best fitness together with a best node that belongs to the
    territory. *)
Theorem lion_territory_records_only_improve (task : Task) (E : Entropy) (s : Sim)
    (k : nat) (t : Territory) :
  territories_of s !! k = Some t ->
  exists t',
    territories_of (allocate_task task E s).1.1 !! k = Some t'
    /\ territory_nodes t' = territory_nodes t
    /\ (t' = t
        \/ (fit_ltb (best_fitness t') (best_fitness t) = true
            /\ exists i, best_node t' = Some i /\ In i (territory_nodes t))).
Proof.
  unfold territories_of, allocate_task.
  destruct (algo s) as [ps ts nomads thr|ld pr|memory fl|bar] eqn:Ha;
    try (intros H; discriminate).
  intros Hk. unfold Lion.allocate_task, Lion._hunting_phase.
  destruct (Lion.hunting_loop _ _ _ _ _ _) as [[[ns1 ts1] E1] hunted] eqn:Hh.
  pose proof (hunting_loop_territories task ts 0 (nodes s) ts E ns1 ts1 E1 hunted
                eq_refl Hh) as Hts.
  assert (Hgoal : exists t',
             ts1 !! k = Some t' /\ territory_nodes t' = territory_nodes t
             /\ (t' = t
                 \/ (fit_ltb (best_fitness t') (best_fitness t) = true
                     /\ exists i, best_node t' = Some i /\ In i (territory_nodes t)))).
  { destruct Hts as [-> | (k' & t0 & f & i & Hk' & Hlt & Hi & ->)]; [eauto|].
    destruct (decide (k' = k)) as [->|Hne].
    - rewrite Hk in Hk'. inversion Hk'; subst.
      rewrite list_lookup_insert_eq by (eapply lookup_lt_Some; eauto).
      eexists. split; [reflexivity|]. split; [reflexivity|]. right. simpl. eauto.
    - rewrite list_lookup_insert_ne by exact Hne. eauto. }
  destruct hunted; [exact Hgoal|].
  destruct (Lion._nomad_phase _ _ _ _ _) as [[ns2 nomads2] moved].
  destruct moved; [exact Hgoal|].
  destruct (py_min _ _ _) as [[i best]|]; [destruct (fits task best)|]; exact Hgoal.
Qed.

(** ** A migration that fails *)

(** X11.  When [simulate_failure] marks a loaded node failed and the
    allocation of the migration task fails, the call returns normally, the
    pool differs from the one before only by the failed flag of that node
    (its load stays where it is), and the completed-task counter drops by
    [int(load / 1000)], a non-negative amount. *)
Theorem failed_migration_is_lost_work (E : Entropy) (s : Sim) (i : nat) :
  migration_fails E s i ->
  (simulate_failure E s).2 = Ret tt
  /\ nodes (simulate_failure E s).1.1 = alter (set_failed true) i (nodes s)
  /\ exists node,
       nodes s !! i = Some node /\ 0 < current_load node
       /\ (0 <= py_int (current_load node / 1000))%Z
       /\ completed_tasks (simulate_failure E s).1.1
          = (completed_tasks s - py_int (current_load node / 1000))%Z.
Proof.
  intros (node & E1 & r & E2 & s2 & E3 & Hmin & Hcap & Hc & Hr & Hp & Hload & Ha).
  pose proof (allocate_task_params (migration_task node) E2 (mark_failed i s))
    as (_ & _ & Hcount & _).
  rewrite Ha in Hcount. simpl in Hcount.
  apply random_choice_In in Hc as Hin. apply filter_In in Hin as [Hin _].
  apply enumerate_In in Hin.
  pose proof Ha as Heff. apply allocate_task_effect in Heff as (_ & Hsame & _).
  specialize (Hsame ltac:(discriminate)).
  unfold simulate_failure.
  apply Nat.leb_gt in Hmin. apply Z.leb_gt in Hcap. rewrite Hmin, Hcap, Hc, Hr.
  pose proof Hload as Hpos. apply Qlt_bool_iff in Hp, Hload. rewrite Hp, Hload.
  unfold migration_task, mark_failed in Ha. rewrite Ha. simpl.
  split; [reflexivity|]. split; [exact Hsame|].
  exists node. repeat split; auto.
  - apply py_int_nonneg. apply Qle_shift_div_l; [reflexivity|]. lra.
  - rewrite Hsame, Hcount.
    rewrite (load_at_lookup _ _ _ (mark_failed_lookup s i node Hin)). reflexivity.
Qed.

(** ** How many nodes stay active *)

Lemma not_failed_from_length (l : list Node) (k : nat) :
  (length (List.filter (fun p : nat * Node => negb (failed p.2)) (enumerate_from k l))
   + length (List.filter failed l) = length l)%nat.
Proof.
  revert k. induction l as [|n l IH]; intros k; simpl; [reflexivity|].
  specialize (IH (S k)). destruct (failed n); simpl; lia.
Qed.

Lemma not_failed_count (ns : list Node) :
  (length (not_failed_nodes ns) + current_failures ns = length ns)%nat.
Proof. apply not_failed_from_length. Qed.

Lemma metrics_active_nodes (s : Sim) :
  Metrics.active_nodes (calculate_metrics s) = length (not_failed_nodes (nodes s)).
Proof.
  unfold calculate_metrics, not_failed_nodes, enumerate. simpl.
  generalize 0%nat. induction (nodes s) as [|n l IH]; intros k; simpl; [reflexivity|].
  destruct (failed n); simpl; auto.
Qed.

Lemma not_failed_flags (ns ns' : list Node) :
  map failed ns = map failed ns' ->
  length (not_failed_nodes ns) = length (not_failed_nodes ns').
Proof.
  intros H. pose proof (not_failed_count ns). pose proof (not_failed_count ns').
  pose proof (current_failures_flags _ _ H).
  apply (f_equal length) in H. rewrite !length_map in H. lia.
Qed.

(** The flags after a fault injection are those before, or those before with
    the flag of one node set, and then more than [min_nodes_for_operation]
    nodes were not failed. *)
Lemma simulate_failure_marks E s :
  map failed (nodes (simulate_failure E s).1.1) = map failed (nodes s)
  \/ ((min_nodes_for_operation s < length (not_failed_nodes (nodes s)))%nat
      /\ exists i,
           map failed (nodes (simulate_failure E s).1.1)
           = map failed (alter (set_failed true) i (nodes s))).
Proof.
  destruct (simulate_failure_cases E s)
    as [[-> _] | (i & node & E2 & Hmin & _ & Hi & _ & [(_ & -> & _) | (Hload & Hm)])].
  - now left.
  - right. split; [exact Hmin|]. exists i. reflexivity.
  - right. split; [exact Hmin|]. exists i.
    pose proof (allocate_task_flags (migration_task node) E2 (mark_failed i s)) as Hfl.
    destruct (allocate_task _ E2 _) as [[s2 E3] [[]|e]]; simpl in *;
      destruct Hm as [-> _]; simpl; auto.
    now rewrite map_failed_alter.
Qed.

Lemma reachable_survivors s :
  reachable s ->
  min_nodes_for_operation s = 3%nat
  /\ length (nodes s) = num_nodes s
  /\ (Nat.min 3 (num_nodes s) <= length (not_failed_nodes (nodes s)))%nat.
Proof.
  induction 1 as [s Hc|s task E _ (IH1 & IH2 & IH3)|s c _ IH|s E _ (IH1 & IH2 & IH3)].
  - apply constructed_fresh in Hc as (H1 & H2 & H3).
    pose proof (not_failed_count (nodes s)). repeat split; auto. lia.
  - pose proof (allocate_task_params task E s) as (Hn & Hm & _ & Hl).
    pose proof (allocate_task_flags task E s) as Hfl. cbv zeta in Hn, Hm, Hl.
    rewrite (not_failed_flags _ _ Hfl), Hn.
    split; [congruence|]. split; [congruence|]. exact IH3.
  - exact IH.
  - pose proof (simulate_failure_flags E s) as (Hn & Hm & _).
    assert (Hlen : length (nodes (simulate_failure E s).1.1) = length (nodes s)).
    { destruct (simulate_failure_marks E s) as [H | (_ & i & H)];
        apply (f_equal length) in H; rewrite !length_map in H;
        rewrite ?length_alter in H; exact H. }
    split; [congruence|]. split; [congruence|]. rewrite Hn.
    destruct (simulate_failure_marks E s) as [H | (Hmin & i & H)].
    + now rewrite (not_failed_flags _ _ H).
    + rewrite (not_failed_flags _ _ H).
      pose proof (not_failed_count (nodes s)).
      pose proof (not_failed_count (alter (set_failed true) i (nodes s))) as H'.
      rewrite length_alter in H'.
      pose proof (current_failures_mark i (nodes s)). lia.
Qed.

Lemma run_loop_reachable (todo : list Task) :
  forall E s, reachable s -> reachable (run_loop todo E s).1.1.
Proof.
  induction todo as [|task rest IH]; intros E s Hs; simpl; [exact Hs|].
  pose proof (reach_allocate s task E Hs) as H1.
  destruct (allocate_task task E s) as [[s1 E1] [b|e]]; simpl in H1; [|exact H1].
  set (s2 := if b then _ else s1).
  assert (H2 : reachable s2)
    by (subst s2; destruct b; [now apply reach_completed|exact H1]).
  destruct (random_random E1) as [r E2].
  destruct (Qlt_bool r 0.1); [|now apply IH].
  pose proof (reach_failure s2 E2 H2) as H3.
  destruct (simulate_failure E2 s2) as [[s3 E3] [[]|e]]; simpl in H3; [|exact H3].
  now apply IH.
Qed.

Lemma run_reachable E s : reachable s -> reachable (run E s).1.1.
Proof.
  intros Hs. unfold run.
  pose proof (run_loop_reachable (tasks (set_completed_tasks 0 s)) E
                (set_completed_tasks 0 s) (reach_completed s 0 Hs)) as H.
  destruct (run_loop _ E _) as [[s' E'] [[]|e]]; exact H.
Qed.

Lemma simulate_failure_num_nodes E s :
  num_nodes (simulate_failure E s).1.1 = num_nodes s.
Proof. apply simulate_failure_flags. Qed.

Lemma run_loop_num_nodes (todo : list Task) :
  forall E s, num_nodes (run_loop todo E s).1.1 = num_nodes s.
Proof.
  induction todo as [|task rest IH]; intros E s; simpl; [reflexivity|].
  pose proof (allocate_task_params task E s) as (H1 & _).
  destruct (allocate_task task E s) as [[s1 E1] [b|e]]; simpl in H1; [|exact H1].
  set (s2 := if b then _ else s1).
  assert (H2 : num_nodes s2 = num_nodes s) by (subst s2; destruct b; exact H1).
  destruct (random_random E1) as [r E2].
  destruct (Qlt_bool r 0.1); [|now rewrite IH].
  pose proof (simulate_failure_num_nodes E2 s2) as H3.
  destruct (simulate_failure E2 s2) as [[s3 E3] [[]|e]]; simpl in H3; [|simpl; congruence].
  rewrite IH. congruence.
Qed.

Lemma run_num_nodes E s : num_nodes (run E s).1.1 = num_nodes s.
Proof.
  unfold run.
  pose proof (run_loop_num_nodes (tasks (set_completed_tasks 0 s)) E
                (set_completed_tasks 0 s)) as H.
  destruct (run_loop _ E _) as [[s' E'] [[]|e]]; exact H.
Qed.

(** X12.  In every state reachable from a constructed instance, and so in
    the state any run ends in, the active-node count of the metrics plus the
    number of failed nodes is [num_nodes], and at least [min(3, num_nodes)]
    nodes are active: fault injection never takes the pool below three
    nodes. *)
Theorem active_nodes_never_below_three (E : Entropy) (s : Sim) :
  reachable s ->
  (Metrics.active_nodes (calculate_metrics s) + current_failures (nodes s)
   = num_nodes s)%nat
  /\ (Nat.min 3 (num_nodes s) <= Metrics.active_nodes (calculate_metrics s))%nat
  /\ (Metrics.active_nodes (calculate_metrics (run E s).1.1)
      + current_failures (nodes (run E s).1.1) = num_nodes s)%nat
  /\ (Nat.min 3 (num_nodes s)
      <= Metrics.active_nodes (calculate_metrics (run E s).1.1))%nat.
Proof.
  intros Hs. pose proof (reachable_survivors s Hs) as (_ & Hlen & Hmin).
  pose proof (reachable_survivors _ (run_reachable E s Hs)) as (_ & Hlen' & Hmin').
  rewrite (run_num_nodes E s) in Hlen', Hmin'.
  rewrite !metrics_active_nodes.
  pose proof (not_failed_count (nodes s)).
  pose proof (not_failed_count (nodes (run E s).1.1)).
  split; [lia|]. split; [exact Hmin|]. split; [lia|exact Hmin'].
Qed.

(** ** Sums and means *)

Lemma fold_left_Qplus (l : list Q) (a : Q) : fold_left Qplus l a == a + Qsum l.
Proof.
  unfold Qsum. revert a. induction l as [|x l IH]; intros a; simpl.
  - lra.
  - rewrite (IH (a + x)), (IH (0 + x)). lra.
Qed.

Lemma Qsum_cons (x : Q) (l : list Q) : Qsum (x :: l) == x + Qsum l.
Proof. unfold Qsum at 1. simpl. rewrite fold_left_Qplus. lra. Qed.

Lemma Qsum_bounds (lo hi : Q) (l : list Q) :
  Forall (fun x => lo <= x /\ x <= hi) l ->
  inject_Z (Z.of_nat (length l)) * lo <= Qsum l
  /\ Qsum l <= inject_Z (Z.of_nat (length l)) * hi.
Proof.
  induction 1 as [|x l [H1 H2] _ [IH1 IH2]].
  - unfold Qsum. cbn. change (inject_Z (Z.of_nat 0)) with 0. lra.
  - rewrite Qsum_cons. cbn [length]. rewrite Nat2Z.inj_succ. unfold Z.succ.
    rewrite inject_Z_plus. change (inject_Z 1) with 1. lra.
Qed.

Lemma mean_bounds (lo hi : Q) (l : list Q) :
  l <> [] -> Forall (fun x => lo <= x /\ x <= hi) l ->
  lo <= Qsum l / inject_Z (Z.of_nat (length l))
  /\ Qsum l / inject_Z (Z.of_nat (length l)) <= hi.
Proof.
  intros Hne H. destruct (Qsum_bounds lo hi l H) as [H1 H2].
  assert (Hpos : 0 < inject_Z (Z.of_nat (length l))).
  { change 0 with (inject_Z 0). rewrite <- Zlt_Qlt.
    destruct l; [congruence|]. simpl. lia. }
  split.
  - apply Qle_shift_div_l; [exact Hpos|]. lra.
  - apply Qle_shift_div_r; [exact Hpos|]. lra.
Qed.

Lemma Qsum_nonneg (l : list Q) : Forall (fun x => 0 <= x) l -> 0 <= Qsum l.
Proof.
  induction 1 as [|x l Hx _ IH]; [unfold Qsum; simpl; lra|].
  rewrite Qsum_cons. lra.
Qed.

Lemma utilization_nonneg (n : Node) :
  0 <= current_load n -> (0 < capacity n)%Z -> 0 <= current_load n / cap n.
Proof.
  intros Hl Hc. apply Qle_shift_div_l; [|lra].
  unfold cap. change 0 with (inject_Z 0). now rewrite <- Zlt_Qlt.
Qed.

(** X13.  If no load of the pool is negative, the average response time of
    the metrics is positive and at most 1; if moreover no energy coefficient
    is negative, the energy consumption is not negative. *)
Theorem response_time_and_energy_ranges (s : Sim) :
  Forall (fun n => 0 <= current_load n) (nodes s) ->
  0 < Metrics.avg_response_time (calculate_metrics s)
  /\ Metrics.avg_response_time (calculate_metrics s) <= 1
  /\ (Forall (fun n => 0 <= energy_coefficient n) (nodes s) ->
      0 <= Metrics.energy_consumption (calculate_metrics s)).
Proof.
  intros Hload. unfold calculate_metrics.
  cbn [Metrics.avg_response_time Metrics.energy_consumption].
  set (rts := map _ (List.filter _ (List.filter _ (nodes s)))).
  assert (Hr : Forall (fun x => 0.1 <= x /\ x <= 1) rts).
  { subst rts. apply List.Forall_forall. intros x Hx.
    apply in_map_iff in Hx as (n & <- & Hn).
    apply filter_In in Hn as [Hn Hc]. apply filter_In in Hn as [Hn _].
    apply Z.ltb_lt in Hc.
    rewrite List.Forall_forall in Hload. specialize (Hload n Hn).
    pose proof (utilization_nonneg n Hload Hc) as Hu.
    pose proof (py_min2_le_l 1 (current_load n / cap n)).
    pose proof (py_min2_nonneg 1 (current_load n / cap n) ltac:(lra) Hu).
    split; lra. }
  assert (Hmean : 0.1 <= match rts with
                         | [] => 0.5
                         | _ => Qsum rts / inject_Z (Z.of_nat (length rts))
                         end
                  /\ match rts with
                     | [] => 0.5
                     | _ => Qsum rts / inject_Z (Z.of_nat (length rts))
                     end <= 1).
  { destruct rts as [|x rts'] eqn:Hrts; [split; lra|].
    rewrite <- Hrts in *. apply mean_bounds; [rewrite Hrts; discriminate|exact Hr]. }
  destruct Hmean as [H1 H2]. split; [lra|]. split; [exact H2|].
  intros Hcoef. apply Qsum_nonneg. apply List.Forall_forall. intros x Hx.
  apply in_map_iff in Hx as (n & <- & Hn). apply filter_In in Hn as [Hn _].
  rewrite List.Forall_forall in Hload, Hcoef.
  apply Qmult_le_0_compat; auto.
Qed.

(** ** The total load of the pool *)

Lemma total_load_alter (f : Node -> Node) (ns : list Node) :
  forall i n,
    ns !! i = Some n ->
    total_load (alter f i ns) == total_load ns - current_load n + current_load (f n).
Proof.
  unfold total_load. induction ns as [|x ns IH]; intros [|i] n Hi; simpl in Hi;
    try discriminate.
  - inversion Hi; subst. simpl. rewrite !Qsum_cons. lra.
  - simpl. rewrite !Qsum_cons. unfold alter in IH. rewrite (IH i n Hi). lra.
Qed.

Lemma placed_total_load task ns ns' :
  placed task ns ns' -> total_load ns' == total_load ns + mips_required task.
Proof.
  intros (i & n & Hi & _ & _ & ->). rewrite (total_load_alter _ _ _ _ Hi). simpl. lra.
Qed.


(** X15.  For Bat, Crow Search and Monarch, a fault injection whose migration
    succeeds conserves the total load of the pool: the load taken off the
    failed node is the load placed on the node that received the migration
    task. *)
Theorem successful_migration_conserves_load (E : Entropy) (s : Sim) (i : nat) :
  ~ is_lion s ->
  migration_succeeds E s i ->
  total_load (nodes (simulate_failure E s).1.1) == total_load (nodes s).
Proof.
  intros Hnl (node & E1 & r & E2 & s2 & E3 & Hmin & Hcap & Hc & Hr & Hp & Hload & Ha).
  apply random_choice_In in Hc as Hin. apply filter_In in Hin as [Hin _].
  apply enumerate_In in Hin.
  pose proof Ha as Heff. apply allocate_task_effect in Heff as (Hsucc & _).
  destruct (Hsucc eq_refl) as [Hpl | [Hl _]]; [|exfalso; exact (Hnl Hl)].
  unfold simulate_failure.
  apply Nat.leb_gt in Hmin. apply Z.leb_gt in Hcap. rewrite Hmin, Hcap, Hc, Hr.
  apply Qlt_bool_iff in Hp. pose proof Hload as Hpos. apply Qlt_bool_iff in Hload.
  rewrite Hp, Hload.
  unfold migration_task, mark_failed in Ha. rewrite Ha. simpl.
  pose proof (placed_total_load _ _ _ Hpl) as Htot.
  apply placed_lookup in Hpl as (j & nj & Hj & Hact & _ & _ & Hrest).
  pose proof (mark_failed_lookup s i node Hin) as Hi1.
  assert (Hne : i <> j).
  { intros ->. rewrite Hi1 in Hj. inversion Hj; subst. discriminate. }
  assert (Hi2 : nodes s2 !! i = Some (set_failed true node)).
  { rewrite Hrest by exact Hne. exact Hi1. }
  rewrite (total_load_alter _ _ _ _ Hi2), Htot.
  unfold mark_failed. simpl nodes.
  rewrite (total_load_alter _ _ _ _ Hin). simpl. lra.
Qed.

(** ** Runs that return *)

Lemma allocate_task_is_crow task E s :
  is_crow (allocate_task task E s).1.1 = is_crow s.
Proof.
  unfold allocate_task, is_crow.
  destruct (algo s) as [ps ts nomads thr|ld pr|memory fl|bar] eqn:Ha.
  - destruct (Lion.allocate_task _ _ _ _ _ _ _ _) as [[[ns' a'] E'] b] eqn:Hl.
    apply lion_allocate_effect in Hl as (_ & _ & ts' & nomads' & -> & _). reflexivity.
  - destruct (Bat.allocate_task _ _ _ _) as [[ns' E'] b]. simpl. now rewrite Ha.
  - destruct (Crow.allocate_task _ _ _) as [[ns' m'] o]. reflexivity.
  - destruct (Monarch.allocate_task _ _ _ _) as [[ns' E'] b]. simpl. now rewrite Ha.
Qed.

Lemma allocate_task_returns task E s :
  is_crow s = false -> exists b, (allocate_task task E s).2 = Ret b.
Proof.
  intros Hk. destruct (allocate_task task E s) as [[s' E'] o] eqn:Ha.
  apply allocate_task_effect in Ha as (_ & _ & _ & H). apply H.
  intros m fl Hm. unfold is_crow in Hk. rewrite Hm in Hk. discriminate.
Qed.

Lemma simulate_failure_is_crow E s :
  is_crow s = false -> is_crow (simulate_failure E s).1.1 = false.
Proof.
  revert E s. apply simulate_failure_preserves; auto.
  intros s task E H. now rewrite allocate_task_is_crow.
Qed.

Lemma simulate_failure_returns E s :
  is_crow s = false -> (simulate_failure E s).2 = Ret tt.
Proof.
  intros Hk.
  destruct (simulate_failure_cases E s)
    as [[_ H] | (i & node & E2 & _ & _ & _ & _ & [(_ & _ & H) | (_ & Hm)])]; auto.
  destruct (allocate_task_returns (migration_task node) E2 (mark_failed i s) Hk)
    as [b Hb].
  rewrite Hb in Hm. destruct b; apply Hm.
Qed.

Lemma run_loop_returns (todo : list Task) :
  forall E s, is_crow s = false -> (run_loop todo E s).2 = Ret tt.
Proof.
  induction todo as [|task rest IH]; intros E s Hk; simpl; [reflexivity|].
  destruct (allocate_task_returns task E s Hk) as [b Hb].
  pose proof (allocate_task_is_crow task E s) as H1. rewrite Hk in H1.
  destruct (allocate_task task E s) as [[s1 E1] o]. simpl in Hb, H1. subst o.
  set (s2 := if b then _ else s1).
  assert (H2 : is_crow s2 = false) by (subst s2; destruct b; exact H1).
  destruct (random_random E1) as [r E2].
  destruct (Qlt_bool r 0.1); [|now apply IH].
  pose proof (simulate_failure_returns E2 s2 H2) as Hret.
  pose proof (simulate_failure_is_crow E2 s2 H2) as Hkind.
  destruct (simulate_failure E2 s2) as [[s3 E3] o]. simpl in Hret, Hkind. subst o.
  now apply IH.
Qed.

Lemma run_result (E : Entropy) (s : Sim) :
  (run_loop (tasks s) E (set_completed_tasks 0 s)).2 = Ret tt ->
  run_guarded E s = (calculate_metrics (run E s).1.1, (run E s).1.2).
Proof.
  unfold run_guarded, run. simpl tasks.
  destruct (run_loop _ E _) as [[s' E'] o]. simpl. now intros ->.
Qed.

(** X14.  [run] of a freshly constructed instance of each of the four
    strategies returns its metrics, so the [except] branch of
    [run_comparison] is never taken: every entry of its results is the
    metrics mapping computed from the final state of that strategy's run,
    never the placeholder. *)
Theorem run_comparison_never_uses_placeholder (n m : nat) (nd : nat -> nat -> NodeDraw)
    (td : nat -> nat -> TaskDraw) (E : Entropy) :
  (forall k i, node_draw_ok (nd k i)) ->
  let lion := Lion.init n m (nd 0%nat) (td 0%nat) in
  let bat := Bat_init n m (nd 1%nat) (td 1%nat) in
  let crow := Crow_init n m (nd 2%nat) (td 2%nat) in
  let monarch := Monarch_init n m (nd 3%nat) (td 3%nat) in
  let E1 := (run E lion).1.2 in
  let E2 := (run E1 bat).1.2 in
  let E3 := (run E2 crow).1.2 in
  run_comparison n m nd td E =
    [("Lion Optimization", calculate_metrics (run E lion).1.1);
     ("Bat Algorithm", calculate_metrics (run E1 bat).1.1);
     ("Crow Search", calculate_metrics (run E2 crow).1.1);
     ("Monarch Butterfly", calculate_metrics (run E3 monarch).1.1)].
Proof.
  intros Hok lion bat crow monarch E1 E2 E3. unfold run_comparison. cbn [run_each].
  fold lion bat crow monarch.
  rewrite (run_result E lion) by (apply run_loop_returns; reflexivity).
  fold E1.
  rewrite (run_result E1 bat) by (apply run_loop_returns; reflexivity).
  fold E2.
  rewrite (run_result E2 crow).
  2:{ apply run_loop_crow_returns. left. apply (crow_init_unseeded n m _ _ (Hok 2%nat)). }
  fold E3.
  rewrite (run_result E3 monarch) by (apply run_loop_returns; reflexivity).
  reflexivity.
Qed.

(** ** The generator *)

(** X1.  A freshly constructed instance, its draws within the ranges of the
    generator, has [num_nodes] nodes numbered by position, all without load,
    not failed and with a capacity between 8000 and 16000, and [num_tasks]
    tasks numbered by position whose [mips_required] lies between 200 and
    4000, so that every task of the stream has room on every empty node. *)
Theorem fresh_instance_is_well_formed (n m : nat) (nd : nat -> NodeDraw)
    (td : nat -> TaskDraw) (a : Algo) :
  (forall i, node_draw_ok (nd i)) ->
  (forall i, task_draw_ok (td i)) ->
  length (nodes (MetaheuristicAlgorithm_init n m nd td a)) = n
  /\ length (tasks (MetaheuristicAlgorithm_init n m nd td a)) = m
  /\ (forall i node,
        nodes (MetaheuristicAlgorithm_init n m nd td a) !! i = Some node ->
        node_id node = Z.of_nat i /\ current_load node = 0 /\ failed node = false
        /\ (8000 <= capacity node <= 16000)%Z /\ is_active node = true)
  /\ (forall k task,
        tasks (MetaheuristicAlgorithm_init n m nd td a) !! k = Some task ->
        task_id task = Z.of_nat k
        /\ 200 <= mips_required task /\ mips_required task <= 4000
        /\ forall i node,
             nodes (MetaheuristicAlgorithm_init n m nd td a) !! i = Some node ->
             fits task node = true).
Proof.
  intros Hnd Htd. simpl. unfold initialize_nodes, generate_tasks.
  rewrite !length_map, !length_seq. split; [reflexivity|]. split; [reflexivity|].
  assert (Hnode : forall i node,
             map (fun i => mkNode (Z.of_nat i) 4 (drawn_mips (nd i))
                                  (4 * drawn_speed (nd i)) 0 false (drawn_energy (nd i)))
                 (seq 0 n) !! i = Some node ->
             node_id node = Z.of_nat i /\ current_load node = 0 /\ failed node = false
             /\ (8000 <= capacity node <= 16000)%Z /\ is_active node = true).
  { intros i node Hi. rewrite lookup_map in Hi.
    destruct (seq 0 n !! i) as [j|] eqn:Hj; [|discriminate].
    apply lookup_seq in Hj as [-> _]. inversion Hi; subst. simpl.
    destruct (Hnd i) as [_ Hs]. repeat split; try lia.
    unfold is_active. simpl. apply Z.ltb_lt. lia. }
  split; [exact Hnode|].
  intros k task Hk. rewrite lookup_map in Hk.
  destruct (seq 0 m !! k) as [j|] eqn:Hj; [|discriminate].
  apply lookup_seq in Hj as [-> _]. inversion Hk; subst. simpl.
  destruct (Htd k) as [_ Hm].
  split; [reflexivity|]. split; [|split].
  - change 200 with (inject_Z 200). rewrite <- Zle_Qle. lia.
  - change 4000 with (inject_Z 4000). rewrite <- Zle_Qle. lia.
  - intros i node Hi. destruct (Hnode i node Hi) as (_ & Hl & _ & Hc & _).
    apply fits_iff. rewrite Hl. simpl. unfold cap. rewrite Qplus_0_l.
    rewrite <- Zle_Qle. lia.
Qed.

(** ** The further properties on the example instances *)

Lemma demands_500_ok : forall i, task_draw_ok (demands [500]%Z i).
Proof.
  intros [|[|i]]; unfold task_draw_ok; simpl; lia.
Qed.

Lemma fresh_instance_is_well_formed_witness :
  length (nodes (MetaheuristicAlgorithm_init 4 1 small_node (demands [500]%Z)
                   (BatAlgorithm 0.5 0.5))) = 4%nat
  /\ length (tasks (MetaheuristicAlgorithm_init 4 1 small_node (demands [500]%Z)
                      (BatAlgorithm 0.5 0.5))) = 1%nat
  /\ (forall i node,
        nodes (MetaheuristicAlgorithm_init 4 1 small_node (demands [500]%Z)
                 (BatAlgorithm 0.5 0.5)) !! i = Some node ->
        node_id node = Z.of_nat i /\ current_load node = 0 /\ failed node = false
        /\ (8000 <= capacity node <= 16000)%Z /\ is_active node = true)
  /\ (forall k task,
        tasks (MetaheuristicAlgorithm_init 4 1 small_node (demands [500]%Z)
                 (BatAlgorithm 0.5 0.5)) !! k = Some task ->
        task_id task = Z.of_nat k
        /\ 200 <= mips_required task /\ mips_required task <= 4000
        /\ forall i node,
             nodes (MetaheuristicAlgorithm_init 4 1 small_node (demands [500]%Z)
                      (BatAlgorithm 0.5 0.5)) !! i = Some node ->
             fits task node = true).
Proof.
  apply (fresh_instance_is_well_formed 4 1 small_node (demands [500]%Z)
           (BatAlgorithm 0.5 0.5)).
  - exact small_node_ok.
  - exact demands_500_ok.
Defined.

Lemma bat_lost_work_within_capacity : within_capacity (nodes bat_lost_work).
Proof.
  unfold within_capacity. vm_compute.
  repeat (constructor; [split; discriminate|]). constructor.
Qed.

Lemma bat_lost_work_demands :
  Forall (fun task => 0 <= mips_required task) (tasks bat_lost_work).
Proof.
  vm_compute. repeat (constructor; [discriminate|]). constructor.
Qed.

Lemma run_keeps_loads_within_capacity_witness :
  within_capacity (nodes (run lost_work_entropy bat_lost_work).1.1).
Proof.
  apply (run_keeps_loads_within_capacity lost_work_entropy bat_lost_work).
  - exact bat_lost_work_within_capacity.
  - exact bat_lost_work_demands.
Defined.

Lemma fresh_bat_has_room :
  room_on_every_active task_500 (nodes (Bat_init 4 1 small_node (demands [500]%Z))).
Proof.
  intros i n Hi _.
  destruct i as [|[|[|[|i]]]]; vm_compute in Hi; inversion Hi; subst;
    vm_compute; discriminate.
Qed.

Lemma fresh_bat_some_active :
  some_active (nodes (Bat_init 4 1 small_node (demands [500]%Z))).
Proof.
  exists 0%nat, (mkNode 0 4 2000 8000 0 false 0.002). split; reflexivity.
Qed.

Lemma allocation_succeeds_when_all_fit_witness :
  (allocate_task task_500 no_entropy (Bat_init 4 1 small_node (demands [500]%Z))).2
  = Ret true.
Proof.
  apply (allocation_succeeds_when_all_fit task_500 no_entropy
           (Bat_init 4 1 small_node (demands [500]%Z))).
  - vm_compute. exact I.
  - exact fresh_bat_some_active.
  - exact fresh_bat_has_room.
Defined.

Lemma allocation_succeeds_when_least_utilized_fits_witness :
  (allocate_task task_500 random_node_1 (Bat_init 4 1 small_node (demands [500]%Z))).2
  = Ret true.
Proof.
  apply (allocation_succeeds_when_least_utilized_fits task_500 random_node_1
           (Bat_init 4 1 small_node (demands [500]%Z))).
  - intros bar. discriminate.
  - vm_compute. exact I.
  - exact fresh_bat_some_active.
  - apply room_on_active_least. exact fresh_bat_has_room.
Defined.

Lemma fresh_crow_call_state :
  crow_call_state (Crow_init 3 1 small_node (demands [500]%Z)).
Proof.
  left. exists 3%nat, 1%nat, small_node, (demands [500]%Z).
  split; [exact small_node_ok|reflexivity].
Qed.

Lemma crow_places_on_least_utilized_witness :
  exists i,
    least_utilized (nodes (Crow_init 3 1 small_node (demands [500]%Z))) i
    /\ nodes (allocate_task task_500 no_entropy
                (Crow_init 3 1 small_node (demands [500]%Z))).1.1
       = alter (add_load (mips_required task_500)) i
               (nodes (Crow_init 3 1 small_node (demands [500]%Z))).
Proof.
  apply (crow_places_on_least_utilized task_500 no_entropy no_entropy
           (Crow_init 3 1 small_node (demands [500]%Z))).
  - exact fresh_crow_call_state.
  - vm_compute. reflexivity.
Defined.

Lemma monarch_migration_targets_least_utilized_witness :
  exists i,
    least_utilized (nodes (Monarch_init 3 1 small_node (demands [500]%Z))) i
    /\ nodes (allocate_task task_500 no_entropy
                (Monarch_init 3 1 small_node (demands [500]%Z))).1.1
       = alter (add_load (mips_required task_500)) i
               (nodes (Monarch_init 3 1 small_node (demands [500]%Z))).
Proof.
  apply (monarch_migration_targets_least_utilized task_500 no_entropy no_entropy
           (Monarch_init 3 1 small_node (demands [500]%Z)) _ 5).
  - reflexivity.
  - vm_compute. reflexivity.
  - vm_compute. reflexivity.
Defined.

Lemma lion_nomads_are_built_once_witness :
  exists ts' nomads',
    algo (allocate_task task_4000 no_entropy lion_pair_even).1.1
    = LionOptimizationLB 5 ts' nomads' 0.8
    /\ (@nil nat <> [] -> nomads' = [])
    /\ (@nil nat = [] ->
        (length nomads' <= Nat.max 2 (num_nodes lion_pair_even / 10))%nat
        /\ forall j, In j nomads' ->
                     exists x, nodes lion_pair_even !! j = Some x /\ is_active x = true).
Proof.
  apply (lion_nomads_are_built_once task_4000 no_entropy lion_pair_even 5
           (territories_of lion_pair_even) [] 0.8).
  vm_compute. reflexivity.
Defined.

Lemma lion_territory_records_only_improve_witness :
  exists t',
    territories_of
      (allocate_task task_500 no_entropy
         (Lion.init 2 1 small_node (demands [500]%Z))).1.1 !! 0%nat = Some t'
    /\ territory_nodes t' = territory_nodes (mkTerritory [0; 1]%nat Inf None)
    /\ (t' = mkTerritory [0; 1]%nat Inf None
        \/ (fit_ltb (best_fitness t') (best_fitness (mkTerritory [0; 1]%nat Inf None)) = true
            /\ exists i, best_node t' = Some i
                         /\ In i (territory_nodes (mkTerritory [0; 1]%nat Inf None)))).
Proof.
  apply (lion_territory_records_only_improve task_500 no_entropy
           (Lion.init 2 1 small_node (demands [500]%Z)) 0
           (mkTerritory [0; 1]%nat Inf None)).
  reflexivity.
Defined.

(** On [bat_overloaded], [simulate_failure] fails node 0, which carries
    12000, and the migration task fits on none of the other nodes. *)
Lemma bat_overloaded_migration_fails :
  migration_fails fail_node_0_try_random bat_overloaded 0.
Proof.
  exists (mkNode 0 4 3000 16000 (0 + 4000 + 4000 + 4000) false 0.002),
    (mkEntropy [0.01; 0.9] [0%nat] []), 0.01, (mkEntropy [0.9] [0%nat] []),
    (mark_failed 0 bat_overloaded), (mkEntropy [] [] []).
  repeat split; vm_compute; reflexivity.
Qed.

Lemma failed_migration_is_lost_work_witness :
  (simulate_failure fail_node_0_try_random bat_overloaded).2 = Ret tt
  /\ nodes (simulate_failure fail_node_0_try_random bat_overloaded).1.1
     = alter (set_failed true) 0%nat (nodes bat_overloaded)
  /\ exists node,
       nodes bat_overloaded !! 0%nat = Some node /\ 0 < current_load node
       /\ (0 <= py_int (current_load node / 1000))%Z
       /\ completed_tasks (simulate_failure fail_node_0_try_random bat_overloaded).1.1
          = (completed_tasks bat_overloaded - py_int (current_load node / 1000))%Z.
Proof.
  apply (failed_migration_is_lost_work fail_node_0_try_random bat_overloaded 0).
  exact bat_overloaded_migration_fails.
Defined.

Lemma active_nodes_never_below_three_witness :
  (Metrics.active_nodes (calculate_metrics bat_lost_work)
   + current_failures (nodes bat_lost_work) = num_nodes bat_lost_work)%nat
  /\ (Nat.min 3 (num_nodes bat_lost_work)
      <= Metrics.active_nodes (calculate_metrics bat_lost_work))%nat
  /\ (Metrics.active_nodes
        (calculate_metrics (run lost_work_entropy bat_lost_work).1.1)
      + current_failures (nodes (run lost_work_entropy bat_lost_work).1.1)
      = num_nodes bat_lost_work)%nat
  /\ (Nat.min 3 (num_nodes bat_lost_work)
      <= Metrics.active_nodes
           (calculate_metrics (run lost_work_entropy bat_lost_work).1.1))%nat.
Proof.
  apply (active_nodes_never_below_three lost_work_entropy bat_lost_work).
  apply reach_constructed. apply constructed_bat.
Defined.

Lemma bat_four_loads_nonneg :
  Forall (fun n => 0 <= current_load n) (nodes bat_four_loaded).
Proof.
  vm_compute. repeat (constructor; [discriminate|]). constructor.
Qed.

Lemma response_time_and_energy_ranges_witness :
  0 < Metrics.avg_response_time (calculate_metrics bat_four_loaded)
  /\ Metrics.avg_response_time (calculate_metrics bat_four_loaded) <= 1
  /\ (Forall (fun n => 0 <= energy_coefficient n) (nodes bat_four_loaded) ->
      0 <= Metrics.energy_consumption (calculate_metrics bat_four_loaded)).
Proof.
  apply (response_time_and_energy_ranges bat_four_loaded).
  exact bat_four_loads_nonneg.
Defined.

Lemma run_comparison_never_uses_placeholder_witness :
  run_comparison 4 1 (fun _ => small_node) (fun _ => demands [500]%Z) no_entropy =
    [("Lion Optimization",
      calculate_metrics
        (run no_entropy (Lion.init 4 1 small_node (demands [500]%Z))).1.1);
     ("Bat Algorithm",
      calculate_metrics
        (run (run no_entropy (Lion.init 4 1 small_node (demands [500]%Z))).1.2
             (Bat_init 4 1 small_node (demands [500]%Z))).1.1);
     ("Crow Search",
      calculate_metrics
        (run (run (run no_entropy (Lion.init 4 1 small_node (demands [500]%Z))).1.2
                  (Bat_init 4 1 small_node (demands [500]%Z))).1.2
             (Crow_init 4 1 small_node (demands [500]%Z))).1.1);
     ("Monarch Butterfly",
      calculate_metrics
        (run (run (run (run no_entropy
                            (Lion.init 4 1 small_node (demands [500]%Z))).1.2
                       (Bat_init 4 1 small_node (demands [500]%Z))).1.2
                  (Crow_init 4 1 small_node (demands [500]%Z))).1.2
             (Monarch_init 4 1 small_node (demands [500]%Z))).1.1)].
Proof.
  apply (run_comparison_never_uses_placeholder 4 1 (fun _ => small_node)
           (fun _ => demands [500]%Z) no_entropy).
  intros k i. exact (small_node_ok i).
Defined.


Lemma successful_migration_conserves_load_witness :
  total_load (nodes (simulate_failure fail_node_0 bat_four_loaded).1.1)
  == total_load (nodes bat_four_loaded).
Proof.
  apply (successful_migration_conserves_load fail_node_0 bat_four_loaded 0).
  - vm_compute. intros H. exact H.
  - exact bat_four_migration_succeeds.
Defined.

(** ** The standalone Lion allocator *)

Lemma argmax_from_spec (l : list Q) :
  forall (pre : list Q) (best : nat) (bv : Q),
    pre !! best = Some bv ->
    (forall j v, pre !! j = Some v -> v <= bv) ->
    (forall j v, (j < best)%nat -> pre !! j = Some v -> v < bv) ->
    exists rv,
      (pre ++ l) !! Standalone.argmax_from best bv (length pre) l = Some rv
      /\ (forall j v, (pre ++ l) !! j = Some v -> v <= rv)
      /\ (forall j v, (j < Standalone.argmax_from best bv (length pre) l)%nat ->
                      (pre ++ l) !! j = Some v -> v < rv).
Proof.
  induction l as [|x tl IH]; intros pre best bv Hb Hmax Hfirst; simpl.
  - rewrite app_nil_r. eauto.
  - replace (pre ++ x :: tl) with ((pre ++ [x]) ++ tl) by now rewrite <- app_assoc.
    replace (S (length pre)) with (length (pre ++ [x]))
      by (rewrite length_app; simpl; lia).
    destruct (Qlt_bool bv x) eqn:Hlt.
    + apply Qlt_bool_iff in Hlt. apply IH.
      * rewrite lookup_app_r by lia. now replace (length pre - length pre)%nat with 0%nat by lia.
      * intros j v Hj. apply lookup_app_Some in Hj as [Hj | [_ Hj]].
        -- apply Qlt_le_weak. eapply Qle_lt_trans; eauto.
        -- destruct (j - length pre)%nat; simpl in Hj; [|discriminate].
           inversion Hj. apply Qle_refl.
      * intros j v Hlen Hj. rewrite lookup_app_l in Hj by exact Hlen.
        eapply Qle_lt_trans; eauto.
    + apply Qlt_bool_false in Hlt. apply IH.
      * apply lookup_app_l_Some. exact Hb.
      * intros j v Hj. apply lookup_app_Some in Hj as [Hj | [_ Hj]]; [eauto|].
        destruct (j - length pre)%nat; simpl in Hj; [|discriminate].
        inversion Hj; subst. exact Hlt.
      * intros j v Hlen Hj.
        rewrite lookup_app_l in Hj by (apply lookup_lt_Some in Hb; lia). eauto.
Qed.

(** A non-empty pool has a first fittest node, and
    [identify_underutilized_node] returns it with its neighbours. *)
Lemma identify_spec (ns : list Standalone.Node) :
  ns <> [] ->
  exists b fitness,
    Standalone.first_fittest ns b
    /\ Standalone.identify_underutilized_node ns
       = Standalone.Returned
           (b,
            (if (0 <? b)%nat then Some (b - 1)%nat else None),
            (if (b <? length ns - 1)%nat then Some (b + 1)%nat else None),
            fitness).
Proof.
  intros Hne. unfold Standalone.identify_underutilized_node, Standalone.argmax.
  destruct ns as [|n0 ns]; [congruence|]. cbn [map].
  destruct (argmax_from_spec (map Standalone.fitness_function ns)
              [Standalone.fitness_function n0] 0 (Standalone.fitness_function n0))
    as (rv & Hr & Hmax & Hfirst).
  - reflexivity.
  - intros [|j] v Hj; simpl in Hj; [|discriminate]. inversion Hj. apply Qle_refl.
  - intros j v Hj. lia.
  - simpl length in *. simpl app in *.
    set (b := Standalone.argmax_from 0 (Standalone.fitness_function n0) 1
                (map Standalone.fitness_function ns)) in *.
    exists b. eexists. split; [|reflexivity].
    change (Standalone.fitness_function n0 :: map Standalone.fitness_function ns)
      with (map Standalone.fitness_function (n0 :: ns)) in *.
    rewrite lookup_map in Hr.
    destruct ((n0 :: ns) !! b) as [best|] eqn:Hb; [|discriminate].
    inversion Hr; subst rv. exists best. split; [exact Hb|]. split.
    + intros j n Hj. apply (Hmax j). now rewrite lookup_map, Hj.
    + intros j n Hlt Hj. apply (Hfirst j); [exact Hlt|]. now rewrite lookup_map, Hj.
Qed.

Lemma try_neighbors_cases task left right (todo : list (option nat)) draws ns :
  (exists j nj,
     In (Some j) todo /\ ns !! j = Some nj /\ Standalone.fits task nj = true
     /\ Standalone.try_neighbors task left right todo draws ns
        = ((Standalone.update_node_positions left right draws
              (alter (Standalone.place task) j ns)).1,
           (Standalone.update_node_positions left right draws
              (alter (Standalone.place task) j ns)).2,
           Standalone.Returned (Standalone.node_id nj)))
  \/ ((forall j nj, In (Some j) todo -> ns !! j = Some nj ->
                    Standalone.fits task nj = false)
      /\ Standalone.try_neighbors task left right todo draws ns
         = (ns, draws, Standalone.Returned (-1)%Z)).
Proof.
  induction todo as [|[j|] rest IH]; simpl.
  - right. split; [intros j nj []|reflexivity].
  - destruct (ns !! j) as [nj|] eqn:Hj.
    + destruct (Standalone.fits task nj) eqn:Hf.
      * left. exists j, nj. repeat split; auto.
        now destruct (Standalone.update_node_positions _ _ _ _).
      * destruct IH as [(k & nk & Hin & Hk & Hfk & Heq) | [Hall Heq]].
        -- left. exists k, nk. auto.
        -- right. split; [|exact Heq].
           intros k nk [Hk | Hk] Hl; [|eauto]. inversion Hk; subst. congruence.
    + destruct IH as [(k & nk & Hin & Hk & Hfk & Heq) | [Hall Heq]].
      * left. exists k, nk. auto.
      * right. split; [|exact Heq].
        intros k nk [Hk | Hk] Hl; [|eauto]. inversion Hk; subst. congruence.
  - destruct IH as [(k & nk & Hin & Hk & Hfk & Heq) | [Hall Heq]].
    + left. exists k, nk. auto.
    + right. split; [|exact Heq]. intros k nk [Hk | Hk] Hl; [discriminate|eauto].
Qed.

Lemma neighbor_positions (b j n : nat) :
  (j < n)%nat -> (b < n)%nat ->
  In (Some j) [if (0 <? b)%nat then Some (b - 1)%nat else None;
               if (b <? n - 1)%nat then Some (b + 1)%nat else None]
  <-> Standalone.neighbor_of b j.
Proof.
  intros Hj Hb. unfold Standalone.neighbor_of. simpl. split.
  - intros [H | [H | []]].
    + destruct (0 <? b)%nat eqn:H0; inversion H.
      apply Nat.ltb_lt in H0. left. lia.
    + destruct (b <? n - 1)%nat; inversion H. right. lia.
  - intros [H | H].
    + left. assert (H0 : (0 <? b)%nat = true) by (apply Nat.ltb_lt; lia).
      rewrite H0. f_equal. lia.
    + right. left. assert (H1 : (b <? n - 1)%nat = true) by (apply Nat.ltb_lt; lia).
      rewrite H1. f_equal. lia.
Qed.

(** What [allocate_task] does on a non-empty pool. *)
Lemma standalone_allocate_cases task draws (ns : list Standalone.Node) :
  ns <> [] ->
  exists b best,
    Standalone.first_fittest ns b /\ ns !! b = Some best
    /\ ((Standalone.fits task best = true
         /\ Standalone.allocate_task task draws ns
            = (alter (Standalone.place task) b ns, draws,
               Standalone.Returned (Standalone.node_id best)))
        \/ (Standalone.fits task best = false
            /\ exists j nj left right,
                 Standalone.neighbor_of b j /\ ns !! j = Some nj
                 /\ Standalone.fits task nj = true
                 /\ (forall l, left = Some l -> Standalone.neighbor_of b l)
                 /\ (forall r, right = Some r -> Standalone.neighbor_of b r)
                 /\ Standalone.allocate_task task draws ns
                    = ((Standalone.update_node_positions left right draws
                          (alter (Standalone.place task) j ns)).1,
                       (Standalone.update_node_positions left right draws
                          (alter (Standalone.place task) j ns)).2,
                       Standalone.Returned (Standalone.node_id nj)))
        \/ (Standalone.fits task best = false
            /\ (forall j nj, Standalone.neighbor_of b j -> ns !! j = Some nj ->
                             Standalone.fits task nj = false)
            /\ Standalone.allocate_task task draws ns
               = (ns, draws, Standalone.Returned (-1)%Z))).
Proof.
  intros Hne. destruct (identify_spec ns Hne) as (b & fitness & Hfit & Hid).
  pose proof Hfit as (best & Hb & _).
  exists b, best. split; [exact Hfit|]. split; [exact Hb|].
  unfold Standalone.allocate_task. rewrite Hid, Hb.
  pose proof (lookup_lt_Some _ _ _ Hb) as Hlt.
  destruct (Standalone.fits task best) eqn:Hf; [left; auto|right].
  set (left := if (0 <? b)%nat then Some (b - 1)%nat else None).
  set (right := if (b <? length ns - 1)%nat then Some (b + 1)%nat else None).
  destruct (try_neighbors_cases task left right [left; right] draws ns)
    as [(j & nj & Hin & Hj & Hfj & Heq) | [Hall Heq]].
  - left. split; [reflexivity|]. exists j, nj, left, right.
    pose proof (lookup_lt_Some _ _ _ Hj) as Hjlt.
    split; [now apply (neighbor_positions b j (length ns))|].
    repeat split; auto.
    + intros l Hl. subst left. destruct (0 <? b)%nat eqn:H0; inversion Hl.
      apply Nat.ltb_lt in H0. left. lia.
    + intros r Hr. subst right. destruct (b <? length ns - 1)%nat; inversion Hr.
      right. lia.
  - right. split; [reflexivity|]. split; [|exact Heq].
    intros j nj Hn Hj. apply (Hall j nj); [|exact Hj].
    apply (neighbor_positions b j (length ns)); auto.
    eapply lookup_lt_Some; eauto.
Qed.

Lemma standalone_raises_iff_empty task draws (ns : list Standalone.Node) :
  (Standalone.allocate_task task draws ns).2 = Standalone.Raised Standalone.ValueError
  <-> ns = [].
Proof.
  split.
  - intros H. destruct ns as [|n ns]; [reflexivity|].
    destruct (standalone_allocate_cases task draws (n :: ns) ltac:(discriminate))
      as (b & best & _ & _ & [(_ & Heq) | [(_ & j & nj & l & r & _ & _ & _ & _ & _ & Heq)
                                          | (_ & _ & Heq)]]);
      rewrite Heq in H; discriminate.
  - intros ->. reflexivity.
Qed.

(** X17.  The standalone [allocate_task] raises (the [ValueError] of
    [np.argmax]) exactly when the pool is empty.  On a non-empty pool the
    node of highest fitness, the first one among equals, is tried first: if
    the task has room there it is placed there, its id is appended to that
    node's task list, the node's id is returned, no other node changes and
    no random draw is used. *)
Theorem standalone_fittest_node_is_tried_first (task : Standalone.Task) (draws : list Q)
    (ns : list Standalone.Node) :
  ((Standalone.allocate_task task draws ns).2 = Standalone.Raised Standalone.ValueError
   <-> ns = [])
  /\ (ns <> [] ->
      exists b best,
        Standalone.first_fittest ns b /\ ns !! b = Some best
        /\ (Standalone.fits task best = true ->
            Standalone.allocate_task task draws ns
            = (alter (Standalone.place task) b ns, draws,
               Standalone.Returned (Standalone.node_id best)))).
Proof.
  split; [apply standalone_raises_iff_empty|].
  intros Hne.
  destruct (standalone_allocate_cases task draws ns Hne)
    as (b & best & Hfit & Hb & [(_ & Heq) | [(Hf & _) | (Hf & _)]]);
    exists b, best; repeat split; auto; congruence.
Qed.

(** X18.  In a pool where no node has the id [-1], a standalone
    [allocate_task] that returns [-1] has changed nothing and used no random
    draw, and the task has room neither on the fittest node nor on its left
    or right neighbour. *)
Theorem standalone_minus_one_means_no_room (task : Standalone.Task) (draws : list Q)
    (ns : list Standalone.Node) :
  (forall n, In n ns -> Standalone.node_id n <> (-1)%Z) ->
  (Standalone.allocate_task task draws ns).2 = Standalone.Returned (-1)%Z ->
  (Standalone.allocate_task task draws ns).1 = (ns, draws)
  /\ exists b,
       Standalone.first_fittest ns b
       /\ forall j nj, j = b \/ Standalone.neighbor_of b j -> ns !! j = Some nj ->
                       Standalone.fits task nj = false.
Proof.
  intros Hids Hres.
  destruct ns as [|n0 ns']; [discriminate|]. set (ns := n0 :: ns') in *.
  assert (Hid : forall k n, ns !! k = Some n -> Standalone.node_id n <> (-1)%Z).
  { intros k n Hk. apply Hids. apply list_elem_of_In. eapply list_elem_of_lookup_2; eauto. }
  destruct (standalone_allocate_cases task draws ns ltac:(discriminate))
    as (b & best & Hfit & Hb
        & [(_ & Heq) | [(_ & j & nj & l & r & _ & Hj & _ & _ & _ & Heq)
                       | (Hf & Hall & Heq)]]);
    rewrite Heq in Hres |- *; simpl in Hres.
  - inversion Hres as [H]. exfalso. exact (Hid _ _ Hb H).
  - inversion Hres as [H]. exfalso. exact (Hid _ _ Hj H).
  - split; [reflexivity|]. exists b. split; [exact Hfit|].
    intros j nj [-> | Hn] Hj; [congruence|eauto].
Qed.

Lemma standalone_within_alter (f : Standalone.Node -> Standalone.Node) (i : nat)
    (ns : list Standalone.Node) :
  Standalone.within_capacity ns ->
  (forall n, ns !! i = Some n ->
             0 <= Standalone.current_load n <= inject_Z (Standalone.capacity n) ->
             0 <= Standalone.current_load (f n)
             <= inject_Z (Standalone.capacity (f n))) ->
  Standalone.within_capacity (alter f i ns).
Proof.
  intros H Hf. apply Forall_alter; [exact H|]. intros x Hx [H1 H2].
  destruct (Hf x Hx (conj H1 H2)). auto.
Qed.

Lemma shrink_within (u : Q) (n : Standalone.Node) :
  0 <= u ->
  0 <= Standalone.current_load n <= inject_Z (Standalone.capacity n) ->
  0 <= Standalone.current_load (Standalone.shrink u n)
  <= inject_Z (Standalone.capacity (Standalone.shrink u n)).
Proof.
  intros Hu [H1 H2]. simpl. unfold Standalone.py_max0.
  pose proof (Qmult_le_0_compat _ _ Hu H1).
  destruct (Qlt_bool 0 _) eqn:Hlt; [apply Qlt_bool_iff in Hlt|]; split; lra.
Qed.

Lemma random_uniform_nonneg (draws : list Q) :
  Forall (fun u => 0 <= u) draws ->
  0 <= (Standalone.random_uniform draws).1
  /\ Forall (fun u => 0 <= u) (Standalone.random_uniform draws).2.
Proof.
  intros H. destruct H as [|u tl Hu Htl]; simpl; split; auto; lra.
Qed.

Lemma update_within left right draws ns :
  Forall (fun u => 0 <= u) draws ->
  Standalone.within_capacity ns ->
  Standalone.within_capacity (Standalone.update_node_positions left right draws ns).1.
Proof.
  intros Hd Hns. unfold Standalone.update_node_positions.
  assert (H1 : exists ns1 draws1,
             (match left with
              | Some l => let (u, d) := Standalone.random_uniform draws in
                          (alter (Standalone.shrink u) l ns, d)
              | None => (ns, draws)
              end) = (ns1, draws1)
             /\ Standalone.within_capacity ns1 /\ Forall (fun u => 0 <= u) draws1).
  { destruct left as [l|]; [|eauto].
    destruct (random_uniform_nonneg draws Hd) as [Hu Hrest].
    destruct (Standalone.random_uniform draws) as [u d]. simpl in *.
    eexists _, _. split; [reflexivity|]. split; [|exact Hrest].
    apply standalone_within_alter; [exact Hns|]. intros n _. now apply shrink_within. }
  destruct H1 as (ns1 & draws1 & -> & Hns1 & Hd1).
  destruct right as [r|]; [|exact Hns1].
  destruct (random_uniform_nonneg draws1 Hd1) as [Hu _].
  destruct (Standalone.random_uniform draws1) as [u d]. simpl in *.
  apply standalone_within_alter; [exact Hns1|]. intros n _. now apply shrink_within.
Qed.

Lemma place_within task (ns : list Standalone.Node) k n :
  (0 <= Standalone.mips_required task)%Z ->
  ns !! k = Some n -> Standalone.fits task n = true ->
  Standalone.within_capacity ns ->
  Standalone.within_capacity (alter (Standalone.place task) k ns).
Proof.
  intros Hm Hk Hf Hns. apply standalone_within_alter; [exact Hns|].
  intros x Hx [H1 H2]. rewrite Hk in Hx. inversion Hx; subst x.
  apply Qle_bool_iff in Hf. simpl.
  assert (0 <= inject_Z (Standalone.mips_required task))
    by (change 0 with (inject_Z 0); now rewrite <- Zle_Qle).
  split; lra.
Qed.

(** X19.  If every load of the pool lies between 0 and the capacity of its
    node, the task's demand is not negative and no random draw is negative,
    the same holds after the standalone [allocate_task], whether it placed
    the task on the fittest node, placed it on a neighbour and shrank the
    neighbours' loads, or placed nothing. *)
Theorem standalone_loads_stay_within_capacity (task : Standalone.Task) (draws : list Q)
    (ns : list Standalone.Node) :
  Standalone.within_capacity ns ->
  (0 <= Standalone.mips_required task)%Z ->
  Forall (fun u => 0 <= u) draws ->
  Standalone.within_capacity (Standalone.allocate_task task draws ns).1.1.
Proof.
  intros Hns Hm Hd. destruct ns as [|n0 ns']; [exact Hns|]. set (ns := n0 :: ns') in *.
  destruct (standalone_allocate_cases task draws ns ltac:(discriminate))
    as (b & best & _ & Hb
        & [(Hf & Heq) | [(_ & j & nj & l & r & _ & Hj & Hfj & _ & _ & Heq)
                        | (_ & _ & Heq)]]);
    rewrite Heq; simpl.
  - eapply place_within; eauto.
  - apply update_within; [exact Hd|]. eapply place_within; eauto.
  - exact Hns.
Qed.

Lemma map_tasks_alter (f : Standalone.Node -> Standalone.Node) (h : list Z -> list Z)
    (i : nat) (ns : list Standalone.Node) :
  (forall n, Standalone.tasks (f n) = h (Standalone.tasks n)) ->
  map Standalone.tasks (alter f i ns) = alter h i (map Standalone.tasks ns).
Proof.
  intros Hf. revert i. induction ns as [|n ns IH]; intros [|i]; simpl; auto.
  - now rewrite Hf.
  - f_equal. apply IH.
Qed.

Lemma alter_id_list {A : Type} (i : nat) (l : list A) : alter (fun x => x) i l = l.
Proof. revert i. induction l as [|x l IH]; intros [|i]; simpl; auto. f_equal. apply IH. Qed.

Lemma update_tasks left right draws ns :
  map Standalone.tasks (Standalone.update_node_positions left right draws ns).1
  = map Standalone.tasks ns.
Proof.
  unfold Standalone.update_node_positions.
  destruct left as [l|]; [destruct (Standalone.random_uniform draws) as [u d]|];
    (destruct right as [r|]; [destruct (Standalone.random_uniform _) as [u' d']|]);
    simpl;
    rewrite ?(map_tasks_alter _ (fun x => x)) by reflexivity;
    now rewrite ?alter_id_list.
Qed.

(** X20.  On a non-empty pool the standalone [allocate_task] either returns
    [-1] and leaves the pool as it is, or returns the id of a node, the
    fittest one or one of its two neighbours, on which the task had room,
    and appends the task's id to the task list of that node and of no
    other. *)
Theorem standalone_task_is_recorded_once (task : Standalone.Task) (draws : list Q)
    (ns : list Standalone.Node) :
  ns <> [] ->
  Standalone.allocate_task task draws ns = (ns, draws, Standalone.Returned (-1)%Z)
  \/ exists b k n,
       Standalone.first_fittest ns b /\ (k = b \/ Standalone.neighbor_of b k)
       /\ ns !! k = Some n /\ Standalone.fits task n = true
       /\ (Standalone.allocate_task task draws ns).2
          = Standalone.Returned (Standalone.node_id n)
       /\ map Standalone.tasks (Standalone.allocate_task task draws ns).1.1
          = alter (fun l => l ++ [Standalone.task_id task]) k (map Standalone.tasks ns).
Proof.
  intros Hne.
  destruct (standalone_allocate_cases task draws ns Hne)
    as (b & best & Hfit & Hb
        & [(Hf & Heq) | [(_ & j & nj & l & r & Hn & Hj & Hfj & _ & _ & Heq)
                        | (_ & _ & Heq)]]).
  - right. exists b, b, best. rewrite Heq. simpl. repeat split; auto.
    now apply map_tasks_alter.
  - right. exists b, j, nj. rewrite Heq. simpl. repeat split; auto.
    rewrite update_tasks. now apply map_tasks_alter.
  - now left.
Qed.

Lemma standalone_fittest_node_is_tried_first_witness :
  ((Standalone.allocate_task standalone_task_4000 [] standalone_pool).2
   = Standalone.Raised Standalone.ValueError
   <-> standalone_pool = [])
  /\ (standalone_pool <> [] ->
      exists b best,
        Standalone.first_fittest standalone_pool b /\ standalone_pool !! b = Some best
        /\ (Standalone.fits standalone_task_4000 best = true ->
            Standalone.allocate_task standalone_task_4000 [] standalone_pool
            = (alter (Standalone.place standalone_task_4000) b standalone_pool, [],
               Standalone.Returned (Standalone.node_id best)))).
Proof.
  apply (standalone_fittest_node_is_tried_first standalone_task_4000 [] standalone_pool).
Defined.

Lemma standalone_full_pool_ids :
  forall n, In n standalone_full_pool -> Standalone.node_id n <> (-1)%Z.
Proof.
  intros n Hn. vm_compute in Hn.
  destruct Hn as [<- | [<- | [<- | []]]]; discriminate.
Qed.

Lemma standalone_minus_one_means_no_room_witness :
  (Standalone.allocate_task standalone_task_4000 [] standalone_full_pool).1
  = (standalone_full_pool, [])
  /\ exists b,
       Standalone.first_fittest standalone_full_pool b
       /\ forall j nj, j = b \/ Standalone.neighbor_of b j ->
                       standalone_full_pool !! j = Some nj ->
                       Standalone.fits standalone_task_4000 nj = false.
Proof.
  apply (standalone_minus_one_means_no_room standalone_task_4000 [] standalone_full_pool).
  - exact standalone_full_pool_ids.
  - vm_compute. reflexivity.
Defined.

Lemma standalone_pool_within_capacity : Standalone.within_capacity standalone_pool.
Proof.
  unfold Standalone.within_capacity. vm_compute.
  repeat (constructor; [split; discriminate|]). constructor.
Qed.

Lemma standalone_loads_stay_within_capacity_witness :
  Standalone.within_capacity
    (Standalone.allocate_task standalone_task_4000 [0.05; 0.1] standalone_pool).1.1.
Proof.
  apply (standalone_loads_stay_within_capacity standalone_task_4000 [0.05; 0.1]
           standalone_pool).
  - exact standalone_pool_within_capacity.
  - vm_compute. discriminate.
  - repeat (constructor; [vm_compute; discriminate|]). constructor.
Defined.

Lemma standalone_task_is_recorded_once_witness :
  Standalone.allocate_task standalone_task_4000 [] standalone_pool
  = (standalone_pool, [], Standalone.Returned (-1)%Z)
  \/ exists b k n,
       Standalone.first_fittest standalone_pool b
       /\ (k = b \/ Standalone.neighbor_of b k)
       /\ standalone_pool !! k = Some n
       /\ Standalone.fits standalone_task_4000 n = true
       /\ (Standalone.allocate_task standalone_task_4000 [] standalone_pool).2
          = Standalone.Returned (Standalone.node_id n)
       /\ map Standalone.tasks
              (Standalone.allocate_task standalone_task_4000 [] standalone_pool).1.1
          = alter (fun l => l ++ [Standalone.task_id standalone_task_4000]) k
                  (map Standalone.tasks standalone_pool).
Proof.
  apply (standalone_task_is_recorded_once standalone_task_4000 [] standalone_pool).
  vm_compute. discriminate.
Defined.

(** ** The metrics of the standalone allocator *)

Lemma fold_left_Zadd (l : list Z) (a : Z) :
  fold_left Z.add l a = (a + fold_left Z.add l 0)%Z.
Proof.
  revert a. induction l as [|x l IH]; intros a; cbn [fold_left]; [lia|].
  rewrite (IH (a + x)%Z), (IH (0 + x)%Z). lia.
Qed.

Lemma standalone_totals (ns : list Standalone.Node) :
  Standalone.within_capacity ns ->
  0 <= Qsum (map Standalone.current_load ns)
  /\ Qsum (map Standalone.current_load ns)
     <= inject_Z (fold_left Z.add (map Standalone.capacity ns) 0%Z).
Proof.
  induction 1 as [|n ns [H1 H2] _ [IH1 IH2]].
  - unfold Qsum. simpl. split; apply Qle_refl.
  - cbn [map]. rewrite Qsum_cons. cbn [fold_left]. rewrite fold_left_Zadd.
    rewrite Z.add_0_l, inject_Z_plus. split; lra.
Qed.

Lemma standalone_ratio (n : Standalone.Node) :
  0 <= Standalone.current_load n <= inject_Z (Standalone.capacity n) ->
  (0 < Standalone.capacity n)%Z ->
  0 <= Standalone.current_load n / inject_Z (Standalone.capacity n) <= 1.
Proof.
  intros [H1 H2] Hc.
  assert (Hpos : 0 < inject_Z (Standalone.capacity n))
    by (change 0 with (inject_Z 0); now rewrite <- Zlt_Qlt).
  split.
  - apply Qle_shift_div_l; [exact Hpos|]. lra.
  - apply Qle_shift_div_r; [exact Hpos|]. lra.
Qed.

Lemma standalone_response_times (ns : list Standalone.Node) :
  Standalone.within_capacity ns ->
  (forall n, In n ns -> (0 < Standalone.capacity n)%Z) ->
  exists l,
    Standalone.response_times ns = Standalone.Returned l
    /\ Forall (fun x => 0 <= x /\ x <= 0.5) l.
Proof.
  induction 1 as [|n ns Hn _ IH]; intros Hcap; simpl; [eauto|].
  destruct IH as (l & -> & Hl); [intros x Hx; apply Hcap; now right|].
  destruct (Standalone.tasks n); [eauto|].
  pose proof (Hcap n ltac:(now left)) as Hc.
  destruct (Standalone.capacity n =? 0)%Z eqn:Hz; [apply Z.eqb_eq in Hz; lia|].
  eexists. split; [reflexivity|]. constructor; [|exact Hl].
  pose proof (standalone_ratio n Hn Hc). split; lra.
Qed.

(** X21.  For a standalone pool whose loads lie between 0 and the capacities
    and whose capacities are positive, [calculate_metrics] returns without
    raising, with an average response time between 0 and 0.5, a throughput
    between 0 and 100 and every entry of the load distribution between 0 and
    1. *)
Theorem standalone_metrics_ranges (ns : list Standalone.Node) :
  Standalone.within_capacity ns ->
  (forall n, In n ns -> (0 < Standalone.capacity n)%Z) ->
  exists m,
    Standalone.calculate_metrics ns = Standalone.Returned m
    /\ 0 <= Standalone.avg_response_time m /\ Standalone.avg_response_time m <= 0.5
    /\ 0 <= Standalone.throughput m /\ Standalone.throughput m <= 100
    /\ Forall (fun x => 0 <= x /\ x <= 1) (Standalone.load_distribution m).
Proof.
  intros Hns Hcap. unfold Standalone.calculate_metrics.
  destruct (standalone_response_times ns Hns Hcap) as (rts & -> & Hrts).
  eexists. split; [reflexivity|]. cbn [Standalone.avg_response_time
    Standalone.throughput Standalone.load_distribution].
  assert (Havg : 0 <= match rts with
                      | [] => 0
                      | _ => Qsum rts / inject_Z (Z.of_nat (length rts))
                      end
                 /\ match rts with
                    | [] => 0
                    | _ => Qsum rts / inject_Z (Z.of_nat (length rts))
                    end <= 0.5).
  { destruct rts as [|x rts'] eqn:Heq; [split; lra|].
    rewrite <- Heq in *. apply mean_bounds; [rewrite Heq; discriminate|exact Hrts]. }
  destruct Havg as [Ha1 Ha2]. split; [exact Ha1|]. split; [exact Ha2|].
  destruct (standalone_totals ns Hns) as [Ht1 Ht2].
  assert (Hthr : 0 <= (if (0 <? fold_left Z.add (map Standalone.capacity ns) 0)%Z
                       then Qsum (map Standalone.current_load ns)
                            / inject_Z (fold_left Z.add (map Standalone.capacity ns) 0%Z)
                            * 100
                       else 0)
                 /\ (if (0 <? fold_left Z.add (map Standalone.capacity ns) 0)%Z
                     then Qsum (map Standalone.current_load ns)
                          / inject_Z (fold_left Z.add (map Standalone.capacity ns) 0%Z)
                          * 100
                     else 0) <= 100).
  { destruct (0 <? _)%Z eqn:Hpos; [|split; lra].
    apply Z.ltb_lt in Hpos.
    assert (Hq : 0 < inject_Z (fold_left Z.add (map Standalone.capacity ns) 0%Z))
      by (change 0 with (inject_Z 0); now rewrite <- Zlt_Qlt).
    assert (H0 : 0 <= Qsum (map Standalone.current_load ns)
                      / inject_Z (fold_left Z.add (map Standalone.capacity ns) 0%Z))
      by (apply Qle_shift_div_l; [exact Hq|lra]).
    assert (H1 : Qsum (map Standalone.current_load ns)
                 / inject_Z (fold_left Z.add (map Standalone.capacity ns) 0%Z) <= 1)
      by (apply Qle_shift_div_r; [exact Hq|lra]).
    split; lra. }
  destruct Hthr as [Hth1 Hth2]. split; [exact Hth1|]. split; [exact Hth2|].
  apply List.Forall_forall. intros x Hx.
  apply in_map_iff in Hx as (n & <- & Hn). apply filter_In in Hn as [Hn Hc].
  apply Z.ltb_lt in Hc. unfold Standalone.within_capacity in Hns.
  rewrite List.Forall_forall in Hns.
  destruct (standalone_ratio n (Hns n Hn) Hc). auto.
Qed.

(** X22.  The standalone [calculate_metrics] raises ([ZeroDivisionError])
    exactly when some node that holds tasks has a capacity of 0. *)
Theorem standalone_metrics_raise_on_zero_capacity (ns : list Standalone.Node) :
  Standalone.calculate_metrics ns = Standalone.Raised Standalone.ZeroDivisionError
  <-> exists n,
        In n ns /\ Standalone.tasks n <> [] /\ Standalone.capacity n = 0%Z.
Proof.
  unfold Standalone.calculate_metrics.
  assert (H : Standalone.response_times ns
              = Standalone.Raised Standalone.ZeroDivisionError
              <-> exists n, In n ns /\ Standalone.tasks n <> []
                            /\ Standalone.capacity n = 0%Z).
  { induction ns as [|n ns IH]; simpl.
    - split; [discriminate|]. intros (n & [] & _).
    - destruct (Standalone.tasks n) as [|t ts] eqn:Ht.
      + rewrite IH. split.
        * intros (x & Hx & H1 & H2). exists x. auto.
        * intros (x & [<- | Hx] & H1 & H2); [congruence|]. exists x. auto.
      + destruct (Standalone.capacity n =? 0)%Z eqn:Hz.
        * apply Z.eqb_eq in Hz. split; [|reflexivity].
          intros _. exists n. repeat split; auto. congruence.
        * apply Z.eqb_neq in Hz.
          destruct (Standalone.response_times ns) as [l|e] eqn:Hr.
          -- split; [discriminate|].
             intros (x & [<- | Hx] & H1 & H2); [congruence|].
             assert (Hex : exists n0, In n0 ns /\ Standalone.tasks n0 <> []
                                      /\ Standalone.capacity n0 = 0%Z) by eauto.
             apply IH in Hex. discriminate.
          -- destruct e.
             ++ split; [discriminate|].
                intros (x & [<- | Hx] & H1 & H2); [congruence|].
                assert (Hex : exists n0, In n0 ns /\ Standalone.tasks n0 <> []
                                         /\ Standalone.capacity n0 = 0%Z) by eauto.
                apply IH in Hex. discriminate.
             ++ split; [|reflexivity].
                intros _. destruct (proj1 IH eq_refl) as (x & Hx & H1 & H2).
                exists x. auto. }
  rewrite <- H. destruct (Standalone.response_times ns) as [l|e].
  - split; discriminate.
  - split; intros [= ->]; reflexivity.
Qed.

Lemma standalone_pool_capacities :
  forall n, In n standalone_pool -> (0 < Standalone.capacity n)%Z.
Proof.
  intros n Hn. vm_compute in Hn.
  destruct Hn as [<- | [<- | [<- | []]]]; reflexivity.
Qed.

Lemma standalone_metrics_ranges_witness :
  exists m,
    Standalone.calculate_metrics standalone_pool = Standalone.Returned m
    /\ 0 <= Standalone.avg_response_time m /\ Standalone.avg_response_time m <= 0.5
    /\ 0 <= Standalone.throughput m /\ Standalone.throughput m <= 100
    /\ Forall (fun x => 0 <= x /\ x <= 1) (Standalone.load_distribution m).
Proof.
  apply (standalone_metrics_ranges standalone_pool).
  - exact standalone_pool_within_capacity.
  - exact standalone_pool_capacities.
Defined.
